(** * siso: build executor -- verification of selected components

    Shallow embedding of
    - [build/run_cmd.go]      (dispatch strategy, action reports),
    - [build/cache.go]        (action cache read path, step manifest hash),
    - [reapi/retry/retry.go]  (exponential backoff),
    - [hashfs/filesystem.go]  (symlink-following reads, in-memory files),
    - [scandeps/path_table.go] (path interning),
    - [sync/semaphore/priority_semaphore.go] together with Go's
      [container/heap] (weighted priority semaphore),
    - [toolsupport/gccutil]   (arguments of the dependency scan),
    - [subcmd/metricscmd/cmp.go] (join of two metrics files),
    - [reapi/bytestreamio/bytestreamio.go] (bytestream reader and writer).

    Go [int]/[int64] values are modelled by [Z]; [float64] values by the
    rationals they stand for, each operation rounded to 53 bits; slices by
    [list]; Go maps by stdpp's [gmap]; a Go panic (index out of range, nil
    dereference) by [None] in the [option] monad. *)

From Stdlib Require Import ZArith QArith Lia Bool List String Ascii.
From Stdlib Require Import Sorting.Sorted Sorting.Permutation.
From Stdlib Require Import Qround Qminmax Qpower Lqa.
From stdpp Require Import base option list relations gmap strings numbers.

Open Scope Z_scope.

(* ================================================================= *)
(** ** build/run_cmd.go *)

Module RunCmd.

(** The parts of [execute.Cmd] that [runStrategy] reads. *)
Record Cmd := mkCmd {
  Pure : bool;
  Platform : list (string * string);          (* map[string]string *)
  REProxyConfig : option string               (* *execute.REProxyConfig, nil = None *)
}.

Record Step := mkStep { cmd : Cmd }.

(** The parts of [Builder] that [runStrategy] reads. *)
Record Builder := mkBuilder {
  remoteExec : option unit;                   (* *remoteexec.RemoteExec, nil = None *)
  reproxyExec_Enabled : bool                  (* b.reproxyExec.Enabled() *)
}.

(** The three handlers [runStrategy] can return. *)
Inductive strategy := runReproxy | runRemote | runLocal.

(** [p != nil] on a Go pointer. *)
Definition notnil {A} (p : option A) : bool :=
  match p with Some _ => true | None => false end.

Definition allowRemote (b : Builder) (step : Step) : bool :=
  notnil (remoteExec b) && (0 <? Z.of_nat (length (Platform (cmd step)))).

Definition allowREProxy (b : Builder) (step : Step) : bool :=
  reproxyExec_Enabled b && notnil (REProxyConfig (cmd step)).

Definition runStrategy (b : Builder) (step : Step) : strategy :=
  if Pure (cmd step) && allowREProxy b step then runReproxy
  else if Pure (cmd step) && allowRemote b step then runRemote
  else runLocal.

(** The decision tree as the specification words it: remote first,
    then reproxy, then local. *)
Definition spec_runStrategy (b : Builder) (step : Step) : strategy :=
  if Pure (cmd step) && allowRemote b step then runRemote
  else if Pure (cmd step) && allowREProxy b step then runReproxy
  else runLocal.

(** A pure command with platform properties and a reproxy config, on a
    builder where both executors are available. *)
Definition both_cmd : Cmd :=
  mkCmd true [("OSFamily", "Linux")] (Some "rewrapper.cfg").
Definition both_builder : Builder := mkBuilder (Some tt) true.

(** C1, refuted as stated: with both executors applicable the code picks
    reproxy, whereas the claimed decision tree picks remote. *)
Lemma runStrategy_remote_first_fails :
  Pure both_cmd = true /\
  allowRemote both_builder (mkStep both_cmd) = true /\
  runStrategy both_builder (mkStep both_cmd) = runReproxy /\
  runStrategy both_builder (mkStep both_cmd)
    <> spec_runStrategy both_builder (mkStep both_cmd).
Proof. repeat split; discriminate. Qed.

(** C1, amended: reproxy is considered first. A pure step is dispatched to
    reproxy whenever reproxy is enabled and the command has a reproxy config;
    remote execution is selected exactly when the step is pure, remote is
    available with non-empty platform properties, and the reproxy criterion
    fails; every other step runs locally. *)
Theorem runStrategy_reproxy_first (b : Builder) (step : Step) :
  (runStrategy b step = runReproxy <->
     Pure (cmd step) = true /\ reproxyExec_Enabled b = true
       /\ REProxyConfig (cmd step) <> None) /\
  (runStrategy b step = runRemote <->
     Pure (cmd step) = true /\ remoteExec b <> None /\ Platform (cmd step) <> []
       /\ ~ (reproxyExec_Enabled b = true /\ REProxyConfig (cmd step) <> None)) /\
  (runStrategy b step = runLocal <->
     ~ (Pure (cmd step) = true /\ reproxyExec_Enabled b = true
          /\ REProxyConfig (cmd step) <> None) /\
     ~ (Pure (cmd step) = true /\ remoteExec b <> None /\ Platform (cmd step) <> [])).
Proof.
  destruct step as [[pure plat cfg]], b as [re en].
  unfold runStrategy, allowREProxy, allowRemote; simpl.
  destruct pure, en, cfg as [c|], re as [u|], plat as [|kv plat]; cbn;
    intuition (try discriminate; congruence).
Qed.

(* ----------------------------------------------------------------- *)
(** *** Reporting the start and the end of an action *)

(** What [b.statusReporter] is told about a step. *)
Inductive report := BuildActionStarted | BuildActionFinished | BuildActionCanceled.

(** [step.metrics.ActionStartTime], an [IntervalMetric]: nanoseconds since
    the start of the build, 0 while unset. *)
Record StepMetric := mkStepMetric { ActionStartTime : Z }.

(** [actionStarted]; [reports] are the calls made to the reporter so far and
    [since] is the value of [time.Since(b.start)] at the call. *)
Definition actionStarted (since : Z) (st : list report * StepMetric)
  : list report * StepMetric :=
  let (reports, metrics) := st in
  if ActionStartTime metrics =? 0
  then (reports ++ [BuildActionStarted], mkStepMetric since)
  else (reports, metrics).

(** [actionFinished]; [ctx_Err] tells whether [ctx.Err() != nil]. *)
Definition actionFinished (ctx_Err : bool) (reports : list report) : list report :=
  if ctx_Err then reports ++ [BuildActionCanceled]
  else reports ++ [BuildActionFinished].

(** The calls of [actionStarted] made for one step over its fallbacks and
    retries, at the times [sinces]. *)
Definition actionStarted_calls (sinces : list Z) (st : list report * StepMetric)
  : list report * StepMetric :=
  fold_left (fun st since => actionStarted since st) sinces st.

Lemma actionStarted_set since reports m :
  ActionStartTime m <> 0 -> actionStarted since (reports, m) = (reports, m).
Proof.
  intros H. unfold actionStarted. apply Z.eqb_neq in H. rewrite H. reflexivity.
Qed.

Lemma actionStarted_calls_cons since sinces st :
  actionStarted_calls (since :: sinces) st
  = actionStarted_calls sinces (actionStarted since st).
Proof. reflexivity. Qed.

Lemma actionStarted_calls_set sinces : forall reports m,
  ActionStartTime m <> 0 -> actionStarted_calls sinces (reports, m) = (reports, m).
Proof.
  induction sinces as [|s sinces IH]; intros reports m H; [reflexivity|].
  rewrite actionStarted_calls_cons, actionStarted_set by exact H.
  apply IH, H.
Qed.

(** X1: however often [actionStarted] is called for a step (it is called
    again on fallback and retry), the reporter is told once that the action
    started and [ActionStartTime] keeps the time of the first call, provided
    that time is not 0.  A first call at time 0 leaves the start time unset,
    so that the next call reports the start again. *)
Theorem actionStarted_reports_once (since : Z) (sinces : list Z) (reports : list report)
    (Hsince : since <> 0) :
  actionStarted_calls (since :: sinces) (reports, mkStepMetric 0)
    = (reports ++ [BuildActionStarted], mkStepMetric since) /\
  actionStarted_calls (0 :: since :: sinces) (reports, mkStepMetric 0)
    = (reports ++ [BuildActionStarted; BuildActionStarted], mkStepMetric since).
Proof.
  assert (Hfresh : forall s r, actionStarted s (r, mkStepMetric 0)
                                = (r ++ [BuildActionStarted], mkStepMetric s))
    by reflexivity.
  split.
  - rewrite actionStarted_calls_cons, Hfresh.
    apply actionStarted_calls_set. exact Hsince.
  - rewrite !actionStarted_calls_cons, !Hfresh, <- app_assoc.
    apply actionStarted_calls_set. exact Hsince.
Qed.

Lemma actionStarted_reports_once_witness :
  1500 <> 0 /\
  actionStarted_calls [1500; 2700; 9100] ([], mkStepMetric 0)
    = ([BuildActionStarted], mkStepMetric 1500).
Proof.
  assert (1500 <> 0) as H by discriminate.
  exact (conj H (proj1 (actionStarted_reports_once 1500 [2700; 9100] [] H))).
Defined.

End RunCmd.

(* ================================================================= *)
(** ** google.golang.org/grpc: status codes and errors *)

Module codes.

Inductive Code :=
  | OK | Canceled | Unknown | InvalidArgument | DeadlineExceeded | NotFound
  | AlreadyExists | PermissionDenied | ResourceExhausted | FailedPrecondition
  | Aborted | OutOfRange | Unimplemented | Internal | Unavailable | DataLoss
  | Unauthenticated.

#[global] Instance Code_eq_dec : EqDecision Code.
Proof. solve_decision. Defined.

End codes.

Module status.
Import codes.

(** Go [error] values as far as the modelled code tells them apart: an
    error carrying a gRPC status, the two context errors, any other
    error, and an error wrapping another one ([fmt.Errorf] with [%w]). *)
Inductive error :=
  | Error (c : Code) (msg : string)           (* status.Error(c, msg) *)
  | context_Canceled
  | context_DeadlineExceeded
  | errors_New (msg : string)
  | too_many_retries (retries : Z) (cause : error).

(** [status.FromError]: the status of a gRPC error and [true], otherwise
    an [Unknown] status and [false].  Only the code is kept.  An error
    made by [fmt.Errorf("...%w", err)] unwraps to the status of [err]. *)
Fixpoint FromError (err : error) : Code * bool :=
  match err with
  | Error c _ => (c, true)
  | too_many_retries _ cause => FromError cause
  | _ => (Unknown, false)
  end.

(** [status.FromContextError]. *)
Definition FromContextError (err : error) : Code :=
  match err with
  | context_Canceled => Canceled
  | context_DeadlineExceeded => DeadlineExceeded
  | _ => Unknown
  end.

(** [status.Code(err)]. *)
Definition CodeOf (err : option error) : Code :=
  match err with
  | None => OK
  | Some e => fst (FromError e)
  end.

End status.

(* ================================================================= *)
(** ** Go's [float64] arithmetic *)

Module float64.

(** A [float64] is a rational with a significand of 53 bits; an operation
    on [float64] yields the exact result rounded to the nearest such
    number, a tie going to the even significand.  The range of the exponent
    is not modelled: the delays computed below, counted in nanoseconds, are
    far from its ends. *)

(** [floor (log2 q)] for a rational [q > 0]. *)
Definition ilog2 (q : Q) : Z :=
  let e := Z.log2 (Qnum q) - Z.log2 (Zpos (Qden q)) in
  if Qle_bool (2 ^ e) q then e else e - 1.

(** The nearest integer, a tie going to the even one. *)
Definition nearest_even (q : Q) : Z :=
  let f := Qfloor q in
  match (q - inject_Z f ?= 1 # 2)%Q with
  | Lt => f
  | Gt => f + 1
  | Eq => if Z.even f then f else f + 1
  end.

(** Rounding of a positive rational: [ulp] is the distance between the
    [float64] numbers from 2^e to 2^(e+1), where [q] lies. *)
Definition round_pos (q : Q) : Q :=
  let ulp := (2 ^ (ilog2 q - 52))%Q in
  (inject_Z (nearest_even (q / ulp)) * ulp)%Q.

Definition round (q : Q) : Q :=
  match (q ?= 0)%Q with
  | Eq => 0%Q
  | Gt => round_pos q
  | Lt => (- round_pos (- q))%Q
  end.

(** The unit roundoff, 2^-53. *)
Definition u : Q := 1 # 9007199254740992.

Lemma ilog2_le (q : Q) : (0 < q)%Q -> (2 ^ ilog2 q <= q)%Q.
Proof.
  intros Hq. unfold ilog2.
  set (e := Z.log2 (Qnum q) - Z.log2 (Zpos (Qden q))).
  destruct (Qle_bool (2 ^ e) q) eqn:E; [apply Qle_bool_iff, E|].
  destruct q as [n d]. unfold e. simpl Qnum. simpl Qden.
  assert (0 < n) as Hn by (unfold Qlt in Hq; simpl in Hq; lia).
  pose proof (Z.log2_spec n Hn) as [Hn1 _].
  pose proof (Z.log2_spec (Zpos d) (Pos2Z.is_pos d)) as [_ Hd2].
  pose proof (Z.log2_nonneg n) as Ha. pose proof (Z.log2_nonneg (Zpos d)) as Hb.
  set (a := Z.log2 n) in *. set (b := Z.log2 (Zpos d)) in *.
  replace (a - b - 1) with (a - (b + 1)) by lia.
  rewrite Qpower_minus by discriminate.
  change 2%Q with (inject_Z 2).
  rewrite <- !Zpower_Qpower by lia.
  rewrite <- Z.add_1_r in Hd2.
  assert (0 < 2 ^ (b + 1)) as Hp by (apply Z.pow_pos_nonneg; lia).
  apply Qle_shift_div_r; [rewrite <- (Zlt_Qlt 0); exact Hp|].
  unfold Qle, Qmult, inject_Z; simpl.
  rewrite !Z.mul_1_r.
  apply Z.le_trans with (n * Zpos d); [|nia].
  apply Z.mul_le_mono_nonneg; lia.
Qed.

Lemma nearest_even_error (q : Q) :
  (q - (1 # 2) <= inject_Z (nearest_even q) /\ inject_Z (nearest_even q) <= q + (1 # 2))%Q.
Proof.
  unfold nearest_even.
  pose proof (Qfloor_le q) as H1. pose proof (Qlt_floor q) as H2.
  rewrite inject_Z_plus in H2. change (inject_Z 1) with 1%Q in H2.
  destruct (Qcompare_spec (q - inject_Z (Qfloor q)) (1 # 2)) as [E|E|E].
  - destruct (Z.even (Qfloor q)); [|rewrite inject_Z_plus; change (inject_Z 1) with 1%Q]; lra.
  - lra.
  - rewrite inject_Z_plus. change (inject_Z 1) with 1%Q. lra.
Qed.

(** The relative error of rounding is at most [u]. *)
Lemma round_error (q : Q) :
  (0 <= q)%Q -> (q * (1 - u) <= round q /\ round q <= q * (1 + u))%Q.
Proof.
  intros Hq. unfold round.
  destruct (Qcompare_spec q 0) as [E|E|E].
  - rewrite E. split; vm_compute; discriminate.
  - lra.
  - unfold round_pos.
    pose proof (ilog2_le q E) as He.
    set (e := ilog2 q) in *.
    assert (0 < 2 ^ (e - 52))%Q as Hulp by (apply Qpower_0_lt; reflexivity).
    assert (2 ^ e == 2 ^ (e - 52) * 2 ^ 52)%Q as Hsplit.
    { rewrite <- Qpower_plus by discriminate. replace (e - 52 + 52) with e by lia. reflexivity. }
    set (ulp := (2 ^ (e - 52))%Q) in *.
    assert (2 ^ 52 == 4503599627370496)%Q as H52 by reflexivity.
    rewrite H52 in Hsplit. rewrite Hsplit in He.
    pose proof (nearest_even_error (q / ulp)) as [N1 N2].
    set (m := inject_Z (nearest_even (q / ulp))) in *.
    assert (q == q / ulp * ulp)%Q as Hq' by (field; lra).
    set (t := (q / ulp)%Q) in *.
    unfold u.
    assert ((t - (1 # 2)) * ulp <= m * ulp)%Q as B1 by (apply Qmult_le_compat_r; lra).
    assert (m * ulp <= (t + (1 # 2)) * ulp)%Q as B2 by (apply Qmult_le_compat_r; lra).
    split; lra.
Qed.

Lemma round_nonneg (q : Q) : (0 <= q)%Q -> (0 <= round q)%Q.
Proof.
  intros Hq. pose proof (round_error q Hq) as [H _].
  eapply Qle_trans; [|exact H]. apply Qmult_le_0_compat; [exact Hq|]. vm_compute. discriminate.
Qed.

End float64.

(* ================================================================= *)
(** ** reapi/retry/retry.go *)

Module Retry.
Import codes status.

(** [time.Duration] is an [int64] count of nanoseconds. *)
Definition Millisecond : Z := 1000000.
Definition Second : Z := 1000 * Millisecond.

(** [ExponentialBackoff].  The field [started] only feeds the text of the
    "too many retries" error and is left out. *)
Record ExponentialBackoff := mkBackoff {
  retries : Z;
  delay : Z;
  authRetry : bool
}.

(** The zero value, [var backoff ExponentialBackoff]. *)
Definition zero : ExponentialBackoff := mkBackoff 0 0 false.

Definition retriableError (b : ExponentialBackoff) (err : error)
  : ExponentialBackoff * bool :=
  let (c, ok) := FromError err in
  let c := if ok then c else FromContextError err in
  match c with
  | ResourceExhausted | Internal | Unavailable | Aborted => (b, true)
  | Unknown => (b, ok)
  | Unauthenticated | PermissionDenied =>
      let retry := authRetry b in
      (mkBackoff (retries b) (delay b) true, negb retry)
  | _ => (b, false)
  end.

Definition maxRetries : Z := 10.
Definition multiplier : Q := 2.
Definition baseDelay : Z := 200 * Millisecond.
Definition maxDelay : Q := inject_Z (10 * Second).
Definition backoffRange : Q := 4 # 10.

(** Conversion [time.Duration(x)] of a float to [int64]: truncation
    toward zero. *)
Definition Qtrunc (q : Q) : Z := Z.quot (Qnum q) (Zpos (Qden q)).

(** [Next]; the result is the mutated receiver and the Go pair
    [(time.Duration, error)].  [rnd] is the value drawn by [rand.Float64()],
    a number in [0, 1).  Each [float64] operation on [backoff] (the
    conversions of [b.delay] and of the constant [backoffRange], the
    products, the difference) is rounded on its own. *)
Definition Next (b : ExponentialBackoff) (err : option error) (rnd : Q)
  : ExponentialBackoff * (Z * option error) :=
  match err with
  | None => (b, (0, None))
  | Some e =>
      let b := if delay b =? 0 then mkBackoff (retries b) baseDelay (authRetry b) else b in
      let (b, ok) := retriableError b e in
      if negb ok then (b, (0, Some e))
      else if maxRetries <=? retries b
      then (b, (0, Some (too_many_retries (retries b) e)))
      else
        let b := mkBackoff (retries b + 1) (delay b) (authRetry b) in
        let backoff := float64.round (float64.round (inject_Z (delay b)) * multiplier)%Q in
        let backoff := if Qlt_le_dec maxDelay backoff then maxDelay else backoff in
        let backoff :=
          float64.round
            (backoff - float64.round
                         (float64.round (backoff * float64.round backoffRange) * rnd))%Q in
        let d := Qtrunc backoff in
        let d := if d <? baseDelay then baseDelay else d in
        (mkBackoff (retries b) d (authRetry b), (d, Some e))
  end.

(** [Do].  The closure [f] may give a different result at each call, so it
    is modelled by the sequence of its results; [rnd k] is the random draw
    of the call of [Next] after the [k]-th call of [f], and [ctx_done k] is
    the cause with which the context ends during the wait that follows it
    ([None]: the timer fires first).  Each turn of the [for] loop uses one
    unit of [fuel].  The result carries the number of calls made to [f]. *)
Fixpoint Do_loop (fuel : nat) (f : nat -> option error) (rnd : nat -> Q)
    (ctx_done : nat -> option error) (backoff : ExponentialBackoff) (k : nat)
  : option (nat * option error) :=
  match fuel with
  | O => None
  | S fuel =>
      let err := f k in
      let '(backoff, (delay, err)) := Next backoff err (rnd k) in
      if delay =? 0 then Some (S k, err)
      else match ctx_done k with
           | Some cause => Some (S k, Some cause)
           | None => Do_loop fuel f rnd ctx_done backoff (S k)
           end
  end.

(** Eleven turns are enough for every [f], see [Do_loop_returns]. *)
Definition Do (f : nat -> option error) (rnd : nat -> Q) (ctx_done : nat -> option error)
  : option (nat * option error) :=
  Do_loop 11 f rnd ctx_done zero 0.

(** The codes the specification lists as retryable. *)
Definition retryable_code (c : Code) : bool :=
  match c with
  | Aborted | Internal | ResourceExhausted | Unavailable | Unknown => true
  | _ => false
  end.

Definition auth_code (c : Code) : bool :=
  match c with
  | Unauthenticated | PermissionDenied => true
  | _ => false
  end.


(* ----------------------------------------------------------------- *)


Lemma retriableError_fields b e :
  retries (fst (retriableError b e)) = retries b /\
  delay (fst (retriableError b e)) = delay b.
Proof.
  unfold retriableError. destruct (FromError e) as [c ok].
  destruct ok, c; simpl; try (split; reflexivity);
    destruct (FromContextError e); simpl; split; reflexivity.
Qed.

(** When an error is retried: a gRPC status with one of the retryable
    codes, or with an authentication code on the first such failure. *)
Lemma retriableError_true b e :
  snd (retriableError b e) = true <->
  exists c, FromError e = (c, true) /\
    (retryable_code c = true \/ (auth_code c = true /\ authRetry b = false)).
Proof.
  unfold retriableError. destruct (FromError e) as [c ok]. split.
  - intros H. exists c. destruct ok.
    + split; [reflexivity|].
      destruct c; simpl in *; try discriminate; auto;
        right; split; auto; destruct (authRetry b); auto; discriminate.
    + exfalso. (* a context error never carries an auth code *)
      destruct (FromContextError e) eqn:E; simpl in H; try discriminate;
        destruct e; simpl in E; discriminate.
  - intros (c' & Heq & Hc). injection Heq as <- ->.
    destruct Hc as [Hc|[Hc Ha]]; destruct c; simpl in *; try discriminate;
      try reflexivity; rewrite Ha; reflexivity.
Qed.












(** The delays of [Next] are those of the Go program, to the nanosecond:
    on a fresh backoff the draw 5629499477918125 / 2^53 (just below 5/8)
    gives 300000001 ns, where exact arithmetic would give 300000000 ns;
    the first authentication error is retried with 320 ms at the draw 1/2
    and sets [authRetry], the second is not retried. *)
Example Next_float64 :
  fst (snd (Next zero (Some (Error Internal "internal"))
              (5629499477918125 # 9007199254740992))) = 300000001 /\
  Qtrunc (400000000 - 400000000 * (4 # 10) * (5629499477918125 # 9007199254740992))
    = 300000000 /\
  Next zero (Some (Error PermissionDenied "permission denied")) (1 # 2)
    = (mkBackoff 1 (320 * Millisecond) true,
       (320 * Millisecond, Some (Error PermissionDenied "permission denied"))) /\
  snd (Next (mkBackoff 1 (320 * Millisecond) true)
         (Some (Error Unauthenticated "unauthenticated")) (1 # 2))
    = (0, Some (Error Unauthenticated "unauthenticated")).
Proof. vm_compute. repeat split. Qed.

(** An error carrying one of the two authentication codes. *)
Definition auth_error (err : option error) : Prop :=
  exists c msg, err = Some (Error c msg) /\ auth_code c = true.

Lemma Next_auth_first b c msg rnd :
  auth_code c = true -> authRetry b = false -> retries b < maxRetries ->
  exists b' d, Next b (Some (Error c msg)) rnd = (b', (d, Some (Error c msg))) /\
               d <> 0 /\ authRetry b' = true.
Proof.
  intros Hc Ha Hr. unfold Next, retriableError. simpl FromError. cbv iota.
  set (b1 := if delay b =? 0 then _ else b).
  assert (authRetry b1 = false /\ retries b1 = retries b) as [Ha1 Hr1]
    by (unfold b1; destruct (delay b =? 0); split; assumption || reflexivity).
  destruct c; try discriminate; rewrite Ha1; simpl negb; cbv iota;
    simpl retries; rewrite Hr1;
    (replace (maxRetries <=? retries b) with false by (symmetry; apply Z.leb_gt; lia));
    cbv zeta; simpl;
    match goal with
    | |- context [if ?t <? baseDelay then baseDelay else ?t] =>
        set (d := if t <? baseDelay then baseDelay else t);
        assert (baseDelay <= d) by (unfold d; destruct (t <? baseDelay) eqn:E;
                                    [lia | apply Z.ltb_ge in E; exact E])
    end;
    eexists _, d; repeat split; unfold baseDelay, Millisecond in *; lia.
Qed.

Lemma Next_auth_second b c msg rnd :
  auth_code c = true -> authRetry b = true ->
  exists b', Next b (Some (Error c msg)) rnd = (b', (0, Some (Error c msg))).
Proof.
  intros Hc Ha. unfold Next, retriableError. simpl FromError. cbv iota.
  set (b1 := if delay b =? 0 then _ else b).
  assert (authRetry b1 = true) as Ha1
    by (unfold b1; destruct (delay b =? 0); assumption).
  destruct c; try discriminate; rewrite Ha1; simpl; eexists; reflexivity.
Qed.

(** C5: an authentication failure is retried at most once.  When every
    call of [f] fails with [Unauthenticated] or [PermissionDenied], [Do]
    calls [f] exactly twice and returns the error of the second call, an
    authentication error, provided the context is not done during the one
    backoff wait; if it is done, [f] was called once. *)
Theorem Do_auth_error_retried_once
    (f : nat -> option error) (rnd : nat -> Q) (ctx_done : nat -> option error)
    (Hauth : forall k, auth_error (f k)) :
  auth_error (f 1%nat) /\
  (ctx_done 0%nat = None -> Do f rnd ctx_done = Some (2%nat, f 1%nat)) /\
  (forall cause, ctx_done 0%nat = Some cause ->
     Do f rnd ctx_done = Some (1%nat, Some cause)).
Proof.
  split; [apply Hauth|].
  destruct (Hauth 0%nat) as (c0 & m0 & Hf0 & Hc0).
  destruct (Hauth 1%nat) as (c1 & m1 & Hf1 & Hc1).
  destruct (Next_auth_first zero c0 m0 (rnd 0%nat) Hc0 eq_refl ltac:(reflexivity))
    as (b' & d & HN & Hd & Ha).
  destruct (Next_auth_second b' c1 m1 (rnd 1%nat) Hc1 Ha) as (b'' & HN2).
  unfold Do. split.
  - intros Hctx. simpl. rewrite Hf0, HN.
    apply Z.eqb_neq in Hd. rewrite Hd, Hctx, Hf1, HN2. reflexivity.
  - intros cause Hctx. simpl. rewrite Hf0, HN.
    apply Z.eqb_neq in Hd. rewrite Hd, Hctx. reflexivity.
Qed.

(** The function of [TestDo_AuthError], which always fails with
    [PermissionDenied]. *)
Definition always_denied (k : nat) : option error :=
  Some (Error PermissionDenied "permission denied").

Lemma Do_auth_error_retried_once_witness :
  (forall k, auth_error (always_denied k)) /\
  Do always_denied (fun _ => 0%Q) (fun _ => None)
    = Some (2%nat, Some (Error PermissionDenied "permission denied")).
Proof.
  assert (forall k, auth_error (always_denied k)) as H
    by (intros k; exists PermissionDenied, "permission denied"%string; split; reflexivity).
  split; [exact H|].
  apply (Do_auth_error_retried_once always_denied (fun _ => 0%Q) (fun _ => None) H).
  reflexivity.
Defined.

(** [Do] returns for every [f]: the loop makes at most 11 turns. *)
Lemma Do_loop_returns f rnd ctx_done : forall fuel b k,
  (0 < fuel)%nat -> 10 - retries b < Z.of_nat fuel ->
  is_Some (Do_loop fuel f rnd ctx_done b k).
Proof.
  induction fuel as [|fuel IH]; intros b k Hpos Hf; [lia|].
  simpl. destruct (Next b (f k) (rnd k)) as [b' [d err]] eqn:HN.
  destruct (d =? 0) eqn:Hd; [eauto|].
  destruct (ctx_done k); [eauto|].
  (* a non-zero delay means the retry counter went up, below the maximum *)
  unfold Next in HN. destruct (f k) as [e|]; [|injection HN as <- <- <-; discriminate].
  set (b1 := if delay b =? 0 then _ else b) in HN.
  assert (retries b1 = retries b) as Hr1 by (unfold b1; destruct (delay b =? 0); reflexivity).
  pose proof (retriableError_fields b1 e) as [Hfr _].
  destruct (retriableError b1 e) as [b2 ok]; simpl in Hfr.
  destruct ok; simpl in HN; [|injection HN as <- <- <-; discriminate].
  destruct (maxRetries <=? retries b2) eqn:Hmax; [injection HN as <- <- <-; discriminate|].
  apply Z.leb_gt in Hmax. unfold maxRetries in Hmax.
  injection HN as <- <- <-. apply IH; simpl; lia.
Qed.

Lemma Do_returns f rnd ctx_done : is_Some (Do f rnd ctx_done).
Proof. apply Do_loop_returns; simpl; lia. Qed.

(* ----------------------------------------------------------------- *)
(** *** Further properties of [Do] *)

(** More turns than the loop makes do not change its result. *)
Lemma Do_loop_more f rnd ctx_done : forall fuel fuel' b k r,
  Do_loop fuel f rnd ctx_done b k = Some r -> (fuel <= fuel')%nat ->
  Do_loop fuel' f rnd ctx_done b k = Some r.
Proof.
  induction fuel as [|fuel IH]; intros fuel' b k r H Hle; [discriminate|].
  destruct fuel' as [|fuel']; [lia|]. simpl in *.
  destruct (Next b (f k) (rnd k)) as [b' [d err]].
  destruct (d =? 0); [exact H|].
  destruct (ctx_done k); [exact H|].
  apply (IH fuel' b' (S k) r H). lia.
Qed.

(** The loop at its [k]-th turn returns a call count between [k + 1] and
    [k + fuel]. *)
Lemma Do_loop_calls f rnd ctx_done : forall fuel b k n err,
  Do_loop fuel f rnd ctx_done b k = Some (n, err) -> (k < n <= k + fuel)%nat.
Proof.
  induction fuel as [|fuel IH]; intros b k n err H; [discriminate|].
  simpl in H. destruct (Next b (f k) (rnd k)) as [b' [d e]].
  destruct (d =? 0); [injection H as <- _; lia|].
  destruct (ctx_done k); [injection H as <- _; lia|].
  apply IH in H. lia.
Qed.

(** X2: [Do] returns after at most eleven calls of [f], whatever [f] returns
    and however the backoff is jittered: the first call and at most ten
    retries.  A loop allowed to run longer returns the same result. *)
Theorem Do_at_most_eleven_calls
    (f : nat -> option error) (rnd : nat -> Q) (ctx_done : nat -> option error) :
  exists n err, Do f rnd ctx_done = Some (n, err) /\ (1 <= n <= 11)%nat /\
    forall fuel, (11 <= fuel)%nat -> Do_loop fuel f rnd ctx_done zero 0 = Some (n, err).
Proof.
  destruct (Do_returns f rnd ctx_done) as [[n err] H].
  exists n, err. split; [exact H|]. split.
  - unfold Do in H. apply Do_loop_calls in H. lia.
  - intros fuel Hf. eapply Do_loop_more; [exact H | exact Hf].
Qed.

(** An error that [retriableError] never retries: it carries no gRPC status
    (a plain error, [context.Canceled], [context.DeadlineExceeded]), or its
    code is neither a retryable nor an authentication code. *)
Definition permanent (e : error) : Prop :=
  snd (FromError e) = false \/
  (retryable_code (fst (FromError e)) = false /\ auth_code (fst (FromError e)) = false).

Lemma retriableError_permanent b e :
  permanent e -> snd (retriableError b e) = false.
Proof.
  intros Hp. destruct (snd (retriableError b e)) eqn:E; [|reflexivity].
  apply retriableError_true in E as (c & Hc & Hr). unfold permanent in Hp.
  rewrite Hc in Hp. simpl in Hp.
  destruct Hp as [Hp|[Hp1 Hp2]]; [discriminate|].
  destruct Hr as [Hr|[Hr _]]; congruence.
Qed.

Lemma Next_permanent b e rnd :
  permanent e -> snd (Next b (Some e) rnd) = (0, Some e).
Proof.
  intros Hp. unfold Next.
  set (b1 := if delay b =? 0 then _ else b).
  pose proof (retriableError_permanent b1 e Hp) as H.
  destruct (retriableError b1 e) as [b2 ok]. simpl in H. subst ok. reflexivity.
Qed.

(** A failure with a retryable code, below the retry limit: [Next] asks for a
    retry after a non-zero delay and counts it. *)
Lemma Next_retryable b c msg rnd :
  retryable_code c = true -> retries b < maxRetries ->
  exists b' d, Next b (Some (Error c msg)) rnd = (b', (d, Some (Error c msg))) /\
               d <> 0 /\ retries b' = retries b + 1.
Proof.
  intros Hc Hr. unfold Next, retriableError. simpl FromError. cbv iota.
  set (b1 := if delay b =? 0 then _ else b).
  assert (retries b1 = retries b) as Hr1
    by (unfold b1; destruct (delay b =? 0); reflexivity).
  destruct c; try discriminate; simpl negb; cbv iota;
    rewrite Hr1;
    (replace (maxRetries <=? retries b) with false by (symmetry; apply Z.leb_gt; lia));
    cbv zeta; simpl;
    match goal with
    | |- context [if ?t <? baseDelay then baseDelay else ?t] =>
        set (d := if t <? baseDelay then baseDelay else t);
        assert (baseDelay <= d) by (unfold d; destruct (t <? baseDelay) eqn:E;
                                    [lia | apply Z.ltb_ge in E; exact E])
    end;
    eexists _, d; repeat split; unfold baseDelay, Millisecond in *; lia.
Qed.

(** At the retry limit [Next] gives up with an error that wraps the last one. *)
Lemma Next_exhausted b c msg rnd :
  retryable_code c = true -> maxRetries <= retries b ->
  snd (Next b (Some (Error c msg)) rnd)
  = (0, Some (too_many_retries (retries b) (Error c msg))).
Proof.
  intros Hc Hr. unfold Next, retriableError. simpl FromError. cbv iota.
  set (b1 := if delay b =? 0 then _ else b).
  assert (retries b1 = retries b) as Hr1
    by (unfold b1; destruct (delay b =? 0); reflexivity).
  destruct c; try discriminate; simpl negb; cbv iota; rewrite Hr1;
    (replace (maxRetries <=? retries b) with true by (symmetry; apply Z.leb_le; lia));
    reflexivity.
Qed.

(** A failure of [f] with a retryable gRPC code. *)
Definition transient (err : option error) : Prop :=
  exists c msg, err = Some (Error c msg) /\ retryable_code c = true.

(** The loop over a run of transient failures: from a state with [r]
    retries made, [j] more turns pass if there is room for them below the
    retry limit and the context stays alive. *)
Lemma Do_loop_transient f rnd ctx_done : forall j fuel b k,
  (forall i, (k <= i < k + j)%nat -> transient (f i) /\ ctx_done i = None) ->
  retries b + Z.of_nat j <= maxRetries ->
  exists b', retries b' = retries b + Z.of_nat j /\
    Do_loop (j + fuel) f rnd ctx_done b k = Do_loop fuel f rnd ctx_done b' (k + j).
Proof.
  induction j as [|j IH]; intros fuel b k Hf Hr.
  - exists b. split; [lia|]. replace (k + 0)%nat with k by lia. reflexivity.
  - destruct (Hf k ltac:(lia)) as [(c & msg & Hfk & Hc) Hctx].
    destruct (Next_retryable b c msg (rnd k) Hc ltac:(lia)) as (b1 & d & HN & Hd & Hr1).
    destruct (IH fuel b1 (S k)) as (b' & Hr' & Hloop).
    { intros i Hi. apply Hf. lia. }
    { lia. }
    exists b'. split; [lia|].
    change (S j + fuel)%nat with (S (j + fuel)). simpl Do_loop at 1.
    rewrite Hfk, HN. apply Z.eqb_neq in Hd. rewrite Hd, Hctx, Hloop.
    replace (S k + j)%nat with (k + S j)%nat by lia. reflexivity.
Qed.

(** X3: when every call of [f] fails with a retryable gRPC code and the
    context stays alive, [Do] calls [f] eleven times and then gives up.  The
    error returned wraps the error of the last call, so its status code is
    still the code of that call. *)
Theorem Do_gives_up_after_ten_retries
    (f : nat -> option error) (rnd : nat -> Q) (ctx_done : nat -> option error)
    (Hf : forall k, transient (f k)) (Hctx : forall k, ctx_done k = None) :
  exists c msg, f 10%nat = Some (Error c msg) /\
    Do f rnd ctx_done = Some (11%nat, Some (too_many_retries 10 (Error c msg))) /\
    CodeOf (Some (too_many_retries 10 (Error c msg))) = c.
Proof.
  destruct (Hf 10%nat) as (c & msg & Hf10 & Hc).
  exists c, msg. split; [exact Hf10|]. split; [|reflexivity].
  destruct (Do_loop_transient f rnd ctx_done 10 1 zero 0) as (b' & Hr & Hloop).
  { intros i _. split; [apply Hf | apply Hctx]. }
  { simpl. unfold maxRetries. lia. }
  unfold Do. change 11%nat with (10 + 1)%nat. rewrite Hloop.
  simpl in Hr. simpl Do_loop. rewrite Hf10.
  pose proof (Next_exhausted b' c msg (rnd 10%nat) Hc ltac:(unfold maxRetries; lia)) as HN.
  destruct (Next b' (Some (Error c msg)) (rnd 10%nat)) as [b'' [d err]]. simpl in HN.
  injection HN as -> ->. rewrite Hr. reflexivity.
Qed.

(** A function that always fails with [Unavailable]. *)
Definition always_unavailable (k : nat) : option error :=
  Some (Error Unavailable "connection refused").

Lemma Do_gives_up_after_ten_retries_witness :
  (forall k, transient (always_unavailable k)) /\
  (forall k : nat, (fun _ : nat => @None error) k = None) /\
  exists c msg, always_unavailable 10%nat = Some (Error c msg) /\
    Do always_unavailable (fun _ => 0%Q) (fun _ => None)
      = Some (11%nat, Some (too_many_retries 10 (Error c msg))) /\
    CodeOf (Some (too_many_retries 10 (Error c msg))) = c.
Proof.
  assert (forall k, transient (always_unavailable k)) as H1
    by (intros k; exists Unavailable, "connection refused"%string; split; reflexivity).
  assert (forall k : nat, (fun _ : nat => @None error) k = None) as H2
    by (intros k; reflexivity).
  split; [exact H1|]. split; [exact H2|].
  exact (Do_gives_up_after_ten_retries always_unavailable (fun _ => 0%Q) (fun _ => None) H1 H2).
Defined.

(** X4: an error that is not retriable ends [Do] at once and is returned as
    it is: when call number [j] of [f] (counting from 0, [j <= 10]) fails
    with such an error, after transient failures during which the context
    stayed alive, [Do] returns that error after exactly [j + 1] calls.  In
    particular [f] is called once when its first call fails this way, as in
    [TestDo_NonRetriableError]. *)
Theorem Do_permanent_error_not_retried
    (f : nat -> option error) (rnd : nat -> Q) (ctx_done : nat -> option error)
    (j : nat) (e : error)
    (Hj : (j <= 10)%nat)
    (Hbefore : forall i, (i < j)%nat -> transient (f i) /\ ctx_done i = None)
    (Hf : f j = Some e) (Hp : permanent e) :
  Do f rnd ctx_done = Some (S j, Some e).
Proof.
  destruct (Do_loop_transient f rnd ctx_done j 1 zero 0) as (b' & _ & Hloop).
  { intros i Hi. apply Hbefore. lia. }
  { simpl. unfold maxRetries. lia. }
  unfold Do. apply (Do_loop_more f rnd ctx_done (j + 1)); [|lia].
  rewrite Hloop. simpl. rewrite Hf.
  pose proof (Next_permanent b' e (rnd j) Hp) as H.
  destruct (Next b' (Some e) (rnd j)) as [b'' [d err]]. simpl in H.
  injection H as -> ->. reflexivity.
Qed.

(** A function that fails with a plain error, as in
    [TestDo_NonRetriableError]. *)
Definition always_plain_error (k : nat) : option error := Some (errors_New "error").

Lemma Do_permanent_error_not_retried_witness :
  (0 <= 10)%nat /\ permanent (errors_New "error") /\
  Do always_plain_error (fun _ => 0%Q) (fun _ => None)
    = Some (1%nat, Some (errors_New "error")).
Proof.
  assert (permanent (errors_New "error")) as Hp by (left; reflexivity).
  split; [lia|]. split; [exact Hp|].
  apply (Do_permanent_error_not_retried always_plain_error (fun _ => 0%Q) (fun _ => None)
           0 (errors_New "error")).
  - lia.
  - intros i Hi. lia.
  - reflexivity.
  - exact Hp.
Defined.

(** [Next] returns a nil error only for a nil error. *)
Lemma Next_nil b err rnd :
  snd (snd (Next b err rnd)) = None -> err = None.
Proof.
  destruct err as [e|]; [|reflexivity]. unfold Next.
  set (b1 := if delay b =? 0 then _ else b).
  destruct (retriableError b1 e) as [b2 ok].
  destruct ok; simpl; [|discriminate].
  destruct (maxRetries <=? retries b2); simpl; discriminate.
Qed.

Lemma Do_loop_nil f rnd ctx_done : forall fuel b k n,
  Do_loop fuel f rnd ctx_done b k = Some (n, None) ->
  exists j, n = S j /\ (k <= j)%nat /\ f j = None.
Proof.
  induction fuel as [|fuel IH]; intros b k n H; [discriminate|].
  simpl in H.
  pose proof (Next_nil b (f k) (rnd k)) as HN.
  destruct (Next b (f k) (rnd k)) as [b' [d err]]. simpl in HN.
  destruct (d =? 0).
  - injection H as <- ->. exists k. auto.
  - destruct (ctx_done k); [discriminate|].
    destruct (IH _ _ _ H) as (j & -> & Hj & Hfj). exists j. split; [reflexivity|].
    split; [lia | exact Hfj].
Qed.

(** X5: [Do] reports success only for a success of [f]: when it returns nil,
    the last call of [f] returned nil.  Conversely, when [f] succeeds at
    its call number [j] (counting from 0, [j <= 10]) after transient failures
    during which the context stayed alive, [Do] returns nil after exactly
    [j + 1] calls, as in [TestDo_RetriableError]. *)
Theorem Do_nil_iff_last_call_nil
    (f : nat -> option error) (rnd : nat -> Q) (ctx_done : nat -> option error) :
  (forall n, Do f rnd ctx_done = Some (n, None) ->
     exists j, n = S j /\ f j = None) /\
  (forall j, (j <= 10)%nat -> f j = None ->
     (forall i, (i < j)%nat -> transient (f i) /\ ctx_done i = None) ->
     Do f rnd ctx_done = Some (S j, None)).
Proof.
  split.
  - intros n H. unfold Do in H.
    destruct (Do_loop_nil f rnd ctx_done _ _ _ _ H) as (j & -> & _ & Hj).
    eauto.
  - intros j Hj Hfj Hbefore.
    destruct (Do_loop_transient f rnd ctx_done j 1 zero 0) as (b' & _ & Hloop).
    { intros i Hi. apply Hbefore. lia. }
    { simpl. unfold maxRetries. lia. }
    unfold Do. apply (Do_loop_more f rnd ctx_done (j + 1)); [|lia].
    rewrite Hloop. simpl. rewrite Hfj. reflexivity.
Qed.

(** X6: a context that ends during a backoff wait ends [Do]: if the first
    [j + 1] calls of [f] fail with retryable codes ([j <= 9]) and the context
    is done during the wait after call [j], [Do] returns the cause of the
    context after [j + 1] calls, without calling [f] again. *)
Theorem Do_context_done_during_wait
    (f : nat -> option error) (rnd : nat -> Q) (ctx_done : nat -> option error)
    (j : nat) (cause : error)
    (Hj : (j <= 9)%nat)
    (Hf : forall i, (i <= j)%nat -> transient (f i))
    (Halive : forall i, (i < j)%nat -> ctx_done i = None)
    (Hdone : ctx_done j = Some cause) :
  Do f rnd ctx_done = Some (S j, Some cause).
Proof.
  destruct (Do_loop_transient f rnd ctx_done j 1 zero 0) as (b' & Hr & Hloop).
  { intros i Hi. split; [apply Hf; lia | apply Halive; lia]. }
  { simpl. unfold maxRetries. lia. }
  unfold Do. apply (Do_loop_more f rnd ctx_done (j + 1)); [|lia].
  rewrite Hloop. simpl.
  destruct (Hf j ltac:(lia)) as (c & msg & Hfj & Hc). rewrite Hfj.
  destruct (Next_retryable b' c msg (rnd j) Hc) as (b1 & d & HN & Hd & _).
  { simpl in Hr. unfold maxRetries. lia. }
  rewrite HN. apply Z.eqb_neq in Hd. rewrite Hd, Hdone. reflexivity.
Qed.

Lemma Do_context_done_during_wait_witness :
  (0 <= 9)%nat /\
  Do always_unavailable (fun _ => 0%Q) (fun _ => Some context_Canceled)
    = Some (1%nat, Some context_Canceled).
Proof.
  split; [lia|].
  apply (Do_context_done_during_wait always_unavailable (fun _ => 0%Q)
           (fun _ => Some context_Canceled) 0 context_Canceled).
  - lia.
  - intros i _. exists Unavailable, "connection refused"%string. split; reflexivity.
  - intros i Hi. lia.
  - reflexivity.
Defined.

End Retry.

(* ================================================================= *)
(** ** build/cache.go: reading the action cache *)

Module Cache.
Import codes status.

Definition bytes := list Z.

Record Digest := mkDigest { Hash : string; SizeBytes : Z }.

(** The fields of [rpb.ActionResult] read here. A nil proto digest is [None]. *)
Record ActionResult := mkActionResult {
  StdoutRaw : bytes;
  StdoutDigest : option Digest;
  StderrRaw : bytes;
  StderrDigest : option Digest
}.

(** [digest.FromProto]: the zero digest for a nil proto. *)
Definition FromProto (d : option Digest) : Digest :=
  match d with Some d => d | None => mkDigest EmptyString 0 end.

(** [cachestore.CacheStore], the two methods called here. *)
Record CacheStore := mkCacheStore {
  store_GetActionResult : Digest -> ActionResult + error;
  store_GetContent : Digest -> string -> bytes + error
}.

(** Modelled from the spec: [execute.Cmd] belongs to package [execute],
    which is not part of the sources at hand.  The record holds the state
    written by [GetActionResult] and what the two methods called on the
    command return: [cmd.Digest] computes the action digest of the command
    and [cmd.RecordOutputs] installs the outputs in HashFS.  Whatever else
    the two calls may do to the command is not modelled. *)
Record Cmd := mkCmd {
  cmd_Digest : Digest + error;                (* cmd.Digest(ctx, nil) *)
  cmd_RecordOutputs : option error;           (* cmd.RecordOutputs(ctx, store, now) *)
  actionDigest : option Digest;
  actionResult : option (ActionResult * bool);
  stdout : bytes;                             (* cmd.StdoutWriter() buffer *)
  stderr : bytes                              (* cmd.StderrWriter() buffer *)
}.

Definition SetActionDigest (cmd : Cmd) (d : Digest) : Cmd :=
  mkCmd (cmd_Digest cmd) (cmd_RecordOutputs cmd) (Some d) (actionResult cmd)
        (stdout cmd) (stderr cmd).
Definition SetActionResult (cmd : Cmd) (r : ActionResult) (cached : bool) : Cmd :=
  mkCmd (cmd_Digest cmd) (cmd_RecordOutputs cmd) (actionDigest cmd) (Some (r, cached))
        (stdout cmd) (stderr cmd).
Definition StdoutWrite (cmd : Cmd) (b : bytes) : Cmd :=
  mkCmd (cmd_Digest cmd) (cmd_RecordOutputs cmd) (actionDigest cmd) (actionResult cmd)
        (stdout cmd ++ b) (stderr cmd).
Definition StderrWrite (cmd : Cmd) (b : bytes) : Cmd :=
  mkCmd (cmd_Digest cmd) (cmd_RecordOutputs cmd) (actionDigest cmd) (actionResult cmd)
        (stdout cmd) (stderr cmd ++ b).

(** [Cache]; [sema_wait] is the error, if any, with which waiting for the
    cache-digest semaphore ends (the context is done before a slot is free). *)
Record Cache := mkCache {
  store : option CacheStore;
  enableRead : bool;
  sema_wait : option error
}.

(** [c.sema.Do(ctx, f)]. *)
Definition sema_Do {A} (c : Cache) (f : A + error) : A + error :=
  match sema_wait c with
  | Some e => inr e
  | None => f
  end.

Definition setActionResultStdout (st : CacheStore) (cmd : Cmd) (result : ActionResult)
  : Cmd * option error :=
  if 0 <? Z.of_nat (length (StdoutRaw result)) then (StdoutWrite cmd (StdoutRaw result), None)
  else
    let d := FromProto (StdoutDigest result) in
    if SizeBytes d =? 0 then (cmd, None)
    else match store_GetContent st d "stdout" with
         | inr err => (cmd, Some err)
         | inl buf => (StdoutWrite cmd buf, None)
         end.

Definition setActionResultStderr (st : CacheStore) (cmd : Cmd) (result : ActionResult)
  : Cmd * option error :=
  if 0 <? Z.of_nat (length (StderrRaw result)) then (StderrWrite cmd (StderrRaw result), None)
  else
    let d := FromProto (StderrDigest result) in
    if SizeBytes d =? 0 then (cmd, None)
    else match store_GetContent st d "stderr" with
         | inr err => (cmd, Some err)
         | inl buf => (StderrWrite cmd buf, None)
         end.

(** [GetActionResult]; a nil receiver is [None]. *)
Definition GetActionResult (c : option Cache) (cmd : Cmd) : Cmd * option error :=
  match c with
  | None => (cmd, Some (Error NotFound "cache is not configured"))
  | Some c =>
    match store c with
    | None => (cmd, Some (Error NotFound "cache is not configured"))
    | Some st =>
      if negb (enableRead c) then (cmd, Some (Error NotFound "cache disable raed"))
      else
        match sema_Do c (cmd_Digest cmd) with
        | inr err => (cmd, Some err)
        | inl d =>
          match store_GetActionResult st d with
          | inr err => (cmd, Some err)
          | inl result =>
            let cmd := SetActionDigest cmd d in
            let cmd := SetActionResult cmd result true in
            match setActionResultStdout st cmd result with
            | (cmd, Some err) => (cmd, Some err)
            | (cmd, None) =>
              match setActionResultStderr st cmd result with
              | (cmd, Some err) => (cmd, Some err)
              | (cmd, None) =>
                match cmd_RecordOutputs cmd with
                | Some err => (cmd, Some err)
                | None => (cmd, None)
                end
              end
            end
          end
        end
    end
  end.

(** There was an action-cache hit: the cache is readable, the digest was
    computed and the store returned [result]. *)
Definition cache_hit (c : Cache) (st : CacheStore) (cmd : Cmd) (result : ActionResult) : Prop :=
  store c = Some st /\ enableRead c = true /\
  exists d, sema_Do c (cmd_Digest cmd) = inl d /\ store_GetActionResult st d = inl result.


(** A store with a cached result whose stdout is referenced by digest and
    whose content fetch is refused by the backend. *)
Definition hit_result : ActionResult :=
  mkActionResult [] (Some (mkDigest "e3b0c442" 5)) [] None.
Definition flaky_store : CacheStore :=
  mkCacheStore (fun _ => inl hit_result)
               (fun _ _ => inr (Error Unavailable "connection reset")).
Definition flaky_cache : Cache := mkCache (Some flaky_store) true None.
Definition some_cmd : Cmd :=
  mkCmd (inl (mkDigest "ac710" 142)) None None None [] [].






(* ----------------------------------------------------------------- *)
(** *** Further properties of [GetActionResult] *)

(** What [setActionResultStdout] appends to the command's stdout when it
    succeeds: the inlined bytes if there are any, else nothing for an absent
    or empty digest, else the content fetched from the store. *)
Definition stdout_content (st : CacheStore) (result : ActionResult) : option bytes :=
  match StdoutRaw result with
  | _ :: _ => Some (StdoutRaw result)
  | [] =>
      let d := FromProto (StdoutDigest result) in
      if SizeBytes d =? 0 then Some []
      else match store_GetContent st d "stdout" with
           | inl buf => Some buf
           | inr _ => None
           end
  end.

Definition stderr_content (st : CacheStore) (result : ActionResult) : option bytes :=
  match StderrRaw result with
  | _ :: _ => Some (StderrRaw result)
  | [] =>
      let d := FromProto (StderrDigest result) in
      if SizeBytes d =? 0 then Some []
      else match store_GetContent st d "stderr" with
           | inl buf => Some buf
           | inr _ => None
           end
  end.

Lemma app_nil_bytes (l : bytes) : l ++ [] = l.
Proof. apply app_nil_r. Qed.

Lemma setActionResultStdout_spec st cmd result :
  match stdout_content st result with
  | Some out =>
      setActionResultStdout st cmd result
      = (mkCmd (cmd_Digest cmd) (cmd_RecordOutputs cmd) (actionDigest cmd)
               (actionResult cmd) (stdout cmd ++ out) (stderr cmd), None)
  | None =>
      exists err, setActionResultStdout st cmd result = (cmd, Some err) /\
        store_GetContent st (FromProto (StdoutDigest result)) "stdout" = inr err
  end.
Proof.
  unfold stdout_content, setActionResultStdout, StdoutWrite.
  destruct (StdoutRaw result) as [|x raw]; simpl length.
  - simpl. destruct (SizeBytes (FromProto (StdoutDigest result)) =? 0).
    + rewrite app_nil_bytes. destruct cmd; reflexivity.
    + destruct (store_GetContent st _ "stdout") as [buf|err]; [reflexivity|eauto].
  - replace (0 <? Z.of_nat (S (length raw))) with true
      by (symmetry; apply Z.ltb_lt; lia). reflexivity.
Qed.

Lemma setActionResultStderr_spec st cmd result :
  match stderr_content st result with
  | Some out =>
      setActionResultStderr st cmd result
      = (mkCmd (cmd_Digest cmd) (cmd_RecordOutputs cmd) (actionDigest cmd)
               (actionResult cmd) (stdout cmd) (stderr cmd ++ out), None)
  | None =>
      exists err, setActionResultStderr st cmd result = (cmd, Some err) /\
        store_GetContent st (FromProto (StderrDigest result)) "stderr" = inr err
  end.
Proof.
  unfold stderr_content, setActionResultStderr, StderrWrite.
  destruct (StderrRaw result) as [|x raw]; simpl length.
  - simpl. destruct (SizeBytes (FromProto (StderrDigest result)) =? 0).
    + rewrite app_nil_bytes. destruct cmd; reflexivity.
    + destruct (store_GetContent st _ "stderr") as [buf|err]; [reflexivity|eauto].
  - replace (0 <? Z.of_nat (S (length raw))) with true
      by (symmetry; apply Z.ltb_lt; lia). reflexivity.
Qed.

(** X7: without a hit [GetActionResult] returns an error.  If the cache is
    nil, has no store or has reading disabled, it returns [NotFound] at
    once: no method of the command is called, and the command is as it was.
    Otherwise, if the wait for the semaphore or the computation of the
    digest fails, or if the lookup in the store fails, it returns that
    error as it is.  So the result is never nil without a hit. *)
Theorem GetActionResult_without_hit (c : option Cache) (cmd : Cmd) :
  ((c = None \/ exists c0, c = Some c0 /\ (store c0 = None \/ enableRead c0 = false)) ->
     fst (GetActionResult c cmd) = cmd /\
     CodeOf (snd (GetActionResult c cmd)) = NotFound) /\
  (forall c0 st, c = Some c0 -> store c0 = Some st -> enableRead c0 = true ->
     (forall err, sema_Do c0 (cmd_Digest cmd) = inr err ->
        snd (GetActionResult c cmd) = Some err) /\
     (forall d err, sema_Do c0 (cmd_Digest cmd) = inl d ->
        store_GetActionResult st d = inr err ->
        snd (GetActionResult c cmd) = Some err)) /\
  ((forall c0 st result, c = Some c0 -> store c0 = Some st ->
      ~ cache_hit c0 st cmd result) ->
     snd (GetActionResult c cmd) <> None).
Proof.
  split_and!.
  - intros [->|(c0 & -> & [H|H])]; unfold GetActionResult.
    + split; reflexivity.
    + rewrite H. split; reflexivity.
    + rewrite H. destruct (store c0); split; reflexivity.
  - intros c0 st -> Hst Hen. unfold GetActionResult. rewrite Hst, Hen.
    simpl negb. cbv iota. split.
    + intros err ->. reflexivity.
    + intros d err -> ->. reflexivity.
  - intros Hmiss. unfold GetActionResult.
    destruct c as [c0|]; [|discriminate].
    destruct (store c0) as [st|] eqn:Hst; [|discriminate].
    destruct (enableRead c0) eqn:Hen; [|discriminate]. simpl negb. cbv iota.
    destruct (sema_Do c0 (cmd_Digest cmd)) as [d|err] eqn:Hd; [|discriminate].
    destruct (store_GetActionResult st d) as [result|err] eqn:Hres; [|discriminate].
    exfalso. apply (Hmiss c0 st result eq_refl Hst).
    split; [exact Hst|]. split; [exact Hen|]. exists d. auto.
Qed.

(** A cache whose reading is disabled, over the store of the example
    above, and a cache whose store cannot be reached. *)
Definition disabled_cache : Cache := mkCache (Some flaky_store) false None.

Definition unreachable_store : CacheStore :=
  mkCacheStore (fun _ => inr (Error Unavailable "connection reset"))
               (fun _ _ => inr (Error Unavailable "connection reset")).
Definition unreachable_cache : Cache := mkCache (Some unreachable_store) true None.

Lemma GetActionResult_without_hit_witness :
  (fst (GetActionResult (Some disabled_cache) some_cmd) = some_cmd /\
   CodeOf (snd (GetActionResult (Some disabled_cache) some_cmd)) = NotFound) /\
  snd (GetActionResult (Some unreachable_cache) some_cmd)
    = Some (Error Unavailable "connection reset").
Proof.
  split.
  - apply (proj1 (GetActionResult_without_hit (Some disabled_cache) some_cmd)).
    right. exists disabled_cache. split; [reflexivity|]. right. reflexivity.
  - destruct (GetActionResult_without_hit (Some unreachable_cache) some_cmd)
      as (_ & H & _).
    destruct (H unreachable_cache unreachable_store eq_refl eq_refl eq_refl) as [_ H2].
    apply (H2 (mkDigest "ac710" 142)); reflexivity.
Defined.

(** X8: what success means.  [GetActionResult] returns nil only after a hit
    whose sub-fetches all succeeded, and then the command carries the action
    digest, the cached result marked as cached, and its stdout and stderr
    extended by the result's output: the inlined bytes where present, else
    the content fetched by digest (nothing for an absent or empty digest). *)
Theorem GetActionResult_success (c : Cache) (cmd : Cmd) :
  snd (GetActionResult (Some c) cmd) = None ->
  exists st d result out err,
    store c = Some st /\ enableRead c = true /\
    sema_Do c (cmd_Digest cmd) = inl d /\ store_GetActionResult st d = inl result /\
    stdout_content st result = Some out /\ stderr_content st result = Some err /\
    cmd_RecordOutputs cmd = None /\
    fst (GetActionResult (Some c) cmd)
    = mkCmd (cmd_Digest cmd) (cmd_RecordOutputs cmd) (Some d) (Some (result, true))
            (stdout cmd ++ out) (stderr cmd ++ err).
Proof.
  unfold GetActionResult.
  destruct (store c) as [st|] eqn:Hst; [|discriminate].
  destruct (enableRead c) eqn:Hen; [|discriminate]. simpl negb. cbv iota.
  destruct (sema_Do c (cmd_Digest cmd)) as [d|e] eqn:Hd; [|discriminate].
  destruct (store_GetActionResult st d) as [result|e] eqn:Hres; [|discriminate].
  set (cmd0 := SetActionResult (SetActionDigest cmd d) result true).
  pose proof (setActionResultStdout_spec st cmd0 result) as H1.
  destruct (stdout_content st result) as [out|] eqn:Hout.
  2:{ destruct H1 as (e & -> & _). discriminate. }
  rewrite H1.
  set (cmd1 := mkCmd _ _ _ _ _ _) in *.
  pose proof (setActionResultStderr_spec st cmd1 result) as H2.
  destruct (stderr_content st result) as [err|] eqn:Herr.
  2:{ destruct H2 as (e & -> & _). discriminate. }
  rewrite H2. simpl.
  destruct (cmd_RecordOutputs cmd) eqn:Hrec; [discriminate|]. intros _.
  exists st, d, result, out, err. repeat split; auto.
Qed.

(** A store with a cached result whose stdout is inlined and whose stderr is
    fetched by digest. *)
Definition good_result : ActionResult :=
  mkActionResult [111; 107] None [] (Some (mkDigest "9f86d081" 3)).
Definition good_store : CacheStore :=
  mkCacheStore (fun _ => inl good_result) (fun _ _ => inl [101; 114; 114]).
Definition good_cache : Cache := mkCache (Some good_store) true None.

Lemma GetActionResult_success_witness :
  snd (GetActionResult (Some good_cache) some_cmd) = None /\
  exists st d result out err,
    store good_cache = Some st /\ enableRead good_cache = true /\
    sema_Do good_cache (cmd_Digest some_cmd) = inl d /\
    store_GetActionResult st d = inl result /\
    stdout_content st result = Some out /\ stderr_content st result = Some err /\
    cmd_RecordOutputs some_cmd = None /\
    fst (GetActionResult (Some good_cache) some_cmd)
    = mkCmd (cmd_Digest some_cmd) (cmd_RecordOutputs some_cmd) (Some d)
            (Some (result, true)) (stdout some_cmd ++ out) (stderr some_cmd ++ err).
Proof.
  assert (snd (GetActionResult (Some good_cache) some_cmd) = None) as H by reflexivity.
  exact (conj H (GetActionResult_success good_cache some_cmd H)).
Defined.

(** The command after the call: stdout holds the inlined bytes and stderr
    the fetched ones. *)
Example GetActionResult_good_cache :
  GetActionResult (Some good_cache) some_cmd
  = (mkCmd (inl (mkDigest "ac710" 142)) None (Some (mkDigest "ac710" 142))
           (Some (good_result, true)) [111; 107] [101; 114; 114], None).
Proof. reflexivity. Qed.

(** X9: a hit marks the command even when a sub-fetch fails afterwards.
    After a hit the command returned carries the action digest and the
    cached result whatever the outcome; and when fetching stderr fails, the
    stdout of the cached result has already been written to the command. *)
Theorem GetActionResult_hit_marks_cmd
    (c : Cache) (st : CacheStore) (cmd : Cmd) (result : ActionResult)
    (Hhit : cache_hit c st cmd result) :
  exists d, sema_Do c (cmd_Digest cmd) = inl d /\
  let cmd' := fst (GetActionResult (Some c) cmd) in
  actionDigest cmd' = Some d /\
  actionResult cmd' = Some (result, true) /\
  (forall out, stdout_content st result = Some out ->
     stdout cmd' = stdout cmd ++ out) /\
  (stdout_content st result = None ->
     stdout cmd' = stdout cmd /\ stderr cmd' = stderr cmd).
Proof.
  destruct Hhit as (Hst & Hen & d & Hd & Hres).
  exists d. split; [exact Hd|]. unfold GetActionResult.
  rewrite Hst, Hen, Hd, Hres. simpl negb. cbv iota.
  set (cmd0 := SetActionResult (SetActionDigest cmd d) result true).
  pose proof (setActionResultStdout_spec st cmd0 result) as H1.
  destruct (stdout_content st result) as [out|] eqn:Hout.
  2:{ destruct H1 as (e & -> & _). simpl. repeat split; congruence. }
  rewrite H1.
  set (cmd1 := mkCmd _ _ _ _ _ _) in *.
  pose proof (setActionResultStderr_spec st cmd1 result) as H2.
  destruct (stderr_content st result) as [err|] eqn:Herr.
  2:{ destruct H2 as (e & -> & _). simpl. repeat split; congruence. }
  rewrite H2. simpl.
  destruct (cmd_RecordOutputs cmd); simpl; repeat split; congruence.
Qed.

Lemma GetActionResult_hit_marks_cmd_witness :
  cache_hit flaky_cache flaky_store some_cmd hit_result /\
  snd (GetActionResult (Some flaky_cache) some_cmd) <> None /\
  actionResult (fst (GetActionResult (Some flaky_cache) some_cmd))
    = Some (hit_result, true).
Proof.
  assert (cache_hit flaky_cache flaky_store some_cmd hit_result) as H.
  { repeat split. exists (mkDigest "ac710" 142). split; reflexivity. }
  split; [exact H|]. split; [discriminate|].
  destruct (GetActionResult_hit_marks_cmd flaky_cache flaky_store some_cmd hit_result H)
    as (d & _ & _ & H2 & _).
  exact H2.
Defined.

End Cache.

(* ================================================================= *)
(** ** crypto/sha256 (FIPS 180-4), on bytes as numbers below 256 *)

Module sha256.

Definition mask32 : Z := 0xffffffff.
Definition add32 (x y : Z) : Z := Z.land (x + y) mask32.
Definition rotr (x n : Z) : Z :=
  Z.land (Z.lor (Z.shiftr x n) (Z.shiftl x (32 - n))) mask32.
Definition not32 (x : Z) : Z := Z.lxor x mask32.

Definition Ch (x y z : Z) : Z := Z.lxor (Z.land x y) (Z.land (not32 x) z).
Definition Maj (x y z : Z) : Z :=
  Z.lxor (Z.lxor (Z.land x y) (Z.land x z)) (Z.land y z).
Definition Sigma0 (x : Z) : Z := Z.lxor (Z.lxor (rotr x 2) (rotr x 13)) (rotr x 22).
Definition Sigma1 (x : Z) : Z := Z.lxor (Z.lxor (rotr x 6) (rotr x 11)) (rotr x 25).
Definition sigma0 (x : Z) : Z := Z.lxor (Z.lxor (rotr x 7) (rotr x 18)) (Z.shiftr x 3).
Definition sigma1 (x : Z) : Z := Z.lxor (Z.lxor (rotr x 17) (rotr x 19)) (Z.shiftr x 10).

(** The first [n] primes, by trial division; [k] is the next candidate. *)
Fixpoint primes_from (fuel : nat) (n : nat) (k : Z) (acc : list Z) : list Z :=
  match fuel, n with
  | O, _ | _, O => rev acc
  | S fuel, S n' =>
      if forallb (fun p => negb (k mod p =? 0)) acc
      then primes_from fuel n' (k + 1) (k :: acc)
      else primes_from fuel n (k + 1) acc
  end.

Definition primes (n : nat) : list Z := primes_from 400 n 2 [].

(** Integer cube root of a number below [2^(3 * bits)], bit by bit. *)
Fixpoint cbrt_bits (bits : nat) (n r : Z) : Z :=
  match bits with
  | O => r
  | S b =>
      let r' := r + Z.shiftl 1 (Z.of_nat b) in
      cbrt_bits b n (if r' * r' * r' <=? n then r' else r)
  end.

(** The round constants: the first 32 bits of the fractional parts of the
    cube roots of the first 64 primes. *)
Definition K : list Z :=
  Eval vm_compute in
    map (fun p => Z.land (cbrt_bits 36 (Z.shiftl p 96) 0) mask32) (primes 64).

(** The initial hash value: the same of the square roots of the first 8
    primes. *)
Definition init : list Z :=
  Eval vm_compute in
    map (fun p => Z.land (Z.sqrt (Z.shiftl p 64)) mask32) (primes 8).

Example K_ends : hd 0 K = 0x428a2f98 /\ last K 0 = 0xc67178f2 /\ length K = 64%nat.
Proof. repeat split. Qed.

Example init_ends : hd 0 init = 0x6a09e667 /\ last init 0 = 0x5be0cd19.
Proof. repeat split. Qed.

(** Big-endian bytes of a word, [n] bytes wide. *)
Fixpoint be_bytes (n : nat) (x : Z) : list Z :=
  match n with
  | O => []
  | S n => Z.land (Z.shiftr x (8 * Z.of_nat n)) 0xff :: be_bytes n x
  end.

(** Big-endian 32-bit words of a byte string. *)
Fixpoint be_words (bs : list Z) : list Z :=
  match bs with
  | a :: b :: c :: d :: rest =>
      (Z.shiftl a 24 + Z.shiftl b 16 + Z.shiftl c 8 + d) :: be_words rest
  | _ => []
  end.

(** Padding: a one bit, zeros up to 56 modulo 64, the bit length on 8 bytes. *)
Definition pad (msg : list Z) : list Z :=
  let l := Z.of_nat (length msg) in
  msg ++ [0x80] ++ List.repeat 0 (Z.to_nat ((55 - l) mod 64)) ++ be_bytes 8 (8 * l).

(** Message schedule; [wr] holds the words so far, latest first. *)
Fixpoint extend (n : nat) (wr : list Z) : list Z :=
  match n with
  | O => wr
  | S n =>
      let w := add32 (add32 (add32 (sigma1 (nth 1 wr 0)) (nth 6 wr 0))
                            (sigma0 (nth 14 wr 0))) (nth 15 wr 0) in
      extend n (w :: wr)
  end.

Definition schedule (block : list Z) : list Z :=
  rev (extend 48 (rev (be_words block))).

Definition round (s : list Z) (kw : Z * Z) : list Z :=
  match s with
  | [a; b; c; d; e; f; g; h] =>
      let t1 := add32 (add32 (add32 (add32 h (Sigma1 e)) (Ch e f g)) (fst kw)) (snd kw) in
      let t2 := add32 (Sigma0 a) (Maj a b c) in
      [add32 t1 t2; a; b; c; add32 d t1; e; f; g]
  | _ => s
  end.

Definition compress (h : list Z) (block : list Z) : list Z :=
  let s := fold_left round (combine K (schedule block)) h in
  map (fun p => add32 (fst p) (snd p)) (combine h s).

Fixpoint blocks (n : nat) (h : list Z) (bs : list Z) : list Z :=
  match n with
  | O => h
  | S n => blocks n (compress h (firstn 64 bs)) (skipn 64 bs)
  end.

(** [sha256.Sum256]: the 32-byte digest. *)
Definition Sum256 (msg : list Z) : list Z :=
  let p := pad msg in
  flat_map (be_bytes 4) (blocks (length p / 64) init p).

(** The bytes of a Go string. *)
Definition bytes_of_string (s : string) : list Z :=
  map (fun c => Z.of_N (N_of_ascii c)) (list_ascii_of_string s).

(** Test vector of FIPS 180-4, appendix B.1: ["abc"]. *)
Example Sum256_abc :
  Sum256 (bytes_of_string "abc") =
  [186; 120; 22; 191; 143; 1; 207; 234; 65; 65; 64; 222; 93; 174; 34; 35;
   176; 3; 97; 163; 150; 23; 122; 156; 180; 16; 255; 97; 242; 0; 21; 173].
Proof. vm_compute. reflexivity. Qed.

End sha256.

(* ================================================================= *)
(** ** build/step_manifest.go *)

Module StepManifest.

(** ["\x1f"] *)
Definition unitSeparator : string := String (ascii_of_nat 31) EmptyString.

(** A [hash.Hash] is modelled by the bytes written to it so far:
    [sha256.New()] is the empty string, [io.WriteString] appends, and
    [h.Sum(nil)] is the SHA-256 digest of what was written. *)
Definition hash_New : string := EmptyString.
Definition io_WriteString (h : string) (s : string) : string := h +:+ s.
Definition hash_Sum (h : string) : list Z := sha256.Sum256 (sha256.bytes_of_string h).

(** The bytes [calculateEdgeHash] feeds to the hash. *)
Definition edgeHashInput (inputs outputs : list string) : string :=
  let h := hash_New in
  let h := fold_left (fun h fname => io_WriteString (io_WriteString h fname) unitSeparator)
                     inputs h in
  let h := io_WriteString h unitSeparator in
  let h := fold_left (fun h fname => io_WriteString (io_WriteString h fname) unitSeparator)
                     outputs h in
  h.

Definition calculateEdgeHash (inputs outputs : list string) : list Z :=
  hash_Sum (edgeHashInput inputs outputs).

(** [stepManifest] and [newStepManifest]; [StepDef] is reduced to the
    three values read from it. *)
Record StepDef := mkStepDef {
  TriggerInputs : list string;
  Outputs : list string;
  CmdHash : list Z
}.

Record stepManifest := mkStepManifest {
  cmdHash : list Z;
  inputs : list string;
  outputs : list string;
  edgeHash : list Z
}.

Definition newStepManifest (stepDef : StepDef) : stepManifest :=
  let inputs := TriggerInputs stepDef in
  let outputs := Outputs stepDef in
  mkStepManifest (CmdHash stepDef) inputs outputs (calculateEdgeHash inputs outputs).

(** C8, refuted as stated: the input lists [a.c; b.h] and [b.h; a.c] are
    permutations of each other, yet their edge hashes differ, because the
    paths are hashed in the order given. *)
Lemma calculateEdgeHash_not_permutation_invariant :
  Permutation ["a.c"; "b.h"]%string ["b.h"; "a.c"]%string /\
  calculateEdgeHash ["a.c"; "b.h"]%string ["a.o"]%string
    <> calculateEdgeHash ["b.h"; "a.c"]%string ["a.o"]%string.
Proof.
  split; [apply perm_swap|]. vm_compute. discriminate.
Qed.


(** The separator byte. *)
Definition sep : ascii := ascii_of_nat 31.

(** [no_sep s]: the separator byte does not occur in [s]. *)
Fixpoint no_sep (s : string) : bool :=
  match s with
  | EmptyString => true
  | String c s => negb (Ascii.eqb c sep) && no_sep s
  end.

(** A path that is not empty and does not contain the separator. *)
Definition plain_path (s : string) : Prop := s <> EmptyString /\ no_sep s = true.

(** Each path followed by the separator. *)
Fixpoint separated (l : list string) : string :=
  match l with
  | [] => EmptyString
  | s :: l => s +:+ String sep (separated l)
  end.

Lemma string_app_cons c (a b : string) : String c a +:+ b = String c (a +:+ b).
Proof. reflexivity. Qed.

Lemma string_app_nil_l (b : string) : EmptyString +:+ b = b.
Proof. reflexivity. Qed.

Lemma string_app_assoc (a b c : string) : (a +:+ b) +:+ c = a +:+ (b +:+ c).
Proof.
  induction a as [|x a IH]; [reflexivity|].
  rewrite !string_app_cons, IH. reflexivity.
Qed.

Lemma string_app_nil_r (a : string) : a +:+ EmptyString = a.
Proof.
  induction a as [|x a IH]; [reflexivity|].
  rewrite string_app_cons, IH. reflexivity.
Qed.

Lemma fold_left_separated l : forall h,
  fold_left (fun h fname => io_WriteString (io_WriteString h fname) unitSeparator) l h
  = h +:+ separated l.
Proof.
  induction l as [|s l IH]; intros h; simpl.
  - symmetry. apply string_app_nil_r.
  - rewrite IH. unfold io_WriteString, unitSeparator.
    rewrite !string_app_assoc, string_app_cons, string_app_nil_l. reflexivity.
Qed.

Lemma edgeHashInput_separated inputs outputs :
  edgeHashInput inputs outputs
  = separated inputs +:+ String sep (separated outputs).
Proof.
  unfold edgeHashInput. rewrite !fold_left_separated.
  unfold io_WriteString, hash_New, unitSeparator.
  rewrite !string_app_nil_l, string_app_assoc, string_app_cons, string_app_nil_l.
  reflexivity.
Qed.

Lemma app_sep_inj s1 : forall s2 r1 r2,
  no_sep s1 = true -> no_sep s2 = true ->
  s1 +:+ String sep r1 = s2 +:+ String sep r2 -> s1 = s2 /\ r1 = r2.
Proof.
  induction s1 as [|c s1 IH]; intros [|c2 s2] r1 r2 H1 H2 H;
    rewrite ?string_app_cons, ?string_app_nil_l in H; simpl in H1, H2.
  - injection H as ->. auto.
  - injection H as <- _. rewrite Ascii.eqb_refl in H2. discriminate.
  - injection H as -> _. rewrite Ascii.eqb_refl in H1. discriminate.
  - injection H as -> H. apply andb_true_iff in H1 as [_ H1], H2 as [_ H2].
    destruct (IH _ _ _ H1 H2 H) as [-> ->]. auto.
Qed.

(** What may follow a separated list: nothing, or a separator. *)
Definition stops (r : string) : Prop := r = EmptyString \/ exists r', r = String sep r'.

Lemma separated_inj l1 : forall l2 r1 r2,
  Forall plain_path l1 -> Forall plain_path l2 -> stops r1 -> stops r2 ->
  separated l1 +:+ r1 = separated l2 +:+ r2 -> l1 = l2 /\ r1 = r2.
Proof.
  assert (Hhead : forall s l r r', plain_path s -> stops r ->
            r <> separated (s :: l) +:+ r').
  { intros s l r r' [Hne Hs] Hr Heq. destruct s as [|c s]; [congruence|].
    simpl in Heq, Hs. rewrite !string_app_cons in Heq.
    apply andb_true_iff in Hs as [Hc _].
    destruct Hr as [->|[r0 ->]]; [discriminate|].
    injection Heq as <- _. rewrite Ascii.eqb_refl in Hc. discriminate. }
  induction l1 as [|s1 l1 IH]; intros [|s2 l2] r1 r2 F1 F2 S1 S2 H.
  - simpl in H. rewrite !string_app_nil_l in H. auto.
  - exfalso. inversion F2; subst. rewrite string_app_nil_l in H.
    eapply (Hhead s2 l2 r1 r2); eauto.
  - exfalso. inversion F1; subst. change (separated []) with EmptyString in H.
    rewrite string_app_nil_l in H. eapply (Hhead s1 l1 r2 r1); eauto.
  - inversion F1 as [|? ? [_ P1] F1']; inversion F2 as [|? ? [_ P2] F2']; subst.
    simpl in H. rewrite !string_app_assoc, !string_app_cons in H.
    destruct (app_sep_inj _ _ _ _ P1 P2 H) as [-> H'].
    destruct (IH _ _ _ F1' F2' S1 S2 H') as [-> ->]. auto.
Qed.

(** C8, amended: the edge hash is the SHA-256 digest of the input and the
    output paths in the order given, each followed by the unit separator
    and with one more separator between the two lists; nothing is sorted.
    Equal lists therefore hash equal, and for non-empty paths free of the
    separator byte the hashed bytes determine both lists, order included:
    reordering a list changes what is hashed. *)
Theorem calculateEdgeHash_order_given (i1 o1 i2 o2 : list string)
    (Hi1 : Forall plain_path i1) (Ho1 : Forall plain_path o1)
    (Hi2 : Forall plain_path i2) (Ho2 : Forall plain_path o2) :
  calculateEdgeHash i1 o1
    = sha256.Sum256 (sha256.bytes_of_string
        (separated i1 +:+ String sep (separated o1))) /\
  (i1 = i2 -> o1 = o2 -> calculateEdgeHash i1 o1 = calculateEdgeHash i2 o2) /\
  (edgeHashInput i1 o1 = edgeHashInput i2 o2 <-> i1 = i2 /\ o1 = o2).
Proof.
  split; [unfold calculateEdgeHash, hash_Sum; rewrite edgeHashInput_separated; reflexivity|].
  split; [intros -> ->; reflexivity|].
  split; [|intros [-> ->]; reflexivity].
  rewrite !edgeHashInput_separated. intros H.
  assert (stops (String sep (separated o1))) as S1 by (right; eauto).
  assert (stops (String sep (separated o2))) as S2 by (right; eauto).
  destruct (separated_inj _ _ _ _ Hi1 Hi2 S1 S2 H) as [-> H'].
  split; [reflexivity|].
  injection H' as H'.
  rewrite <- (string_app_nil_r (separated o1)), <- (string_app_nil_r (separated o2)) in H'.
  destruct (separated_inj _ _ _ _ Ho1 Ho2 (or_introl eq_refl) (or_introl eq_refl) H')
    as [-> _].
  reflexivity.
Qed.

Lemma calculateEdgeHash_order_given_witness :
  Forall plain_path ["a.c"; "b.h"]%string /\ Forall plain_path ["a.o"]%string /\
  Forall plain_path ["b.h"; "a.c"]%string /\
  (edgeHashInput ["a.c"; "b.h"]%string ["a.o"]%string
     = edgeHashInput ["b.h"; "a.c"]%string ["a.o"]%string
   <-> ["a.c"; "b.h"]%string = ["b.h"; "a.c"]%string /\ ["a.o"]%string = ["a.o"]%string).
Proof.
  assert (Forall plain_path ["a.c"; "b.h"]%string) as H1
    by (repeat constructor; discriminate).
  assert (Forall plain_path ["a.o"]%string) as H2
    by (repeat constructor; discriminate).
  assert (Forall plain_path ["b.h"; "a.c"]%string) as H3
    by (repeat constructor; discriminate).
  split; [exact H1|]. split; [exact H2|]. split; [exact H3|].
  exact (proj2 (proj2 (calculateEdgeHash_order_given _ _ _ _ H1 H2 H3 H2))).
Defined.

End StepManifest.

(* ================================================================= *)
(** ** Go built-in functions *)

Module builtin.

(** [copy(dst, src)]: the first [min(len(dst), len(src))] elements of
    [dst] are overwritten with those of [src]; the result is [dst] and the
    number of elements copied. *)
Definition copy {A} (dst src : list A) : list A * nat :=
  let n := Nat.min (length dst) (length src) in
  (take n src ++ drop n dst, n).

End builtin.

(* ================================================================= *)
(** ** Go's [strings] package, the functions used below *)

Module strings.

(** [strings.HasPrefix(s, prefix)]. *)
Definition HasPrefix (s prefix : string) : bool := String.prefix prefix s.

(** [strings.TrimPrefix(s, prefix)]. *)
Definition TrimPrefix (s prefix : string) : string :=
  if HasPrefix s prefix
  then String.substring (String.length prefix) (String.length s - String.length prefix) s
  else s.

(** [strings.HasSuffix(s, suffix)]. *)
Definition HasSuffix (s suffix : string) : bool :=
  Nat.leb (String.length suffix) (String.length s) &&
  String.eqb (String.substring (String.length s - String.length suffix)
                               (String.length suffix) s) suffix.

(** [strings.Cut(s, sep)] for a separator [sep] of one byte: the text
    before and after the first [sep], and whether [sep] was found; without
    [sep] the result is [(s, "", false)]. *)
Fixpoint Cut (s : string) (sep : ascii) : string * string * bool :=
  match s with
  | EmptyString => (EmptyString, EmptyString, false)
  | String c s' =>
      if Ascii.eqb c sep then (EmptyString, s', true)
      else let '(before, after, found) := Cut s' sep in (String c before, after, found)
  end.

(** [strings.Split(s, sep)] for a separator of one byte: the pieces of [s]
    between the separators; [s] itself when it holds none. *)
Fixpoint Split (s : string) (sep : ascii) : list string :=
  match s with
  | EmptyString => [EmptyString]
  | String c s' =>
      if Ascii.eqb c sep then EmptyString :: Split s' sep
      else match Split s' sep with
           | x :: l => String c x :: l
           | [] => [String c EmptyString]
           end
  end.

(** [strings.Join(elems, sep)]. *)
Fixpoint Join (elems : list string) (sep : string) : string :=
  match elems with
  | [] => EmptyString
  | [x] => x
  | x :: elems => x +:+ sep +:+ Join elems sep
  end.

(** [sep] does not occur in [s]. *)
Fixpoint free_of (sep : ascii) (s : string) : bool :=
  match s with
  | EmptyString => true
  | String c s' => negb (Ascii.eqb c sep) && free_of sep s'
  end.

Lemma substring_whole (s : string) :
  String.substring 0 (String.length s) s = s.
Proof. induction s as [|c s IH]; simpl; [reflexivity|]. rewrite IH. reflexivity. Qed.

Lemma HasPrefix_app (prefix s : string) : HasPrefix (prefix +:+ s) prefix = true.
Proof.
  unfold HasPrefix. induction prefix as [|c prefix IH]; simpl.
  - destruct s; reflexivity.
  - destruct (ascii_dec c c) as [_|Hc]; [exact IH | contradiction].
Qed.

Lemma TrimPrefix_app (prefix s : string) : TrimPrefix (prefix +:+ s) prefix = s.
Proof.
  unfold TrimPrefix. rewrite HasPrefix_app.
  induction prefix as [|c prefix IH]; simpl.
  - rewrite Nat.sub_0_r. apply substring_whole.
  - exact IH.
Qed.

Lemma Cut_found (before after : string) (sep : ascii) :
  free_of sep before = true ->
  Cut (before +:+ String sep after) sep = (before, after, true).
Proof.
  induction before as [|c before IH]; intros H.
  - change (EmptyString +:+ String sep after) with (String sep after).
    cbn [Cut]. rewrite Ascii.eqb_refl. reflexivity.
  - simpl in H. apply andb_true_iff in H as [Hc H].
    change (String c before +:+ String sep after)
      with (String c (before +:+ String sep after)).
    cbn [Cut]. apply negb_true_iff in Hc. rewrite Hc, (IH H). reflexivity.
Qed.

Lemma Cut_not_found (s : string) (sep : ascii) :
  free_of sep s = true -> Cut s sep = (s, EmptyString, false).
Proof.
  induction s as [|c s IH]; intros H; [reflexivity|].
  simpl in H. apply andb_true_iff in H as [Hc H].
  cbn [Cut]. apply negb_true_iff in Hc. rewrite Hc, (IH H). reflexivity.
Qed.

Lemma Cut_before_free (s : string) (sep : ascii) :
  free_of sep (fst (fst (Cut s sep))) = true.
Proof.
  induction s as [|c s IH]; [reflexivity|]. cbn [Cut].
  destruct (Ascii.eqb c sep) eqn:E; [reflexivity|].
  destruct (Cut s sep) as [[b a] f]. simpl in *. rewrite E, IH. reflexivity.
Qed.

End strings.

(* ================================================================= *)
(** ** hashfs/filesystem.go *)

Module HashFS.

Definition bytes := list Z.

(** Errors returned by [HashFS] and [FileSystem]. *)
Inductive error :=
  | SymlinkError (Path Target : string)       (* hashfs.SymlinkError *)
  | syscall_ELOOP
  | fs_ErrNotExist
  | other_error (msg : string).

(** [fs.PathError]. *)
Record PathError := mkPathError { Op : string; Path : string; Err : error }.

(** [hashfs.FileInfo]: [fi_Target] and [fi_Path] are what the methods
    [Target()] and [Path()] return for the entry. *)
#[local] Unset Elimination Schemes.
Inductive FileInfo :=
  mkFileInfo (root fname : string) (fi_Target fi_Path : string) (fis : list FileInfo).
#[local] Set Elimination Schemes.

Definition Target (fi : FileInfo) : string :=
  match fi with mkFileInfo _ _ t _ _ => t end.
Definition FilePath (fi : FileInfo) : string :=
  match fi with mkFileInfo _ _ _ p _ => p end.
Definition set_fis (fi : FileInfo) (fis : list FileInfo) : FileInfo :=
  match fi with mkFileInfo r f t p _ => mkFileInfo r f t p fis end.

(** Modelled from the spec: the constant [maxSymlinks] is declared in a
    file of package [hashfs] that is not part of the sources at hand; the
    specification gives [MAX_SYMLINKS = 40]. *)
Definition maxSymlinks : nat := 40.

Section FileSystem.

(** Go's [path/filepath] functions used by [resolveSymlinkPath]. *)
Variable filepath_IsAbs : string -> bool.
Variable filepath_IsLocal : string -> bool.
Variable filepath_Join : string -> string -> string.
Variable filepath_Dir : string -> string.
Variable filepath_ToSlash : string -> string.
Variable filepath_Rel : string -> string -> option string.  (* None: error *)

(** The underlying [*HashFS]: [ReadFile] and [Stat] by root and name. *)
Variable hashFS_ReadFile : string -> string -> bytes + error.
Variable hashFS_Stat : string -> string -> FileInfo + error.

(** [fsys.dir]. *)
Variable dir : string.

Definition resolveSymlinkPath (root path target : string) : string :=
  let name :=
    if filepath_IsAbs target then target
    else
      let name := filepath_Join (filepath_Dir path) target in
      if negb (filepath_IsAbs name) && negb (filepath_IsLocal name) then
        if String.eqb path "." then filepath_Join (filepath_Dir root) name
        else filepath_Join root name
      else name in
  let name := filepath_ToSlash name in
  let name :=
    match filepath_Rel root name with
    | Some relPath => if filepath_IsLocal relPath then relPath else name
    | None => name
    end in
  filepath_ToSlash name.

(** [root] as chosen at the top of each loop iteration. *)
Definition root_for (name : string) : string :=
  if filepath_IsAbs name then EmptyString else dir.

(** The [for range maxSymlinks] loop of [ReadFile] with [n] iterations left. *)
Fixpoint ReadFile_loop (n : nat) (pathname name : string) : bytes + PathError :=
  match n with
  | O => inr (mkPathError "readfile" pathname syscall_ELOOP)
  | S n =>
      match hashFS_ReadFile (root_for name) name with
      | inr (SymlinkError p t) =>
          ReadFile_loop n pathname (resolveSymlinkPath dir p t)
      | inr err => inr (mkPathError "readfile" pathname err)
      | inl buf => inl buf
      end
  end.

Definition ReadFile (name : string) : bytes + PathError :=
  ReadFile_loop maxSymlinks name name.

(** The loop of [Stat]; the result is the Go pair [(fs.FileInfo, error)]. *)
Fixpoint Stat_loop (n : nat) (pathname name : string) (fis : list FileInfo)
  : FileInfo * option PathError :=
  match n with
  | O => (mkFileInfo dir pathname EmptyString EmptyString fis,
          Some (mkPathError "stat" pathname syscall_ELOOP))
  | S n =>
      match hashFS_Stat (root_for name) name with
      | inr err =>
          (mkFileInfo (root_for name) name EmptyString EmptyString fis,
           Some (mkPathError "stat" pathname err))
      | inl fi =>
          if String.eqb (Target fi) EmptyString then (set_fis fi fis, None)
          else Stat_loop n pathname (resolveSymlinkPath dir (FilePath fi) (Target fi))
                         (fis ++ [fi])
      end
  end.

Definition Stat (name : string) : FileInfo * option PathError :=
  Stat_loop maxSymlinks name name [].

(** [readlinks k name]: the name reached from [name] after [k] lookups by
    [ReadFile] that each met a symlink; [None] when one of them did not. *)
Fixpoint readlinks (k : nat) (name : string) : option string :=
  match k with
  | O => Some name
  | S k =>
      match hashFS_ReadFile (root_for name) name with
      | inr (SymlinkError p t) => readlinks k (resolveSymlinkPath dir p t)
      | _ => None
      end
  end.

(** The same for [Stat], where a symlink is an entry with a target. *)
Fixpoint statlinks (k : nat) (name : string) : option string :=
  match k with
  | O => Some name
  | S k =>
      match hashFS_Stat (root_for name) name with
      | inl fi =>
          if String.eqb (Target fi) EmptyString then None
          else statlinks k (resolveSymlinkPath dir (FilePath fi) (Target fi))
      | inr _ => None
      end
  end.

Lemma readlinks_le k : forall j name,
  (j <= k)%nat -> is_Some (readlinks k name) -> is_Some (readlinks j name).
Proof.
  induction k as [|k IH]; intros j name Hj Hk.
  - replace j with 0%nat by lia. exact Hk.
  - destruct j as [|j]; [simpl; eauto|]. simpl in *.
    destruct (hashFS_ReadFile (root_for name) name) as [buf|[p t| | |m]];
      try (destruct Hk; discriminate).
    apply IH; [lia | exact Hk].
Qed.

Lemma statlinks_le k : forall j name,
  (j <= k)%nat -> is_Some (statlinks k name) -> is_Some (statlinks j name).
Proof.
  induction k as [|k IH]; intros j name Hj Hk.
  - replace j with 0%nat by lia. exact Hk.
  - destruct j as [|j]; [simpl; eauto|]. simpl in *.
    destruct (hashFS_Stat (root_for name) name) as [fi|e];
      try (destruct Hk; discriminate).
    destruct (String.eqb (Target fi) EmptyString); try (destruct Hk; discriminate).
    apply IH; [lia | exact Hk].
Qed.

Lemma ReadFile_loop_all_links n : forall pathname name,
  is_Some (readlinks n name) ->
  ReadFile_loop n pathname name = inr (mkPathError "readfile" pathname syscall_ELOOP).
Proof.
  induction n as [|n IH]; intros pathname name Hn; simpl in *; [reflexivity|].
  destruct (hashFS_ReadFile (root_for name) name) as [buf|[p t| | |m]];
    try (destruct Hn; discriminate).
  apply IH, Hn.
Qed.

Lemma Stat_loop_all_links n : forall pathname name fis,
  is_Some (statlinks n name) ->
  snd (Stat_loop n pathname name fis) = Some (mkPathError "stat" pathname syscall_ELOOP).
Proof.
  induction n as [|n IH]; intros pathname name fis Hn; simpl in *; [reflexivity|].
  destruct (hashFS_Stat (root_for name) name) as [fi|e];
    try (destruct Hn; discriminate).
  destruct (String.eqb (Target fi) EmptyString); try (destruct Hn; discriminate).
  apply IH, Hn.
Qed.

Lemma ReadFile_loop_ok n : forall pathname name buf,
  ReadFile_loop n pathname name = inl buf ->
  exists k name', (k < n)%nat /\ readlinks k name = Some name' /\
                  hashFS_ReadFile (root_for name') name' = inl buf.
Proof.
  induction n as [|n IH]; intros pathname name buf H; simpl in H; [discriminate|].
  destruct (hashFS_ReadFile (root_for name) name) as [b|[p t| | |m]] eqn:E;
    try discriminate.
  - injection H as ->. exists 0%nat, name. repeat split; [lia | exact E].
  - destruct (IH _ _ _ H) as (k & name' & Hk & Hl & Hr).
    exists (S k), name'. repeat split; [lia | simpl; rewrite E; exact Hl | exact Hr].
Qed.

Lemma Stat_loop_ok n : forall pathname name fis fi,
  Stat_loop n pathname name fis = (fi, None) ->
  exists k name' fi', (k < n)%nat /\ statlinks k name = Some name' /\
     hashFS_Stat (root_for name') name' = inl fi' /\ Target fi' = EmptyString.
Proof.
  induction n as [|n IH]; intros pathname name fis fi H; simpl in H; [discriminate|].
  destruct (hashFS_Stat (root_for name) name) as [fi0|e] eqn:E; try discriminate.
  destruct (String.eqb (Target fi0) EmptyString) eqn:T.
  - exists 0%nat, name, fi0. repeat split; [lia | exact E | apply String.eqb_eq, T].
  - destruct (IH _ _ _ _ H) as (k & name' & fi' & Hk & Hl & Hr & Ht).
    exists (S k), name', fi'.
    repeat split; [lia | simpl; rewrite E, T; exact Hl | exact Hr | exact Ht].
Qed.

(** C7: [ReadFile] and [Stat] give up after [maxSymlinks] = 40 lookups.
    If resolving [name] meets a symlink at each of its first [k] lookups
    with [k >= 40] (so in particular when it meets more than 40), the
    result is the [ELOOP] path error; and whenever [ReadFile] returns
    bytes or [Stat] returns without error, fewer than 40 symlinks were
    followed to get there.  Both functions are total: they return on every
    input. *)
Theorem ReadFile_Stat_symlink_bound (name : string) :
  maxSymlinks = 40%nat /\
  (forall k, (maxSymlinks <= k)%nat -> is_Some (readlinks k name) ->
     ReadFile name = inr (mkPathError "readfile" name syscall_ELOOP)) /\
  (forall k, (maxSymlinks <= k)%nat -> is_Some (statlinks k name) ->
     snd (Stat name) = Some (mkPathError "stat" name syscall_ELOOP)) /\
  (forall buf, ReadFile name = inl buf ->
     exists k name', (k < maxSymlinks)%nat /\ readlinks k name = Some name' /\
                     hashFS_ReadFile (root_for name') name' = inl buf) /\
  (forall fi, Stat name = (fi, None) ->
     exists k name' fi', (k < maxSymlinks)%nat /\ statlinks k name = Some name' /\
        hashFS_Stat (root_for name') name' = inl fi' /\ Target fi' = EmptyString).
Proof.
  split; [reflexivity|]. repeat split.
  - intros k Hk Hl. apply ReadFile_loop_all_links.
    eapply readlinks_le; [exact Hk | exact Hl].
  - intros k Hk Hl. apply Stat_loop_all_links.
    eapply statlinks_le; [exact Hk | exact Hl].
  - intros buf H. eapply ReadFile_loop_ok, H.
  - intros fi H. eapply Stat_loop_ok, H.
Qed.

(* ----------------------------------------------------------------- *)
(** *** [ReadDir], the errors returned, and what [Stat] records *)

(** [hashfs.DirEntry]; the code here only copies entries. *)
Variable DirEntry : Type.

(** [ReadDir] of the underlying [*HashFS]. *)
Variable hashFS_ReadDir : string -> string -> list DirEntry + error.

(** The loop of [ReadDir] with [n] iterations left; on success the entries
    are copied one by one into [dirents]. *)
Fixpoint ReadDir_loop (n : nat) (pathname name : string) : list DirEntry + PathError :=
  match n with
  | O => inr (mkPathError "readdir" pathname syscall_ELOOP)
  | S n =>
      match hashFS_ReadDir (root_for name) name with
      | inr (SymlinkError p t) =>
          ReadDir_loop n pathname (resolveSymlinkPath dir p t)
      | inr err => inr (mkPathError "readdir" pathname err)
      | inl ents => inl (fold_left (fun dirents e => dirents ++ [e]) ents [])
      end
  end.

Definition ReadDir (name : string) : list DirEntry + PathError :=
  ReadDir_loop maxSymlinks name name.

(** The field [fis] of a [FileInfo]. *)
Definition Fis (fi : FileInfo) : list FileInfo :=
  match fi with mkFileInfo _ _ _ _ fis => fis end.

(** [dirlinks k name]: the name reached from [name] after [k] lookups by
    [ReadDir] that each met a symlink. *)
Fixpoint dirlinks (k : nat) (name : string) : option string :=
  match k with
  | O => Some name
  | S k =>
      match hashFS_ReadDir (root_for name) name with
      | inr (SymlinkError p t) => dirlinks k (resolveSymlinkPath dir p t)
      | _ => None
      end
  end.

(** [statchain k name]: the entries of the symlinks met by the first [k]
    lookups of [Stat] from [name], in the order met, and the name reached. *)
Fixpoint statchain (k : nat) (name : string) : option (list FileInfo * string) :=
  match k with
  | O => Some ([], name)
  | S k =>
      match hashFS_Stat (root_for name) name with
      | inl fi =>
          if String.eqb (Target fi) EmptyString then None
          else
            match statchain k (resolveSymlinkPath dir (FilePath fi) (Target fi)) with
            | Some (chain, name') => Some (fi :: chain, name')
            | None => None
            end
      | inr _ => None
      end
  end.

(** An error that is not a [SymlinkError]. *)
Definition not_symlink (err : error) : Prop :=
  match err with SymlinkError _ _ => False | _ => True end.

Lemma fold_left_snoc {A} (l : list A) : forall acc,
  fold_left (fun xs x => xs ++ [x]) l acc = acc ++ l.
Proof.
  induction l as [|x l IH]; intros acc; simpl; [symmetry; apply app_nil_r|].
  rewrite IH, <- app_assoc. reflexivity.
Qed.

Lemma ReadDir_loop_links k : forall n pathname name name',
  dirlinks k name = Some name' ->
  ReadDir_loop (k + n) pathname name = ReadDir_loop n pathname name'.
Proof.
  induction k as [|k IH]; intros n pathname name name' H; simpl in *.
  - injection H as ->. reflexivity.
  - destruct (hashFS_ReadDir (root_for name) name) as [ents|[p t| | |m]];
      try discriminate.
    apply IH, H.
Qed.

(** X10: [ReadDir] follows symlinks like [ReadFile] does and its result is
    that of the first lookup that does not meet a symlink, among at most
    [maxSymlinks] lookups: the entries found there, in the same order, or
    the error found there wrapped in a path error; after [maxSymlinks]
    lookups that all met a symlink the result is the [ELOOP] path error. *)
Theorem ReadDir_resolution (name : string) (k : nat) (name' : string)
    (Hlinks : dirlinks k name = Some name') :
  ((k < maxSymlinks)%nat ->
     forall ents, hashFS_ReadDir (root_for name') name' = inl ents ->
       ReadDir name = inl ents) /\
  ((k < maxSymlinks)%nat ->
     forall err, hashFS_ReadDir (root_for name') name' = inr err -> not_symlink err ->
       ReadDir name = inr (mkPathError "readdir" name err)) /\
  (k = maxSymlinks ->
     ReadDir name = inr (mkPathError "readdir" name syscall_ELOOP)).
Proof.
  unfold ReadDir. split_and!.
  - intros Hk ents He.
    replace maxSymlinks with (k + S (maxSymlinks - S k))%nat by lia.
    rewrite (ReadDir_loop_links k _ name name name' Hlinks). simpl. rewrite He.
    rewrite fold_left_snoc. reflexivity.
  - intros Hk err He Hns.
    replace maxSymlinks with (k + S (maxSymlinks - S k))%nat by lia.
    rewrite (ReadDir_loop_links k _ name name name' Hlinks). simpl. rewrite He.
    destruct err; [contradiction|reflexivity..].
  - intros ->.
    replace maxSymlinks with (maxSymlinks + 0)%nat at 1 by lia.
    rewrite (ReadDir_loop_links maxSymlinks 0 name name name' Hlinks). reflexivity.
Qed.

Lemma ReadFile_loop_error n : forall pathname name pe,
  ReadFile_loop n pathname name = inr pe ->
  Op pe = "readfile"%string /\ Path pe = pathname /\ not_symlink (Err pe).
Proof.
  induction n as [|n IH]; intros pathname name pe H; simpl in H.
  - injection H as <-. repeat split.
  - destruct (hashFS_ReadFile (root_for name) name) as [buf|[p t| | |m]];
      try discriminate; try (injection H as <-; repeat split).
    eapply IH, H.
Qed.

Lemma ReadDir_loop_error n : forall pathname name pe,
  ReadDir_loop n pathname name = inr pe ->
  Op pe = "readdir"%string /\ Path pe = pathname /\ not_symlink (Err pe).
Proof.
  induction n as [|n IH]; intros pathname name pe H; simpl in H.
  - injection H as <-. repeat split.
  - destruct (hashFS_ReadDir (root_for name) name) as [buf|[p t| | |m]];
      try discriminate; try (injection H as <-; repeat split).
    eapply IH, H.
Qed.

Lemma Stat_loop_error n : forall pathname name fis fi pe,
  Stat_loop n pathname name fis = (fi, Some pe) ->
  Op pe = "stat"%string /\ Path pe = pathname.
Proof.
  induction n as [|n IH]; intros pathname name fis fi pe H; simpl in H.
  - injection H as _ <-. repeat split.
  - destruct (hashFS_Stat (root_for name) name) as [fi0|err].
    + destruct (String.eqb (Target fi0) EmptyString); [discriminate|].
      eapply IH, H.
    + injection H as _ <-. repeat split.
Qed.

(** X11: every error of [ReadFile], [ReadDir] and [Stat] is a path error for
    the operation called that names the path the caller asked for, not the
    path a symlink led to; and [ReadFile] and [ReadDir] never hand a
    [SymlinkError] of the underlying file system to the caller. *)
Theorem errors_name_the_requested_path (name : string) :
  (forall pe, ReadFile name = inr pe ->
     Op pe = "readfile"%string /\ Path pe = name /\ not_symlink (Err pe)) /\
  (forall pe, ReadDir name = inr pe ->
     Op pe = "readdir"%string /\ Path pe = name /\ not_symlink (Err pe)) /\
  (forall fi pe, Stat name = (fi, Some pe) ->
     Op pe = "stat"%string /\ Path pe = name).
Proof.
  split_and!.
  - intros pe H. eapply ReadFile_loop_error, H.
  - intros pe H. eapply ReadDir_loop_error, H.
  - intros fi pe H. eapply Stat_loop_error, H.
Qed.

Lemma Stat_loop_chain k : forall n pathname name fis chain name',
  statchain k name = Some (chain, name') ->
  Stat_loop (k + n) pathname name fis = Stat_loop n pathname name' (fis ++ chain).
Proof.
  induction k as [|k IH]; intros n pathname name fis chain name' H; simpl in *.
  - injection H as <- <-. rewrite app_nil_r. reflexivity.
  - destruct (hashFS_Stat (root_for name) name) as [fi|err]; [|discriminate].
    destruct (String.eqb (Target fi) EmptyString); [discriminate|].
    destruct (statchain k (resolveSymlinkPath dir (FilePath fi) (Target fi)))
      as [[chain0 name0]|] eqn:E; [|discriminate].
    injection H as <- <-.
    rewrite (IH n pathname _ (fis ++ [fi]) chain0 name0 E), <- app_assoc. reflexivity.
Qed.

Lemma statchain_links k : forall name chain name',
  statchain k name = Some (chain, name') ->
  length chain = k /\ Forall (fun l => Target l <> EmptyString) chain.
Proof.
  induction k as [|k IH]; intros name chain name' H; simpl in H.
  - injection H as <- <-. split; [reflexivity | constructor].
  - destruct (hashFS_Stat (root_for name) name) as [fi|err]; [|discriminate].
    destruct (String.eqb (Target fi) EmptyString) eqn:T; [discriminate|].
    destruct (statchain k (resolveSymlinkPath dir (FilePath fi) (Target fi)))
      as [[chain0 name0]|] eqn:E; [|discriminate].
    injection H as <- <-. destruct (IH _ _ _ E) as [Hl Hf].
    split; [simpl; lia|]. constructor; [|exact Hf].
    intros Ht. rewrite Ht in T. discriminate.
Qed.

(** X12: the [FileInfo] returned by [Stat] records the symlinks followed, also
    when [Stat] fails.  If the first [k] lookups from [name] meet the
    symlinks [chain] and lead to [name'], then: when the next lookup finds an
    entry that is no symlink, [Stat] returns that entry with [fis] set to
    [chain]; when it fails, [Stat] returns the error for the requested name
    together with a [FileInfo] for [name'] whose [fis] is [chain] (the
    dangling-symlink case); and when [k] reaches [maxSymlinks], it returns
    [ELOOP] with a [FileInfo] for the requested name whose [fis] is [chain]. *)
Theorem Stat_records_symlinks (name : string) (k : nat)
    (chain : list FileInfo) (name' : string)
    (Hchain : statchain k name = Some (chain, name')) :
  length chain = k /\ Forall (fun l => Target l <> EmptyString) chain /\
  ((k < maxSymlinks)%nat ->
     forall fi, hashFS_Stat (root_for name') name' = inl fi -> Target fi = EmptyString ->
       Stat name = (set_fis fi chain, None) /\ Fis (fst (Stat name)) = chain) /\
  ((k < maxSymlinks)%nat ->
     forall err, hashFS_Stat (root_for name') name' = inr err ->
       Stat name = (mkFileInfo (root_for name') name' EmptyString EmptyString chain,
                    Some (mkPathError "stat" name err))) /\
  (k = maxSymlinks ->
     Stat name = (mkFileInfo dir name EmptyString EmptyString chain,
                  Some (mkPathError "stat" name syscall_ELOOP))).
Proof.
  destruct (statchain_links k name chain name' Hchain) as [Hlen Hall].
  split; [exact Hlen|]. split; [exact Hall|]. unfold Stat. split_and!.
  - intros Hk fi Hfi Ht.
    replace maxSymlinks with (k + S (maxSymlinks - S k))%nat by lia.
    rewrite (Stat_loop_chain k _ name name [] chain name' Hchain). simpl.
    rewrite Hfi, Ht. simpl. split; [reflexivity|]. destruct fi; reflexivity.
  - intros Hk err Hfi.
    replace maxSymlinks with (k + S (maxSymlinks - S k))%nat by lia.
    rewrite (Stat_loop_chain k _ name name [] chain name' Hchain). simpl.
    rewrite Hfi. reflexivity.
  - intros ->.
    replace maxSymlinks with (maxSymlinks + 0)%nat at 1 by lia.
    rewrite (Stat_loop_chain maxSymlinks 0 name name [] chain name' Hchain). reflexivity.
Qed.

(* ----------------------------------------------------------------- *)
(** *** [ExpandSymlinks] *)

(** How the scan of the prefixes of a name ends: at [break resolve], at
    [continue resolve] with a new name, or at the end of the elements. *)
Inductive scan :=
  | Break (names : list string)
  | Continue (names : list string) (name : string)
  | NoLink.

(** The loop [for i := range elems] with [k] elements left, the next one
    being [elems[i]]. *)
Fixpoint ExpandSymlinks_scan (k : nat) (elems : list string) (i : nat)
    (names : list string) : scan :=
  match k with
  | O => NoLink
  | S k =>
      let pathname := strings.Join (take (i + 1) elems) "/" in
      match hashFS_Stat dir pathname with
      | inr _ => Break names
      | inl fi =>
          let target := Target fi in
          if negb (String.eqb target EmptyString) then
            let names := names ++ [pathname] in
            if filepath_IsAbs target then Break names
            else
              let targetPath :=
                filepath_ToSlash (filepath_Join (filepath_Dir pathname) target) in
              if negb (filepath_IsLocal targetPath) then Break names
              else
                Continue names
                  (filepath_ToSlash
                     (filepath_Join targetPath (strings.Join (drop (i + 1) elems) "/")))
          else ExpandSymlinks_scan k elems (i + 1) names
      end
  end.

(** The loop [for range maxSymlinks] with [n] iterations left. *)
Fixpoint ExpandSymlinks_loop (n : nat) (name : string) (names : list string)
  : list string :=
  match n with
  | O => names ++ [name]
  | S n =>
      let elems := strings.Split name "/"%char in
      match ExpandSymlinks_scan (length elems) elems 0 names with
      | Break names => names ++ [name]
      | Continue names name => ExpandSymlinks_loop n name names
      | NoLink => ExpandSymlinks_loop n name names
      end
  end.

Definition ExpandSymlinks (name : string) : list string :=
  ExpandSymlinks_loop maxSymlinks name [].

(** [p] is a symlink for [ExpandSymlinks]: the lookup under [fsys.dir]
    finds an entry with a target. *)
Definition is_symlink (p : string) : Prop :=
  exists fi, hashFS_Stat dir p = inl fi /\ Target fi <> EmptyString.

(** The prefixes of [name] that the scan looks up. *)
Definition prefixes (name : string) : list string :=
  let elems := strings.Split name "/"%char in
  (fun i => strings.Join (take (i + 1) elems) "/") <$> seq 0 (length elems).

Lemma ExpandSymlinks_scan_spec k : forall elems i names,
  let found names' :=
    exists p, names' = names ++ [p] /\ is_symlink p /\
              p ∈ (fun j => strings.Join (take (j + 1) elems) "/") <$> seq i k in
  match ExpandSymlinks_scan k elems i names with
  | Break names' => names' = names \/ found names'
  | Continue names' _ => found names'
  | NoLink => True
  end.
Proof.
  induction k as [|k IH]; intros elems i names; simpl; [exact I|].
  destruct (hashFS_Stat dir (strings.Join (take (i + 1) elems) "/")) as [fi|err] eqn:E;
    [|left; reflexivity].
  destruct (String.eqb (Target fi) EmptyString) eqn:T; simpl.
  - specialize (IH elems (i + 1)%nat names). simpl in IH.
    replace (i + 1)%nat with (S i) in IH by lia.
    replace (i + 1)%nat with (S i) by lia.
    destruct (ExpandSymlinks_scan k elems (S i) names) as [n'|n' nm|]; auto.
    + destruct IH as [IH|(p & Hp & Hs & Hel)]; [left; exact IH|].
      right. exists p. split_and!; auto. apply list_elem_of_further, Hel.
    + destruct IH as (p & Hp & Hs & Hel).
      exists p. split_and!; auto. apply list_elem_of_further, Hel.
  - assert (is_symlink (strings.Join (take (i + 1) elems) "/")) as Hs.
    { exists fi. split; [exact E|]. intros Ht. rewrite Ht in T. discriminate. }
    assert (strings.Join (take (i + 1) elems) "/"
            ∈ strings.Join (take (i + 1) elems) "/"
              :: ((fun j => strings.Join (take (j + 1) elems) "/") <$> seq (S i) k)) as Hin
      by apply list_elem_of_here.
    destruct (filepath_IsAbs (Target fi)).
    { right. eexists. split_and!; eauto. }
    destruct (filepath_IsLocal _); simpl; [|right]; eexists; split_and!; eauto.
Qed.

Lemma ExpandSymlinks_scan_no_link k : forall elems i names,
  (forall p, p ∈ (fun j => strings.Join (take (j + 1) elems) "/") <$> seq i k ->
             ~ is_symlink p) ->
  ExpandSymlinks_scan k elems i names = NoLink \/
  ExpandSymlinks_scan k elems i names = Break names.
Proof.
  induction k as [|k IH]; intros elems i names Hno; simpl; [auto|].
  destruct (hashFS_Stat dir (strings.Join (take (i + 1) elems) "/")) as [fi|err] eqn:E;
    [|auto].
  destruct (String.eqb (Target fi) EmptyString) eqn:T; simpl.
  - replace (i + 1)%nat with (S i) by lia. apply IH.
    intros p Hp. apply Hno. simpl. apply list_elem_of_further, Hp.
  - exfalso. apply (Hno (strings.Join (take (i + 1) elems) "/")).
    + simpl. apply list_elem_of_here.
    + exists fi. split; [exact E|]. intros Ht. rewrite Ht in T. discriminate.
Qed.

Lemma ExpandSymlinks_loop_spec n : forall name names,
  exists links last,
    ExpandSymlinks_loop n name names = names ++ links ++ [last] /\
    (length links <= n)%nat /\ Forall is_symlink links /\
    (links = [] -> last = name).
Proof.
  induction n as [|n IH]; intros name names; simpl.
  - exists [], name. split_and!; [reflexivity | simpl; lia | constructor | reflexivity].
  - pose proof (ExpandSymlinks_scan_spec
                  (length (strings.Split name "/"%char))
                  (strings.Split name "/"%char) 0 names) as Hscan.
    simpl in Hscan.
    destruct (ExpandSymlinks_scan _ _ 0 names) as [names'|names' name'|].
    + destruct Hscan as [->|(p & -> & Hs & _)].
      * exists [], name.
        split_and!; [reflexivity | simpl; lia | constructor | reflexivity].
      * exists [p], name. rewrite <- app_assoc.
        split_and!; [reflexivity | simpl; lia | repeat constructor; exact Hs | discriminate].
    + destruct (IH name' names') as (links & last & -> & Hlen & Hall & Hlast).
      destruct Hscan as (p & -> & Hs & _).
      exists (p :: links), last. rewrite <- app_assoc.
      split_and!; [reflexivity | simpl; lia | constructor; assumption | discriminate].
    + destruct (IH name names) as (links & last & -> & Hlen & Hall & Hlast).
      exists links, last. split_and!; [reflexivity | lia | exact Hall | exact Hlast].
Qed.

Lemma ExpandSymlinks_loop_no_link n : forall name names,
  (forall p, p ∈ prefixes name -> ~ is_symlink p) ->
  ExpandSymlinks_loop n name names = names ++ [name].
Proof.
  induction n as [|n IH]; intros name names Hno; simpl; [reflexivity|].
  destruct (ExpandSymlinks_scan_no_link
              (length (strings.Split name "/"%char))
              (strings.Split name "/"%char) 0 names Hno) as [-> | ->].
  - apply IH, Hno.
  - reflexivity.
Qed.

(** X13: [ExpandSymlinks] lists the symlinks met on the way to a name and
    then the name reached.  The result is never empty; all its elements
    but the last are paths that the file system holds as symlinks, at most
    [maxSymlinks] of them; when no symlink was met the last element is the
    name asked for; and when no prefix of the name is a symlink, the result
    is the name alone. *)
Theorem ExpandSymlinks_lists_symlinks (name : string) :
  (exists links last,
     ExpandSymlinks name = links ++ [last] /\
     (length links <= maxSymlinks)%nat /\
     Forall is_symlink links /\
     (links = [] -> last = name)) /\
  ((forall p, p ∈ prefixes name -> ~ is_symlink p) ->
   ExpandSymlinks name = [name]).
Proof.
  split.
  - destruct (ExpandSymlinks_loop_spec maxSymlinks name []) as (links & last & H & Hr).
    exists links, last. split; [exact H | exact Hr].
  - intros Hno. apply (ExpandSymlinks_loop_no_link maxSymlinks name [] Hno).
Qed.

End FileSystem.

(** A file system in which ["loop"] is a symlink to itself. *)
Definition loop_ReadFile (root name : string) : bytes + error :=
  if String.eqb name "loop" then inr (SymlinkError "loop" "loop") else inr fs_ErrNotExist.
Definition loop_Stat (root name : string) : FileInfo + error :=
  if String.eqb name "loop" then inl (mkFileInfo root name "loop" "loop" [])
  else inr fs_ErrNotExist.

(** Simple stand-ins for the [path/filepath] functions, enough to follow
    a link to a sibling name. *)
Definition plain_IsAbs (s : string) : bool := false.
Definition plain_IsLocal (s : string) : bool := true.
Definition plain_Join (d t : string) : string := t.
Definition plain_Dir (s : string) : string := ".".
Definition plain_ToSlash (s : string) : string := s.
Definition plain_Rel (r t : string) : option string := Some t.

(** Reading or stat-ing the self-referential link meets a symlink at every
    lookup, 41 of them included, and so ends in [ELOOP]. *)
Lemma ReadFile_Stat_symlink_bound_witness :
  is_Some (readlinks plain_IsAbs plain_IsLocal plain_Join plain_Dir plain_ToSlash
             plain_Rel loop_ReadFile "/exec" 41 "loop") /\
  is_Some (statlinks plain_IsAbs plain_IsLocal plain_Join plain_Dir plain_ToSlash
             plain_Rel loop_Stat "/exec" 41 "loop") /\
  ReadFile plain_IsAbs plain_IsLocal plain_Join plain_Dir plain_ToSlash plain_Rel
           loop_ReadFile "/exec" "loop"
    = inr (mkPathError "readfile" "loop" syscall_ELOOP) /\
  snd (Stat plain_IsAbs plain_IsLocal plain_Join plain_Dir plain_ToSlash plain_Rel
            loop_Stat "/exec" "loop")
    = Some (mkPathError "stat" "loop" syscall_ELOOP).
Proof.
  assert (is_Some (readlinks plain_IsAbs plain_IsLocal plain_Join plain_Dir plain_ToSlash
             plain_Rel loop_ReadFile "/exec" 41 "loop")) as H1
    by (vm_compute; eauto).
  assert (is_Some (statlinks plain_IsAbs plain_IsLocal plain_Join plain_Dir plain_ToSlash
             plain_Rel loop_Stat "/exec" 41 "loop")) as H2
    by (vm_compute; eauto).
  split; [exact H1|]. split; [exact H2|].
  pose proof (ReadFile_Stat_symlink_bound plain_IsAbs plain_IsLocal plain_Join plain_Dir
                plain_ToSlash plain_Rel loop_ReadFile loop_Stat "/exec" "loop")
    as (_ & HR & HS & _).
  split; [apply (HR 41%nat); [unfold maxSymlinks; lia | exact H1]
         | apply (HS 41%nat); [unfold maxSymlinks; lia | exact H2]].
Defined.

(* ----------------------------------------------------------------- *)
(** *** A file system with one symlink, for [ReadDir] and [Stat] *)

(** ["link"] is a symlink to ["out"], a directory with two entries (an
    entry is modelled by its name); nothing else exists. *)
Definition link_ReadDir (root name : string) : list string + error :=
  if String.eqb name "link" then inr (SymlinkError "link" "out")
  else if String.eqb name "out" then inl ["a.o"; "b.o"]%string
  else inr fs_ErrNotExist.
Definition link_Stat (root name : string) : FileInfo + error :=
  if String.eqb name "link" then inl (mkFileInfo root name "out" "link" [])
  else if String.eqb name "out" then inl (mkFileInfo root name EmptyString "out" [])
  else inr fs_ErrNotExist.

Lemma ReadDir_resolution_witness :
  dirlinks plain_IsAbs plain_IsLocal plain_Join plain_Dir plain_ToSlash plain_Rel
           "/exec" string link_ReadDir 1 "link" = Some "out"%string /\
  ReadDir plain_IsAbs plain_IsLocal plain_Join plain_Dir plain_ToSlash plain_Rel
          "/exec" string link_ReadDir "link" = inl ["a.o"; "b.o"]%string.
Proof.
  assert (dirlinks plain_IsAbs plain_IsLocal plain_Join plain_Dir plain_ToSlash plain_Rel
            "/exec" string link_ReadDir 1 "link" = Some "out"%string) as H by reflexivity.
  split; [exact H|].
  apply (proj1 (ReadDir_resolution plain_IsAbs plain_IsLocal plain_Join plain_Dir
                  plain_ToSlash plain_Rel "/exec" string link_ReadDir "link" 1 "out" H)).
  - unfold maxSymlinks. lia.
  - reflexivity.
Defined.

Lemma Stat_records_symlinks_witness :
  statchain plain_IsAbs plain_IsLocal plain_Join plain_Dir plain_ToSlash plain_Rel
            link_Stat "/exec" 1 "link"
    = Some ([mkFileInfo "/exec" "link" "out" "link" []], "out"%string) /\
  Stat plain_IsAbs plain_IsLocal plain_Join plain_Dir plain_ToSlash plain_Rel
       link_Stat "/exec" "link"
    = (mkFileInfo "/exec" "out" EmptyString "out"
         [mkFileInfo "/exec" "link" "out" "link" []], None).
Proof.
  assert (statchain plain_IsAbs plain_IsLocal plain_Join plain_Dir plain_ToSlash plain_Rel
            link_Stat "/exec" 1 "link"
          = Some ([mkFileInfo "/exec" "link" "out" "link" []], "out"%string)) as H
    by reflexivity.
  split; [exact H|].
  destruct (Stat_records_symlinks plain_IsAbs plain_IsLocal plain_Join plain_Dir
              plain_ToSlash plain_Rel link_Stat "/exec" "link" 1 _ _ H)
    as (_ & _ & Hok & _).
  apply (Hok ltac:(unfold maxSymlinks; lia)
             (mkFileInfo "/exec" "out" EmptyString "out" []) eq_refl eq_refl).
Defined.

(* ----------------------------------------------------------------- *)
(** *** [File] and [Dir], the in-memory [fs.File] and [fs.ReadDirFile] *)

Inductive io_error := io_EOF.

Module File.

(** [File.Read]; the file is its unread bytes [f.buf].  The result is
    the file, the caller's buffer, and the Go pair [(int, error)]. *)
Definition Read (f : bytes) (buf : bytes) : bytes * bytes * (Z * option io_error) :=
  if (length f =? 0)%nat then (f, buf, (0, Some io_EOF))
  else
    let (buf, n) := builtin.copy buf f in
    (drop n f, buf, (Z.of_nat n, None)).

(** Reading a file with a buffer of [c] bytes until [io.EOF], as
    [io.Copy] does; the chunks read are collected in order.  [None]: no
    [io.EOF] within [fuel] calls. *)
Fixpoint read_to_EOF (fuel : nat) (f : bytes) (c : nat) : option (list bytes) :=
  match fuel with
  | O => None
  | S fuel =>
      match Read f (repeat 0 c) with
      | (_, _, (_, Some _)) => Some []
      | (f, buf, (n, None)) =>
          chunks ← read_to_EOF fuel f c; Some (take (Z.to_nat n) buf :: chunks)
      end
  end.

Lemma Read_chunk (f : bytes) (c : nat) :
  f <> [] ->
  Read f (repeat 0 c)
  = (drop c f, take c f ++ drop (Nat.min c (length f)) (repeat 0 c),
     (Z.of_nat (Nat.min c (length f)), None)).
Proof.
  intros Hf. unfold Read, builtin.copy.
  destruct (Nat.eqb_spec (length f) 0) as [H0|_].
  { apply length_zero_iff_nil in H0. contradiction. }
  rewrite repeat_length.
  destruct (Nat.min_spec c (length f)) as [[Hlt ->]|[Hge ->]]; [reflexivity|].
  rewrite (drop_ge f c), (drop_ge f (length f)), (take_ge f c), (take_ge f (length f))
    by lia.
  reflexivity.
Qed.

Lemma read_to_EOF_spec (c : nat) (Hc : (0 < c)%nat) : forall fuel f,
  (length f < fuel)%nat ->
  exists chunks, read_to_EOF fuel f c = Some chunks /\ concat chunks = f /\
    Forall (fun chunk => (0 < length chunk <= c)%nat) chunks.
Proof.
  induction fuel as [|fuel IH]; intros f Hf; [lia|].
  destruct f as [|x f].
  - exists []. repeat split. constructor.
  - cbn [read_to_EOF]. rewrite Read_chunk by discriminate.
    destruct (IH (drop c (x :: f))) as (chunks & HR & Hcat & Hall).
    { rewrite length_drop. simpl in *. lia. }
    rewrite HR. simpl option_bind. cbn [mbind option_bind].
    eexists. split; [reflexivity|].
    assert (take (Z.to_nat (Z.of_nat (Nat.min c (length (x :: f)))))
              (take c (x :: f) ++ drop (Nat.min c (length (x :: f))) (repeat 0 c))
            = take c (x :: f)) as Hchunk.
    { rewrite Nat2Z.id, take_app_le by (rewrite length_take; lia).
      apply take_ge. rewrite length_take. lia. }
    rewrite Hchunk. split.
    + simpl concat. rewrite Hcat. apply take_drop.
    + constructor; [|exact Hall]. rewrite length_take. simpl length. lia.
Qed.

(** X14: reading a [File] to its end returns its content.  With a buffer of
    [c > 0] bytes, successive calls of [Read] return chunks that are not
    empty and fit the buffer and whose concatenation is the content of the
    file, followed by [io.EOF]; this takes at most one call per byte and one
    more.  [Read] on an exhausted file returns [(0, io.EOF)] and leaves the
    buffer alone; with an empty buffer on a file that is not exhausted it
    returns [(0, nil)] and consumes nothing. *)
Theorem Read_to_EOF_returns_content (f : bytes) (c : nat) :
  ((0 < c)%nat ->
     exists chunks, read_to_EOF (S (length f)) f c = Some chunks /\
       concat chunks = f /\
       Forall (fun chunk => (0 < length chunk <= c)%nat) chunks) /\
  (forall buf, Read [] buf = ([], buf, (0, Some io_EOF))) /\
  (f <> [] -> Read f [] = (f, [], (0, None))).
Proof.
  split_and!.
  - intros Hc. apply read_to_EOF_spec; [exact Hc | lia].
  - intros buf. reflexivity.
  - intros Hf. unfold Read, builtin.copy.
    destruct (Nat.eqb_spec (length f) 0) as [H0|_].
    { apply length_zero_iff_nil in H0. contradiction. }
    simpl. rewrite drop_0. reflexivity.
Qed.

End File.

Module Dir.
Section Dir.

Variable DirEntry : Type.

(** The loop [for i, e = range d.ents { if i == n { break }; ents =
    append(ents, e) }]. *)
Fixpoint ReadDir_range (d : list DirEntry) (i n : Z) (ents : list DirEntry)
  : list DirEntry :=
  match d with
  | [] => ents
  | e :: d => if i =? n then ents else ReadDir_range d (i + 1) n (ents ++ [e])
  end.

(** [Dir.ReadDir]; the directory is its entries not yet returned
    [d.ents].  The result is the directory and the Go pair. *)
Definition ReadDir (d : list DirEntry) (n : Z)
  : list DirEntry * (list DirEntry * option io_error) :=
  if n <=? 0 then
    ([], (fold_left (fun ents e => ents ++ [e]) d [], None))
  else if (length d =? 0)%nat then (d, ([], Some io_EOF))
  else
    let ents := ReadDir_range d 0 n [] in
    (drop (length ents) d, (ents, None)).

(** Paging through a directory with [ReadDir(n)] until [io.EOF]; the pages
    returned are collected in order.  [None]: no [io.EOF] within [fuel]
    calls. *)
Fixpoint read_pages (fuel : nat) (d : list DirEntry) (n : Z) : option (list (list DirEntry)) :=
  match fuel with
  | O => None
  | S fuel =>
      match ReadDir d n with
      | (_, (_, Some _)) => Some []
      | (d, (ents, None)) => pages ← read_pages fuel d n; Some (ents :: pages)
      end
  end.

Lemma ReadDir_range_take d : forall i n ents,
  0 <= i <= n ->
  ReadDir_range d i n ents = ents ++ take (Z.to_nat (n - i)) d.
Proof.
  induction d as [|e d IH]; intros i n ents Hi; simpl.
  - rewrite take_nil, app_nil_r. reflexivity.
  - destruct (Z.eqb_spec i n) as [->|Hne].
    + replace (n - n) with 0 by lia. simpl. rewrite app_nil_r. reflexivity.
    + rewrite IH by lia. replace (Z.to_nat (n - i)) with (S (Z.to_nat (n - (i + 1)))) by lia.
      simpl. rewrite <- app_assoc. reflexivity.
Qed.

Lemma fold_left_snoc_all (l : list DirEntry) : forall acc,
  fold_left (fun xs x => xs ++ [x]) l acc = acc ++ l.
Proof.
  induction l as [|x l IH]; intros acc; simpl; [symmetry; apply app_nil_r|].
  rewrite IH, <- app_assoc. reflexivity.
Qed.

(** One call with [n > 0] on a directory with entries left returns the
    first [n] of them (all, if fewer are left) and keeps the others. *)
Lemma ReadDir_page (d : list DirEntry) (n : Z) :
  0 < n -> d <> [] ->
  ReadDir d n = (drop (Z.to_nat n) d, (take (Z.to_nat n) d, None)).
Proof.
  intros Hn Hd. unfold ReadDir.
  destruct (Z.leb_spec n 0); [lia|].
  destruct (Nat.eqb_spec (length d) 0) as [H0|_].
  { apply length_zero_iff_nil in H0. contradiction. }
  rewrite ReadDir_range_take by lia. simpl. replace (n - 0) with n by lia.
  rewrite length_take.
  destruct (Nat.min_spec (Z.to_nat n) (length d)) as [[Hlt ->]|[Hge ->]]; [reflexivity|].
  rewrite !drop_ge by lia. reflexivity.
Qed.

Lemma read_pages_spec (n : Z) (Hn : 0 < n) : forall fuel d,
  (length d < fuel)%nat ->
  exists pages, read_pages fuel d n = Some pages /\
    concat pages = d /\
    Forall (fun page => (0 < length page)%nat /\ Z.of_nat (length page) <= n) pages.
Proof.
  induction fuel as [|fuel IH]; intros d Hf; [lia|].
  destruct d as [|e d].
  - exists []. simpl. unfold ReadDir.
    destruct (Z.leb_spec n 0); [lia|]. simpl. repeat split. constructor.
  - cbn [read_pages]. rewrite ReadDir_page by (lia || discriminate).
    set (m := Z.to_nat n). assert (0 < m)%nat as Hm by lia.
    destruct (IH (drop m (e :: d))) as (pages & HP & Hc & Hall).
    { rewrite length_drop. simpl in *. lia. }
    rewrite HP. simpl. eexists. split; [reflexivity|]. split.
    + simpl. rewrite Hc. apply take_drop.
    + constructor; [|exact Hall]. rewrite length_take. simpl length. lia.
Qed.

(** X15: paging through a directory.  Calling [ReadDir(n)] with [n > 0]
    until it returns [io.EOF] yields every entry exactly once and in order:
    the pages returned, concatenated, are the entries of the directory, no
    page is empty and none has more than [n] entries; the first call on an
    exhausted directory returns [io.EOF].  [ReadDir(n)] with [n <= 0]
    returns all remaining entries at once with a nil error and exhausts the
    directory; it returns an empty list and a nil error, not [io.EOF], when
    nothing is left. *)
Theorem ReadDir_pages (d : list DirEntry) (n : Z) :
  (0 < n ->
     exists pages, read_pages (S (length d)) d n = Some pages /\
       concat pages = d /\
       Forall (fun page => (0 < length page)%nat /\ Z.of_nat (length page) <= n) pages) /\
  (0 < n -> ReadDir [] n = ([], ([], Some io_EOF))) /\
  (n <= 0 -> ReadDir d n = ([], (d, None)) /\ ReadDir [] n = ([], ([], None))).
Proof.
  split_and!.
  - intros Hn. apply read_pages_spec; [exact Hn | lia].
  - intros Hn. unfold ReadDir. destruct (Z.leb_spec n 0); [lia | reflexivity].
  - intros Hn. unfold ReadDir. destruct (Z.leb_spec n 0); [|lia].
    rewrite fold_left_snoc_all. split; reflexivity.
Qed.

End Dir.
End Dir.

End HashFS.

(* ================================================================= *)
(** ** scandeps/path_table.go *)

Module PathTable.

(** [PathTable] manages the mapping between path strings and unique
    integer indices. *)
Record PathTable := mkPathTable {
  pathToIdx : gmap string Z;                  (* map[string]int *)
  idxToPath : list string                     (* []string *)
}.

Inductive error := invalid_path_index (idx : Z).

Definition NewPathTable : PathTable := mkPathTable ∅ [].

(** [GetIndex] returns the index of [path]; a new path gets the next free
    index.  The table is returned with the index since the receiver is
    mutated in place. *)
Definition GetIndex (pt : PathTable) (path : string) : PathTable * Z :=
  match pathToIdx pt !! path with
  | Some idx => (pt, idx)
  | None =>
      let idx := Z.of_nat (length (idxToPath pt)) in
      (mkPathTable (<[path := idx]> (pathToIdx pt)) (idxToPath pt ++ [path]), idx)
  end.

(** [GetPath] returns the Go pair [(string, error)]; [None] would be an
    index-out-of-range panic at [pt.idxToPath[idx]]. *)
Definition GetPath (pt : PathTable) (idx : Z) : option (string * option error) :=
  if (idx <? 0) || (Z.of_nat (length (idxToPath pt)) <=? idx)
  then Some (EmptyString, Some (invalid_path_index idx))
  else p ← idxToPath pt !! Z.to_nat idx; Some (p, None).

(** The table after interning the paths [ps], in order, starting from [pt]. *)
Definition interns (pt : PathTable) (ps : list string) : PathTable :=
  foldl (fun pt p => fst (GetIndex pt p)) pt ps.

(** The two directions of the table agree. *)
Definition consistent (pt : PathTable) : Prop :=
  forall p i, pathToIdx pt !! p = Some i <->
              0 <= i /\ idxToPath pt !! Z.to_nat i = Some p.

Lemma consistent_new : consistent NewPathTable.
Proof.
  intros p i; unfold NewPathTable; simpl. rewrite lookup_empty.
  split; [discriminate | intros [_ H]; discriminate].
Qed.

Lemma GetIndex_consistent pt path :
  consistent pt -> consistent (fst (GetIndex pt path)).
Proof.
  intros Hc. unfold GetIndex.
  destruct (pathToIdx pt !! path) as [idx|] eqn:Hl; simpl; [exact Hc|].
  intros p i; simpl. destruct (decide (path = p)) as [->|Hne].
  - rewrite lookup_insert_eq. split.
    + intros [= <-]. split; [lia|].
      rewrite Nat2Z.id, lookup_app_r by lia.
      replace (_ - _)%nat with 0%nat by lia. reflexivity.
    + intros [Hi Hp]. f_equal.
      destruct (decide (Z.to_nat i < length (idxToPath pt))%nat) as [Hlt|Hge].
      * rewrite lookup_app_l in Hp by exact Hlt.
        assert (pathToIdx pt !! p = Some i) as Hs by (apply Hc; auto).
        congruence.
      * apply lookup_lt_Some in Hp. rewrite length_app in Hp; simpl in Hp. lia.
  - rewrite lookup_insert_ne by exact Hne. split.
    + intros H. apply Hc in H as [Hi Hp]. split; [exact Hi|].
      rewrite lookup_app_l; [exact Hp | eapply lookup_lt_Some; eauto].
    + intros [Hi Hp]. apply Hc. split; [exact Hi|].
      destruct (decide (Z.to_nat i < length (idxToPath pt))%nat) as [Hlt|Hge].
      * rewrite lookup_app_l in Hp by exact Hlt. exact Hp.
      * rewrite lookup_app_r in Hp by lia.
        destruct (Z.to_nat i - length (idxToPath pt))%nat; simpl in Hp;
          [congruence | discriminate].
Qed.

Lemma interns_consistent ps : forall pt, consistent pt -> consistent (interns pt ps).
Proof.
  induction ps as [|p ps IH]; intros pt Hc; simpl; [exact Hc|].
  apply IH, GetIndex_consistent, Hc.
Qed.

Lemma GetIndex_interned pt path :
  pathToIdx (fst (GetIndex pt path)) !! path = Some (snd (GetIndex pt path)).
Proof.
  unfold GetIndex. destruct (pathToIdx pt !! path) eqn:Hl; simpl; [exact Hl|].
  apply lookup_insert_eq.
Qed.

Lemma GetIndex_mono pt path p i :
  pathToIdx pt !! p = Some i -> pathToIdx (fst (GetIndex pt path)) !! p = Some i.
Proof.
  intros Hp. unfold GetIndex.
  destruct (pathToIdx pt !! path) eqn:Hl; simpl; [exact Hp|].
  rewrite lookup_insert_ne; [exact Hp | congruence].
Qed.

Lemma interns_mono ps : forall pt p i,
  pathToIdx pt !! p = Some i -> pathToIdx (interns pt ps) !! p = Some i.
Proof.
  induction ps as [|q ps IH]; intros pt p i Hp; simpl; [exact Hp|].
  apply IH, GetIndex_mono, Hp.
Qed.

Lemma GetIndex_known pt p i :
  pathToIdx pt !! p = Some i -> GetIndex pt p = (pt, i).
Proof. intros Hp. unfold GetIndex. rewrite Hp. reflexivity. Qed.

Lemma GetPath_interned pt p i :
  consistent pt -> pathToIdx pt !! p = Some i -> GetPath pt i = Some (p, None).
Proof.
  intros Hc Hp. apply Hc in Hp as [Hi Hl]. unfold GetPath.
  pose proof (lookup_lt_Some _ _ _ Hl) as Hlt.
  replace (i <? 0) with false by (symmetry; apply Z.ltb_ge; lia).
  replace (Z.of_nat (length (idxToPath pt)) <=? i) with false
    by (symmetry; apply Z.leb_gt; lia).
  simpl. rewrite Hl. reflexivity.
Qed.

(** C9: interning is a bijection between interned paths and ids.  For the
    table [pt] reached by any sequence of [GetIndex] calls: a path keeps the
    id it was given through all later calls; two distinct paths never get
    the same id; [GetPath] on the id of an interned path returns that path
    (the empty string included); and [GetPath i] returns an error exactly
    when [i] is negative or no path has id [i] (it never panics). *)
Theorem PathTable_bijection (ps : list string) :
  let pt := interns NewPathTable ps in
  (forall p qs,
     let (pt1, i) := GetIndex pt p in
     GetIndex (interns pt1 qs) p = (interns pt1 qs, i)) /\
  (forall p q qs,
     let (pt1, i) := GetIndex pt p in
     p <> q -> snd (GetIndex (interns pt1 qs) q) <> i) /\
  (forall p qs,
     let (pt1, i) := GetIndex pt p in
     GetPath (interns pt1 qs) i = Some (p, None)) /\
  (forall i,
     (exists e, GetPath pt i = Some (EmptyString, Some e)) <->
     (i < 0 \/ ~ exists p, pathToIdx pt !! p = Some i)) /\
  (forall i, GetPath pt i <> None).
Proof.
  intros pt.
  assert (consistent pt) as Hc by (apply interns_consistent, consistent_new).
  repeat split.
  - intros p qs. destruct (GetIndex pt p) as [pt1 i] eqn:Hg.
    apply GetIndex_known, interns_mono.
    pose proof (GetIndex_interned pt p) as H. rewrite Hg in H. exact H.
  - intros p q qs. destruct (GetIndex pt p) as [pt1 i] eqn:Hg. intros Hne Heq.
    pose proof (GetIndex_interned pt p) as Hp. rewrite Hg in Hp; simpl in Hp.
    pose proof (GetIndex_consistent pt p Hc) as Hc1. rewrite Hg in Hc1; simpl in Hc1.
    set (pt2 := interns pt1 qs) in *.
    assert (consistent pt2) as Hc2 by (apply interns_consistent, Hc1).
    pose proof (GetIndex_consistent pt2 q Hc2) as Hc3.
    pose proof (GetIndex_interned pt2 q) as Hq. rewrite Heq in Hq.
    assert (pathToIdx (fst (GetIndex pt2 q)) !! p = Some i) as Hp3
      by (apply GetIndex_mono, interns_mono, Hp).
    apply Hc3 in Hq as [_ Hq]. apply Hc3 in Hp3 as [_ Hp3]. congruence.
  - intros p qs. destruct (GetIndex pt p) as [pt1 i] eqn:Hg.
    pose proof (GetIndex_interned pt p) as Hp. rewrite Hg in Hp; simpl in Hp.
    pose proof (GetIndex_consistent pt p Hc) as Hc1. rewrite Hg in Hc1; simpl in Hc1.
    apply GetPath_interned; [apply interns_consistent, Hc1 | apply interns_mono, Hp].
  - intros [e He]. unfold GetPath in He.
    destruct (i <? 0) eqn:Hneg; [left; apply Z.ltb_lt, Hneg|].
    destruct (Z.of_nat (length (idxToPath pt)) <=? i) eqn:Hlen; simpl in He.
    + right. intros [p Hp]. apply Hc in Hp as [_ Hp].
      apply lookup_lt_Some in Hp. apply Z.leb_le in Hlen. lia.
    + destruct (idxToPath pt !! Z.to_nat i); simpl in He; discriminate.
  - intros Hi. unfold GetPath.
    destruct (i <? 0) eqn:Hneg; [simpl; eauto|].
    destruct (Z.of_nat (length (idxToPath pt)) <=? i) eqn:Hlen; simpl; [eauto|].
    exfalso. apply Z.ltb_ge in Hneg. apply Z.leb_gt in Hlen.
    destruct Hi as [Hi|Hi]; [lia|]. apply Hi.
    destruct (lookup_lt_is_Some_2 (idxToPath pt) (Z.to_nat i)) as [p Hp]; [lia|].
    exists p. apply Hc. auto.
  - intros i. unfold GetPath.
    destruct (i <? 0) eqn:Hneg; [discriminate|].
    destruct (Z.of_nat (length (idxToPath pt)) <=? i) eqn:Hlen; simpl; [discriminate|].
    apply Z.ltb_ge in Hneg. apply Z.leb_gt in Hlen.
    destruct (lookup_lt_is_Some_2 (idxToPath pt) (Z.to_nat i)) as [p Hp]; [lia|].
    rewrite Hp. discriminate.
Qed.

(** The scenario of [TestGetIndexAndGetPath]. *)
Example TestGetIndexAndGetPath :
  let (pt1, i1) := GetIndex NewPathTable "path/to/file1.h" in
  let (pt2, i2) := GetIndex pt1 "path/to/file2.cc" in
  let (pt3, i1') := GetIndex pt2 "path/to/file1.h" in
  let (pt4, i3) := GetIndex pt3 EmptyString in
  (i1, i2, i1', i3) = (0, 1, 0, 2) /\
  GetPath pt1 i1 = Some ("path/to/file1.h"%string, None) /\
  GetPath pt4 999 = Some (EmptyString, Some (invalid_path_index 999)) /\
  GetPath pt4 (-1) = Some (EmptyString, Some (invalid_path_index (-1))) /\
  GetPath pt4 2 = Some (EmptyString, None).
Proof. vm_compute. repeat split. Qed.

(* ----------------------------------------------------------------- *)
(** *** The ids are dense *)

(** The distinct paths of [ps] that are not in [seen], appended to [seen]
    in the order of their first occurrence. *)
Fixpoint first_seen (seen ps : list string) : list string :=
  match ps with
  | [] => seen
  | p :: ps =>
      if decide (p ∈ seen) then first_seen seen ps else first_seen (seen ++ [p]) ps
  end.

Lemma consistent_elem pt p :
  consistent pt -> (p ∈ idxToPath pt <-> is_Some (pathToIdx pt !! p)).
Proof.
  intros Hc. split.
  - intros Hp. apply list_elem_of_lookup in Hp as [k Hk].
    exists (Z.of_nat k). apply Hc. rewrite Nat2Z.id. split; [lia | exact Hk].
  - intros [i Hi]. apply Hc in Hi as [_ Hi]. eapply list_elem_of_lookup_2, Hi.
Qed.

Lemma consistent_NoDup pt : consistent pt -> NoDup (idxToPath pt).
Proof.
  intros Hc. apply NoDup_alt. intros i j p Hi Hj.
  assert (pathToIdx pt !! p = Some (Z.of_nat i)) as H1
    by (apply Hc; rewrite Nat2Z.id; split; [lia | exact Hi]).
  assert (pathToIdx pt !! p = Some (Z.of_nat j)) as H2
    by (apply Hc; rewrite Nat2Z.id; split; [lia | exact Hj]).
  rewrite H1 in H2. injection H2. lia.
Qed.

Lemma interns_first_seen ps : forall pt,
  consistent pt -> idxToPath (interns pt ps) = first_seen (idxToPath pt) ps.
Proof.
  induction ps as [|p ps IH]; intros pt Hc; simpl; [reflexivity|].
  rewrite (IH _ (GetIndex_consistent pt p Hc)).
  pose proof (consistent_elem pt p Hc) as He.
  unfold GetIndex. destruct (pathToIdx pt !! p) as [i|] eqn:Hl; simpl.
  - destruct (decide (p ∈ idxToPath pt)) as [_|Hn]; [reflexivity|].
    exfalso. apply Hn, He. eauto.
  - destruct (decide (p ∈ idxToPath pt)) as [Hin|_]; [|reflexivity].
    apply He in Hin as [i Hi]. discriminate.
Qed.

Lemma elem_of_first_seen ps : forall seen q,
  q ∈ first_seen seen ps <-> q ∈ seen \/ q ∈ ps.
Proof.
  induction ps as [|p ps IH]; intros seen q; simpl.
  - rewrite elem_of_nil. tauto.
  - rewrite elem_of_cons. destruct (decide (p ∈ seen)) as [Hin|Hout]; rewrite IH.
    + split; [tauto|]. intros [H|[->|H]]; auto.
    + rewrite elem_of_app, list_elem_of_singleton. tauto.
Qed.

(** X16: the ids are handed out densely, in the order paths are first seen.
    After interning the paths [ps] into a new table, the table lists every
    path of [ps] exactly once, in the order of first occurrence, and the id
    of a path is its position in that list.  Hence [GetIndex] of a path not
    seen before returns the number of distinct paths seen so far and adds
    the path at the end, while [GetIndex] of a known path leaves the table
    as it is and returns an id below that number. *)
Theorem GetIndex_ids_are_dense (ps : list string) (p : string) :
  let pt := interns NewPathTable ps in
  let n := Z.of_nat (length (idxToPath pt)) in
  idxToPath pt = first_seen [] ps /\
  NoDup (idxToPath pt) /\
  (forall q, q ∈ idxToPath pt <-> q ∈ ps) /\
  (forall q i, pathToIdx pt !! q = Some i <->
               0 <= i /\ idxToPath pt !! Z.to_nat i = Some q) /\
  (p ∉ ps ->
     GetIndex pt p
     = (mkPathTable (<[p := n]> (pathToIdx pt)) (idxToPath pt ++ [p]), n)) /\
  (p ∈ ps -> fst (GetIndex pt p) = pt /\ 0 <= snd (GetIndex pt p) < n).
Proof.
  intros pt n.
  assert (consistent pt) as Hc by (apply interns_consistent, consistent_new).
  assert (idxToPath pt = first_seen [] ps) as Hfs
    by (apply (interns_first_seen ps NewPathTable consistent_new)).
  assert (forall q, q ∈ idxToPath pt <-> q ∈ ps) as Hel.
  { intros q. rewrite Hfs, elem_of_first_seen, elem_of_nil. tauto. }
  split_and!; auto using consistent_NoDup.
  - intros Hp. unfold GetIndex.
    destruct (pathToIdx pt !! p) as [i|] eqn:Hl; [|reflexivity].
    exfalso. apply Hp, Hel, consistent_elem; eauto.
  - intros Hp. apply Hel, consistent_elem in Hp as [i Hi]; [|exact Hc].
    rewrite (GetIndex_known pt p i Hi). simpl. split; [reflexivity|].
    apply Hc in Hi as [Hi0 Hi]. apply lookup_lt_Some in Hi. subst n. lia.
Qed.

End PathTable.

(* ================================================================= *)
(** ** container/heap *)

Module heap.

(** [heap.Interface] ([sort.Interface] with [Push] and [Pop]) over a
    container of type [H] holding elements of type [X].  The methods
    mutate the container, so each returns the new container; [None] is a
    panic of the implementation.  Indices are Go [int]s that are never
    negative here, hence [nat]. *)
Class Interface (H X : Type) := {
  Len : H -> nat;
  Less : H -> nat -> nat -> option bool;
  Swap : H -> nat -> nat -> option H;
  Push : H -> X -> option H;
  Pop : H -> option (H * X)
}.

Section generic.
Context {H X : Type} `{!Interface H X}.

(** [up]: the loop [for { i := (j - 1) / 2; if i == j || !h.Less(j, i)
    { break }; h.Swap(i, j); j = i }].  On [nat], [(0 - 1) / 2 = 0] as
    with Go's truncating division of [-1].  [j] decreases at each turn,
    so [fuel >= j] turns suffice, see [up_loop_fuel]. *)
Fixpoint up_loop (fuel : nat) (h : H) (j : nat) : option H :=
  match fuel with
  | O => Some h
  | S fuel =>
      let i := ((j - 1) / 2)%nat in
      if (i =? j)%nat then Some h
      else
        lt ← Less h j i;
        if negb lt then Some h
        else h ← Swap h i j; up_loop fuel h i
  end.

Definition up (h : H) (j : nat) : option H := up_loop j h j.

(** [down]: the loop of [down(h, i0, n)], returning the container and the
    final [i].  [i] increases at each turn and the loop stops once
    [2*i + 1 >= n], so [fuel >= n - i] turns suffice, see [down_loop_fuel].
    The test [j1 < 0] guards against [int] overflow, which unbounded
    numbers do not have. *)
Fixpoint down_loop (fuel : nat) (h : H) (i n : nat) : option (H * nat) :=
  match fuel with
  | O => Some (h, i)
  | S fuel =>
      let j1 := (2 * i + 1)%nat in
      if (n <=? j1)%nat then Some (h, i)
      else
        let j2 := (j1 + 1)%nat in
        lt21 ← (if (j2 <? n)%nat then Less h j2 j1 else Some false);
        let j := if (lt21 : bool) then j2 else j1 in
        lt ← Less h j i;
        if negb lt then Some (h, i)
        else h ← Swap h i j; down_loop fuel h j n
  end.

(** [down(h, i0, n)] returns [i > i0]. *)
Definition down (h : H) (i0 n : nat) : option (H * bool) :=
  '(h, i) ← down_loop (n - i0) h i0 n; Some (h, (i0 <? i)%nat).

(** [Init]: [for i := n/2 - 1; i >= 0; i-- { down(h, i, n) }]; [k] counts
    the turns left, the next one being at [i = k - 1]. *)
Fixpoint Init_loop (k : nat) (h : H) (n : nat) : option H :=
  match k with
  | O => Some h
  | S k => '(h, _) ← down h k n; Init_loop k h n
  end.

Definition Init (h : H) : option H :=
  let n := Len h in Init_loop (n / 2) h n.

(** [heap.Push]. *)
Definition HPush (h : H) (x : X) : option H :=
  h ← Push h x; up h (Len h - 1).

(** [heap.Pop]; on an empty heap [n = -1] and [h.Swap(0, -1)] panics. *)
Definition HPop (h : H) : option (H * X) :=
  if (Len h =? 0)%nat then None
  else
    let n := (Len h - 1)%nat in
    h ← Swap h 0 n;
    '(h, _) ← down h 0 n;
    Pop h.

(** [heap.Remove]; on an empty heap [h.Swap(i, -1)] panics. *)
Definition Remove (h : H) (i : nat) : option (H * X) :=
  if (Len h =? 0)%nat then None
  else
    let n := (Len h - 1)%nat in
    h ← (if (n =? i)%nat then Some h
         else
           h ← Swap h i n;
           '(h, moved) ← down h i n;
           if negb moved then up h i else Some h);
    Pop h.

End generic.
End heap.

(* ================================================================= *)
(** ** sync/semaphore/priority_semaphore.go *)

Module semaphore.

Inductive reqState := stateWaiting | stateAcquired | stateCanceled.

#[global] Instance reqState_eq_dec : EqDecision reqState.
Proof. solve_decision. Defined.

(** [request]; the channel [ready] carries no state of its own between
    steps and is modelled by the hand-over in the transition system below.
    [state] is the value of the [atomic.Int32]. *)
Record request := mkRequest {
  weight : Z;
  index : Z;
  state : reqState
}.

(** A [*request] is the address of the object in [objs]. *)
Abbreviation ptr := nat.

(** [priorityQueue] is a slice of pointers; the heap methods also write
    the [index] field of the objects pointed to, so the container the heap
    works on is the slice together with the objects. *)
Record pqheap := mkHeap {
  pq : list ptr;
  objs : list request
}.

Definition set_index (m : list request) (p : ptr) (i : Z) : option (list request) :=
  r ← m !! p; Some (<[p := mkRequest (weight r) i (state r)]> m).

Definition set_state (m : list request) (p : ptr) (s : reqState) : option (list request) :=
  r ← m !! p; Some (<[p := mkRequest (weight r) (index r) s]> m).

Definition pq_Len (h : pqheap) : nat := length (pq h).

Definition pq_Less (h : pqheap) (i j : nat) : option bool :=
  pi ← pq h !! i; pj ← pq h !! j;
  ri ← objs h !! pi; rj ← objs h !! pj;
  Some (weight rj <? weight ri).

Definition pq_Swap (h : pqheap) (i j : nat) : option pqheap :=
  pi ← pq h !! i; pj ← pq h !! j;
  let s := <[j := pi]> (<[i := pj]> (pq h)) in
  p ← s !! i; m ← set_index (objs h) p (Z.of_nat i);
  p ← s !! j; m ← set_index m p (Z.of_nat j);
  Some (mkHeap s m).

Definition pq_Push (h : pqheap) (x : ptr) : option pqheap :=
  let n := length (pq h) in
  m ← set_index (objs h) x (Z.of_nat n);
  Some (mkHeap (pq h ++ [x]) m).

Definition pq_Pop (h : pqheap) : option (pqheap * ptr) :=
  let n := length (pq h) in
  req ← (if (n =? 0)%nat then None else pq h !! (n - 1)%nat);
  m ← set_index (objs h) req (-1);
  Some (mkHeap (take (n - 1) (pq h)) m, req).

#[global] Instance priorityQueue : heap.Interface pqheap ptr := {|
  heap.Len := pq_Len;
  heap.Less := pq_Less;
  heap.Swap := pq_Swap;
  heap.Push := pq_Push;
  heap.Pop := pq_Pop
|}.

(** [Prioritized]: the fields guarded by [mu], and the request objects.
    The name, the span names and the atomic counters [waits] and [reqs]
    take no part in granting slots and are left out. *)
Record Prioritized := mkPrioritized {
  capacity : Z;
  used : Z;
  queue : pqheap
}.

Definition NewPrioritized (n : Z) : option Prioritized :=
  h ← heap.Init (mkHeap [] []); Some (mkPrioritized n 0 h).

(** Outcome of the part of [WaitAcquire] that runs under [mu]. *)
Inductive acquired := Immediate (tid : Z) | Queued (req : ptr).

Definition WaitAcquire_locked (s : Prioritized) (w : Z) : option (Prioritized * acquired) :=
  if used s <? capacity s then
    let tid := used s in
    Some (mkPrioritized (capacity s) (used s + 1) (queue s), Immediate tid)
  else
    (* req := &request{weight: weight, ready: make(chan int)} *)
    let req := length (objs (queue s)) in
    let h := mkHeap (pq (queue s)) (objs (queue s) ++ [mkRequest w 0 stateWaiting]) in
    h ← heap.HPush h req;
    Some (mkPrioritized (capacity s) (used s) h, Queued req).

(** [req.state.CompareAndSwap(old, new)]. *)
Definition CompareAndSwap (m : list request) (p : ptr) (old new : reqState)
  : option (list request * bool) :=
  r ← m !! p;
  if decide (state r = old) then m ← set_state m p new; Some (m, true)
  else Some (m, false).

(** The loop of [privateRelease]; each turn pops a request, so [Len] turns
    suffice, see [privateRelease_loop_fuel].  The result is the request
    that was handed the slot, if any. *)
Fixpoint privateRelease_loop (fuel : nat) (s : Prioritized) : option (Prioritized * option ptr) :=
  match fuel with
  | O => Some (mkPrioritized (capacity s) (used s - 1) (queue s), None)
  | S fuel =>
      if (0 <? pq_Len (queue s))%nat then
        '(h, req) ← heap.HPop (queue s);
        '(m, ok) ← CompareAndSwap (objs h) req stateWaiting stateAcquired;
        let s := mkPrioritized (capacity s) (used s) (mkHeap (pq h) m) in
        if (ok : bool) then Some (s, Some req)   (* req.ready <- tid *)
        else privateRelease_loop fuel s
      else Some (mkPrioritized (capacity s) (used s - 1) (queue s), None)
  end.

Definition privateRelease (s : Prioritized) : option (Prioritized * option ptr) :=
  privateRelease_loop (pq_Len (queue s)) s.

(** The [ctx.Done()] branch of [WaitAcquire], first part: the attempt to
    cancel. *)
Definition cancel_CAS (s : Prioritized) (req : ptr) : option (Prioritized * bool) :=
  '(m, ok) ← CompareAndSwap (objs (queue s)) req stateWaiting stateCanceled;
  Some (mkPrioritized (capacity s) (used s) (mkHeap (pq (queue s)) m), ok).

(** Second part, under [mu]: [if req.index != -1 { heap.Remove(&s.pq,
    req.index) }].  A negative index other than -1 would panic in [Swap]. *)
Definition cancel_remove (s : Prioritized) (req : ptr) : option Prioritized :=
  r ← objs (queue s) !! req;
  if index r =? -1 then Some s
  else if index r <? 0 then None
  else '(h, _) ← heap.Remove (queue s) (Z.to_nat (index r));
       Some (mkPrioritized (capacity s) (used s) h).

(** *** Heap order and the well-formedness of the queue *)

(** Split conjunctions only. *)
Ltac split_conj := repeat match goal with |- _ /\ _ => split end.

Section heap_proofs.
Local Open Scope nat_scope.

Definition parent (k : nat) : nat := (k - 1) / 2.

(** The request at position [k] of the queue and its weight. *)
Definition req_at (h : pqheap) (k : nat) : option request :=
  p ← pq h !! k; objs h !! p.
Definition wt (h : pqheap) (k : nat) : Z :=
  from_option weight 0%Z (req_at h k).

(** Every pointer of the queue is valid and the [index] field of the
    request at position [k] is [k]. *)
Definition wf (h : pqheap) : Prop :=
  forall k p, pq h !! k = Some p ->
    exists r, objs h !! p = Some r /\ index r = Z.of_nat k.

(** Position [k] is in order with its parent. *)
Definition ord (h : pqheap) (k : nat) : Prop := (wt h k <= wt h (parent k))%Z.

(** The first [n] positions form a max-heap. *)
Definition heapord (h : pqheap) (n : nat) : Prop :=
  forall k, 0 < k < n -> ord h k.

(** The heap operations do not change weights or states. *)
Definition same_reqs (m m' : list request) : Prop :=
  forall p, weight <$> m' !! p = weight <$> m !! p /\
            state <$> m' !! p = state <$> m !! p.

(** What an operation that permutes the queue leaves alone. *)
Record hstep (h h' : pqheap) : Prop := mk_hstep {
  hstep_len : length (pq h') = length (pq h);
  hstep_elem : forall p, p ∈ pq h' <-> p ∈ pq h;
  hstep_reqs : same_reqs (objs h) (objs h');
  hstep_off : forall p, p ∉ pq h -> objs h' !! p = objs h !! p
}.

Lemma same_reqs_refl m : same_reqs m m.
Proof. intros p; split; reflexivity. Qed.

Lemma same_reqs_trans m1 m2 m3 :
  same_reqs m1 m2 -> same_reqs m2 m3 -> same_reqs m1 m3.
Proof.
  intros H1 H2 p. destruct (H1 p) as [A1 B1], (H2 p) as [A2 B2].
  split; congruence.
Qed.

Lemma same_reqs_length m m' : same_reqs m m' -> length m' = length m.
Proof.
  intros H.
  destruct (decide (length m' = length m)) as [|Hne]; [assumption|exfalso].
  destruct (decide (length m < length m')) as [Hlt|Hge].
  - destruct (H (length m)) as [Hw _].
    rewrite (lookup_ge_None_2 m (length m)) in Hw by lia.
    destruct (lookup_lt_is_Some_2 m' (length m) Hlt) as [r Hr].
    rewrite Hr in Hw. discriminate.
  - destruct (H (length m')) as [Hw _].
    rewrite (lookup_ge_None_2 m' (length m')) in Hw by lia.
    destruct (lookup_lt_is_Some_2 m (length m')) as [r Hr]; [lia|].
    rewrite Hr in Hw. discriminate.
Qed.

Lemma hstep_refl h : hstep h h.
Proof. split; auto using same_reqs_refl. Qed.

Lemma hstep_trans h1 h2 h3 : hstep h1 h2 -> hstep h2 h3 -> hstep h1 h3.
Proof.
  intros [L1 E1 R1 O1] [L2 E2 R2 O2]. split.
  - congruence.
  - intros p. rewrite E2. apply E1.
  - eapply same_reqs_trans; eauto.
  - intros p Hp. rewrite O2, O1; auto. rewrite E1. exact Hp.
Qed.

Lemma wf_NoDup h : wf h -> NoDup (pq h).
Proof.
  intros Hwf. apply NoDup_alt. intros i j p Hi Hj.
  destruct (Hwf _ _ Hi) as (r & Hr & Hri), (Hwf _ _ Hj) as (r' & Hr' & Hrj).
  assert (r = r') by congruence. subst. lia.
Qed.

Lemma wf_lookup h k : wf h -> k < length (pq h) ->
  exists p r, pq h !! k = Some p /\ objs h !! p = Some r /\ index r = Z.of_nat k.
Proof.
  intros Hwf Hk. destruct (lookup_lt_is_Some_2 _ _ Hk) as [p Hp].
  destruct (Hwf _ _ Hp) as (r & Hr & Hi). eauto.
Qed.

Lemma wt_lookup h k p r :
  pq h !! k = Some p -> objs h !! p = Some r -> wt h k = weight r.
Proof. intros Hp Hr. unfold wt, req_at. rewrite Hp; simpl. rewrite Hr. reflexivity. Qed.

Lemma pq_Less_spec h i j :
  wf h -> i < length (pq h) -> j < length (pq h) ->
  pq_Less h i j = Some (wt h j <? wt h i)%Z.
Proof.
  intros Hwf Hi Hj.
  destruct (wf_lookup h i Hwf Hi) as (pi & ri & Hpi & Hri & _).
  destruct (wf_lookup h j Hwf Hj) as (pj & rj & Hpj & Hrj & _).
  rewrite (wt_lookup _ _ _ _ Hpi Hri), (wt_lookup _ _ _ _ Hpj Hrj).
  unfold pq_Less. rewrite Hpi, Hpj; simpl. rewrite Hri, Hrj. reflexivity.
Qed.

(** The transposition of [i] and [j]. *)
Definition transp (i j k : nat) : nat :=
  if decide (k = i) then j else if decide (k = j) then i else k.

Lemma set_index_same m p r :
  m !! p = Some r -> set_index m p (index r) = Some m.
Proof.
  intros Hr. unfold set_index. rewrite Hr; simpl. f_equal.
  apply list_insert_id. rewrite Hr. destruct r; reflexivity.
Qed.

Lemma set_index_lookup m p i r :
  m !! p = Some r ->
  exists m', set_index m p i = Some m' /\
    m' !! p = Some (mkRequest (weight r) i (state r)) /\
    (forall q, q <> p -> m' !! q = m !! q) /\ same_reqs m m'.
Proof.
  intros Hr. unfold set_index. rewrite Hr; simpl. eexists; split; [reflexivity|].
  pose proof (lookup_lt_Some _ _ _ Hr) as Hlt.
  split; [apply list_lookup_insert_eq, Hlt|].
  split; [intros q Hq; apply list_lookup_insert_ne; congruence|].
  intros q. destruct (decide (q = p)) as [->|Hq].
  - rewrite list_lookup_insert_eq, Hr by exact Hlt. split; reflexivity.
  - rewrite list_lookup_insert_ne by congruence. split; reflexivity.
Qed.

Lemma pq_Swap_spec h i j :
  wf h -> i < length (pq h) -> j < length (pq h) ->
  exists h', pq_Swap h i j = Some h' /\ wf h' /\ hstep h h' /\
             (forall k, pq h' !! k = pq h !! transp i j k) /\
             (i = j -> h' = h).
Proof.
  intros Hwf Hi Hj.
  destruct (wf_lookup h i Hwf Hi) as (pi & ri & Hpi & Hri & Hii).
  destruct (wf_lookup h j Hwf Hj) as (pj & rj & Hpj & Hrj & Hij).
  destruct (decide (i = j)) as [->|Hne].
  - (* swapping a position with itself changes nothing *)
    assert (pi = pj) by congruence. subst pj.
    assert (ri = rj) by congruence. subst rj.
    exists h. unfold pq_Swap. rewrite Hpi; simpl.
    rewrite list_insert_insert_eq, (list_insert_id _ _ _ Hpi), Hpi; simpl.
    rewrite <- Hii, (set_index_same _ _ _ Hri); simpl.
    rewrite (set_index_same _ _ _ Hri); simpl.
    split; [destruct h; reflexivity|]. split; [exact Hwf|].
    split; [apply hstep_refl|]. split; [|reflexivity].
    intros k. unfold transp. repeat case_decide; congruence.
  - pose proof (wf_NoDup h Hwf) as Hnd.
    assert (pi <> pj) as Hpne.
    { intros ->. apply Hne. eapply NoDup_lookup; eauto. }
    set (s := <[j := pi]> (<[i := pj]> (pq h))).
    assert (Hs : forall k, s !! k = pq h !! transp i j k).
    { intros k. unfold s, transp. repeat case_decide; subst.
      - rewrite list_lookup_insert_ne, list_lookup_insert_eq by (congruence || lia).
        congruence.
      - rewrite list_lookup_insert_eq by (rewrite length_insert; lia). congruence.
      - rewrite !list_lookup_insert_ne by congruence. reflexivity. }
    destruct (set_index_lookup (objs h) pj (Z.of_nat i) rj Hrj)
      as (m1 & Hm1 & Hm1p & Hm1o & Hm1r).
    assert (m1 !! pi = Some ri) as Hri1 by (rewrite Hm1o; [exact Hri | exact Hpne]).
    destruct (set_index_lookup m1 pi (Z.of_nat j) ri Hri1)
      as (m2 & Hm2 & Hm2p & Hm2o & Hm2r).
    assert (s !! i = Some pj) as Hsi.
    { rewrite Hs. unfold transp. rewrite decide_True by reflexivity. exact Hpj. }
    assert (s !! j = Some pi) as Hsj.
    { rewrite Hs. unfold transp. rewrite decide_False by congruence.
      rewrite decide_True by reflexivity. exact Hpi. }
    exists (mkHeap s m2). unfold pq_Swap. rewrite Hpi, Hpj; simpl. fold s.
    rewrite Hsi; simpl. rewrite Hm1; simpl. rewrite Hsj; simpl. rewrite Hm2; simpl.
    split; [reflexivity|].
    assert (Helem : forall p, p ∈ s <-> p ∈ pq h).
    { intros p. rewrite !list_elem_of_lookup. split; intros [k Hk].
      - rewrite Hs in Hk. eauto.
      - exists (transp i j k). rewrite Hs. unfold transp.
        repeat case_decide; subst; congruence. }
    split; [|split; [|split; [exact Hs | intros; congruence]]].
    + (* wf *)
      intros k p Hk; simpl in *. rewrite Hs in Hk. unfold transp in Hk.
      repeat case_decide; subst.
      * assert (p = pj) by congruence. subst p.
        rewrite Hm2o by congruence. rewrite Hm1p. eexists; split; reflexivity.
      * assert (p = pi) by congruence. subst p.
        rewrite Hm2p. eexists; split; reflexivity.
      * assert (p <> pi) by (intros ->; eauto using NoDup_lookup).
        assert (p <> pj) by (intros ->; eauto using NoDup_lookup).
        rewrite Hm2o, Hm1o by assumption. apply Hwf, Hk.
    + split; simpl.
      * unfold s. rewrite !length_insert. reflexivity.
      * exact Helem.
      * eapply same_reqs_trans; eassumption.
      * intros p Hp.
        assert (p <> pi) by (intros ->; apply Hp; eapply list_elem_of_lookup_2; eauto).
        assert (p <> pj) by (intros ->; apply Hp; eapply list_elem_of_lookup_2; eauto).
        rewrite Hm2o, Hm1o by assumption. reflexivity.
Qed.

Lemma hstep_wt h h' k k' :
  hstep h h' -> pq h' !! k = pq h !! k' -> wt h' k = wt h k'.
Proof.
  intros Hs Hk. unfold wt, req_at. rewrite Hk.
  destruct (pq h !! k') as [p|]; simpl; [|reflexivity].
  destruct (hstep_reqs _ _ Hs p) as [Hw _].
  destruct (objs h' !! p), (objs h !! p); simpl in *; congruence.
Qed.


Lemma swap_wt h h' i j k :
  hstep h h' -> (forall k, pq h' !! k = pq h !! transp i j k) ->
  wt h' k = wt h (transp i j k).
Proof. intros Hs Hl. apply hstep_wt; [exact Hs | apply Hl]. Qed.

Lemma parent_spec k : 0 < k -> k = 2 * parent k + 1 \/ k = 2 * parent k + 2.
Proof.
  unfold parent. intros Hk.
  pose proof (Nat.div_mod_eq (k - 1) 2) as E.
  pose proof (Nat.mod_upper_bound (k - 1) 2) as B. lia.
Qed.

Lemma parent_0 : parent 0 = 0.
Proof. reflexivity. Qed.

Lemma parent_lt k : 0 < k -> parent k < k.
Proof. intros Hk. pose proof (parent_spec k Hk). lia. Qed.

Lemma parent_child c i : 0 < c -> parent c = i -> c = 2 * i + 1 \/ c = 2 * i + 2.
Proof. intros Hc <-. apply parent_spec, Hc. Qed.

Lemma parent_left i : parent (2 * i + 1) = i.
Proof.
  unfold parent. replace (2 * i + 1 - 1) with (i * 2) by lia.
  apply Nat.div_mul. lia.
Qed.

Lemma parent_right i : parent (2 * i + 2) = i.
Proof.
  unfold parent. replace (2 * i + 2 - 1) with (1 + i * 2) by lia.
  rewrite Nat.div_add by lia. reflexivity.
Qed.

(** The root of a max-heap carries the largest weight. *)
Lemma heapord_root h n : heapord h n -> forall k, k < n -> (wt h k <= wt h 0)%Z.
Proof.
  intros Hh k. induction k as [k IH] using lt_wf_ind. intros Hk.
  destruct (decide (k = 0)) as [->|Hk0]; [lia|].
  pose proof (parent_lt k ltac:(lia)) as Hp.
  specialize (IH (parent k) Hp ltac:(lia)).
  specialize (Hh k ltac:(lia)). unfold ord in Hh. lia.
Qed.

(** What [up h j] needs below [n]: order everywhere except at [j], whose
    children are in order with the parent of [j]. *)
Definition up_pre (h : pqheap) (n j : nat) : Prop :=
  (forall k, 0 < k < n -> k <> j -> ord h k) /\
  (0 < j -> forall c, 0 < c < n -> parent c = j -> (wt h c <= wt h (parent j))%Z).

Lemma up_loop_S fuel (h : pqheap) j :
  heap.up_loop (S fuel) h j =
  if parent j =? j then Some h
  else lt ← pq_Less h j (parent j);
       if negb lt then Some h
       else h ← pq_Swap h (parent j) j; heap.up_loop fuel h (parent j).
Proof. reflexivity. Qed.

Lemma up_loop_spec fuel : forall h j n,
  wf h -> j <= fuel -> j < n -> n <= length (pq h) -> up_pre h n j ->
  exists h', heap.up_loop fuel h j = Some h' /\ wf h' /\ hstep h h' /\
             heapord h' n /\ (forall k, n <= k -> pq h' !! k = pq h !! k).
Proof.
  induction fuel as [|fuel IH]; intros h j n Hwf Hjf Hjn Hn [U1 U2].
  - assert (j = 0) by lia. subst j. exists h. simpl.
    split_conj; auto using hstep_refl.
    intros k Hk. apply U1; lia.
  - rewrite up_loop_S.
    destruct (Nat.eqb_spec (parent j) j) as [Heq|Hneq].
    { exists h. split_conj; auto using hstep_refl.
      intros k Hk. apply U1; [lia|]. intros ->.
      pose proof (parent_lt j ltac:(lia)). lia. }
    assert (0 < j) as Hj0 by (destruct j; [exfalso; apply Hneq; reflexivity | lia]).
    pose proof (parent_lt j Hj0) as Hpj.
    rewrite pq_Less_spec by (assumption || lia). simpl.
    destruct (wt h (parent j) <? wt h j)%Z eqn:Hlt; simpl.
    2:{ apply Z.ltb_ge in Hlt. exists h. split_conj; auto using hstep_refl.
        intros k Hk. destruct (decide (k = j)) as [->|Hkj]; [exact Hlt|].
        apply U1; assumption. }
    apply Z.ltb_lt in Hlt.
    destruct (pq_Swap_spec h (parent j) j Hwf ltac:(lia) ltac:(lia))
      as (h1 & HS & Hwf1 & Hst1 & Hl1 & _).
    rewrite HS; simpl.
    pose proof (hstep_len _ _ Hst1) as Hlen1.
    assert (W : forall k, wt h1 k = wt h (transp (parent j) j k))
      by (intros k; eapply swap_wt; eauto).
    destruct (IH h1 (parent j) n Hwf1 ltac:(lia) ltac:(lia) ltac:(lia))
      as (h' & Hup & Hwf' & Hst' & Hord' & Hhi').
    { split.
      - intros k Hk Hki. unfold ord. rewrite !W. unfold transp.
        pose proof (parent_lt k ltac:(lia)) as Hpk.
        repeat case_decide; try lia;
          try (pose proof (U1 k Hk ltac:(congruence)) as Hu1; unfold ord in Hu1);
          try (pose proof (U2 Hj0 k Hk ltac:(congruence)) as Hu2);
          repeat match goal with
                 | H : parent _ = _ |- _ => rewrite ?H in *; clear H
                 | H : _ = parent _ |- _ => rewrite <- ?H in *; clear H
                 end; subst; lia.
      - intros Hi0 c Hc Hpc. rewrite !W. unfold transp.
        pose proof (parent_lt (parent j) Hi0) as Hpp.
        pose proof (U1 (parent j) ltac:(lia) ltac:(lia)) as Hu. unfold ord in Hu.
        pose proof (parent_lt c ltac:(lia)) as Hpc'.
        repeat case_decide; try lia;
          try (pose proof (U1 c Hc ltac:(congruence)) as Hu'; unfold ord in Hu';
               rewrite Hpc in Hu');
          subst; lia. }
    exists h'. split; [exact Hup|]. split; [exact Hwf'|].
    split; [eapply hstep_trans; eassumption|]. split; [exact Hord'|].
    intros k Hk. rewrite Hhi' by exact Hk. rewrite Hl1. unfold transp.
    repeat case_decide; subst; try lia; reflexivity.
Qed.

(** [up_loop] stops before its fuel runs out: more fuel changes nothing. *)
Lemma up_loop_fuel fuel : forall fuel' (h : pqheap) j,
  j <= fuel -> j <= fuel' -> heap.up_loop fuel h j = heap.up_loop fuel' h j.
Proof.
  induction fuel as [|fuel IH]; intros [|fuel'] h j H1 H2; try reflexivity.
  - assert (j = 0) by lia. subst. reflexivity.
  - assert (j = 0) by lia. subst. reflexivity.
  - rewrite !up_loop_S. destruct (Nat.eqb_spec (parent j) j); [reflexivity|].
    assert (0 < j) by (destruct j; [exfalso; auto | lia]).
    pose proof (parent_lt j ltac:(lia)).
    destruct (pq_Less h j (parent j)) as [[|]|]; simpl; try reflexivity.
    destruct (pq_Swap h (parent j) j); simpl; [|reflexivity].
    apply IH; lia.
Qed.

(** What [down h i n] needs below [n]: order on every edge that does not
    touch [i], and the children of [i] in order with the parent of [i]. *)
Definition down_pre (h : pqheap) (n i : nat) : Prop :=
  (forall k, 0 < k < n -> k <> i -> parent k <> i -> ord h k) /\
  (0 < i -> forall c, 0 < c < n -> parent c = i -> (wt h c <= wt h (parent i))%Z).

Lemma down_loop_S fuel (h : pqheap) i n :
  heap.down_loop (S fuel) h i n =
  if n <=? 2 * i + 1 then Some (h, i)
  else
    lt21 ← (if 2 * i + 1 + 1 <? n then pq_Less h (2 * i + 1 + 1) (2 * i + 1)
            else Some false);
    let j := if (lt21 : bool) then 2 * i + 1 + 1 else 2 * i + 1 in
    lt ← pq_Less h j i;
    if negb lt then Some (h, i)
    else h ← pq_Swap h i j; heap.down_loop fuel h j n.
Proof. reflexivity. Qed.

Lemma bind_Some {A B} (x : A) (f : A -> option B) : Some x ≫= f = f x.
Proof. reflexivity. Qed.

(** The larger child, as chosen by [down]. *)
Lemma down_child h i n :
  wf h -> n <= length (pq h) -> 2 * i + 1 < n ->
  exists b : bool,
    (if 2 * i + 1 + 1 <? n then pq_Less h (2 * i + 1 + 1) (2 * i + 1) else Some false)
      = Some b /\
    let j := if b then 2 * i + 1 + 1 else 2 * i + 1 in
    j < n /\ parent j = i /\ i < j /\
    (forall c, 0 < c < n -> parent c = i -> (wt h c <= wt h j)%Z).
Proof.
  intros Hwf Hn Hj1.
  assert (Hch : forall c, 0 < c -> parent c = i -> c = 2 * i + 1 \/ c = 2 * i + 1 + 1).
  { intros c Hc Hp. destruct (parent_child c i Hc Hp); lia. }
  destruct (Nat.ltb_spec (2 * i + 1 + 1) n) as [Hj2|Hj2].
  - rewrite pq_Less_spec by (assumption || lia).
    eexists; split; [reflexivity|].
    destruct (wt h (2 * i + 1) <? wt h (2 * i + 1 + 1))%Z eqn:E; cbv zeta.
    + apply Z.ltb_lt in E. split_conj; [lia | | lia |].
      * replace (2 * i + 1 + 1) with (2 * i + 2) by lia. apply parent_right.
      * intros c Hc Hp. destruct (Hch c ltac:(lia) Hp) as [->| ->]; lia.
    + apply Z.ltb_ge in E. split_conj; [lia | apply parent_left | lia |].
      intros c Hc Hp. destruct (Hch c ltac:(lia) Hp) as [->| ->]; lia.
  - exists false. split; [reflexivity|]. cbv zeta.
    split_conj; [lia | apply parent_left | lia |].
    intros c Hc Hp. destruct (Hch c ltac:(lia) Hp) as [->| ->]; lia.
Qed.

Lemma down_loop_spec fuel : forall h i n,
  wf h -> n - i <= fuel -> n <= length (pq h) -> down_pre h n i ->
  exists h' i', heap.down_loop fuel h i n = Some (h', i') /\ wf h' /\ hstep h h' /\
    i <= i' /\
    (forall k, 0 < k < n -> k <> i -> ord h' k) /\
    (i < i' -> 0 < i -> ord h' i) /\
    (i' = i -> h' = h) /\
    (forall k, n <= k -> pq h' !! k = pq h !! k).
Proof.
  induction fuel as [|fuel IH]; intros h i n Hwf Hf Hn [D1 D2].
  - exists h, i. simpl. split_conj; auto using hstep_refl; try lia.
    intros k Hk Hki. pose proof (parent_lt k ltac:(lia)). apply D1; lia.
  - rewrite down_loop_S. destruct (Nat.leb_spec n (2 * i + 1)) as [Hj1|Hj1].
    { exists h, i. split_conj; auto using hstep_refl; try lia.
      intros k Hk Hki. apply D1; [lia | lia |]. intros Hp.
      destruct (parent_child k i ltac:(lia) Hp); lia. }
    destruct (down_child h i n Hwf Hn Hj1) as (b & Hb & Hj).
    rewrite Hb, bind_Some. cbv zeta in Hj. cbv beta zeta.
    set (j := if b then 2 * i + 1 + 1 else 2 * i + 1) in *.
    destruct Hj as (Hjn & Hpj & Hij & Hch).
    rewrite pq_Less_spec by (assumption || lia). rewrite bind_Some.
    destruct (wt h i <? wt h j)%Z eqn:Hlt; cbn [negb].
    2:{ apply Z.ltb_ge in Hlt. exists h, i.
        split_conj; auto using hstep_refl; try lia.
        intros k Hk Hki. destruct (decide (parent k = i)) as [Hp|Hp].
        - unfold ord. rewrite Hp. specialize (Hch k Hk Hp). lia.
        - apply D1; assumption. }
    apply Z.ltb_lt in Hlt.
    destruct (pq_Swap_spec h i j Hwf ltac:(lia) ltac:(lia))
      as (h1 & HS & Hwf1 & Hst1 & Hl1 & _).
    rewrite HS, bind_Some.
    pose proof (hstep_len _ _ Hst1) as Hlen1.
    assert (W : forall k, wt h1 k = wt h (transp i j k))
      by (intros k; eapply swap_wt; eauto).
    destruct (IH h1 j n Hwf1 ltac:(lia) ltac:(lia))
      as (h' & i' & Hdown & Hwf' & Hst' & Hle' & Hord' & Hmoved' & Hsame' & Hhi').
    { split.
      - intros k Hk Hkj Hpkj. unfold ord. rewrite !W. unfold transp.
        pose proof (parent_lt k ltac:(lia)) as Hpk.
        repeat case_decide; try lia; try congruence.
        + (* [k = i] *) subst k. apply D2; [lia | lia | exact Hpj].
        + (* a sibling of [j] *)
          match goal with H : parent k = i |- _ => apply (Hch k Hk H) end.
        + apply D1; assumption.
      - intros Hj0 c Hc Hpc. rewrite !W. unfold transp. rewrite Hpj.
        pose proof (parent_lt c ltac:(lia)) as Hpc'.
        pose proof (D1 c Hc ltac:(lia) ltac:(lia)) as Hu. unfold ord in Hu.
        rewrite Hpc in Hu.
        repeat case_decide; try lia. }
    exists h', i'. split; [exact Hdown|]. split; [exact Hwf'|].
    split; [eapply hstep_trans; eassumption|]. split; [lia|].
    split_conj.
    + intros k Hk Hki. destruct (decide (k = j)) as [->|Hkj]; [|apply Hord'; assumption].
      destruct (decide (j < i')) as [Hlt'|Hge']; [apply Hmoved'; lia|].
      rewrite (Hsame' ltac:(lia)). unfold ord. rewrite !W, Hpj. unfold transp.
      repeat case_decide; try lia.
    + intros _ Hi0. apply Hord'; lia.
    + intros ->. lia.
    + intros k Hk. rewrite Hhi' by exact Hk. rewrite Hl1. unfold transp.
      repeat case_decide; try lia; reflexivity.
Qed.

(** [down_loop] stops before its fuel runs out as well. *)
Lemma down_loop_fuel fuel : forall fuel' (h : pqheap) i n,
  n - i <= fuel -> n - i <= fuel' ->
  heap.down_loop fuel h i n = heap.down_loop fuel' h i n.
Proof.
  induction fuel as [|fuel IH]; intros [|fuel'] h i n H1 H2; try reflexivity.
  - rewrite down_loop_S. destruct (Nat.leb_spec n (2 * i + 1)); [reflexivity | lia].
  - rewrite down_loop_S. destruct (Nat.leb_spec n (2 * i + 1)); [reflexivity | lia].
  - rewrite !down_loop_S. destruct (Nat.leb_spec n (2 * i + 1)); [reflexivity|].
    destruct (if 2 * i + 1 + 1 <? n then _ else _) as [b|]; [|reflexivity].
    rewrite !bind_Some. cbv beta zeta.
    destruct (pq_Less h _ i) as [[|]|]; simpl; try reflexivity.
    destruct (pq_Swap h i _); simpl; [|reflexivity].
    apply IH; destruct b; lia.
Qed.

Lemma down_spec h i n :
  wf h -> n <= length (pq h) -> down_pre h n i ->
  exists h' moved, heap.down h i n = Some (h', moved) /\ wf h' /\ hstep h h' /\
    (forall k, 0 < k < n -> k <> i -> ord h' k) /\
    (moved = true -> 0 < i -> ord h' i) /\
    (moved = false -> h' = h) /\
    (forall k, n <= k -> pq h' !! k = pq h !! k).
Proof.
  intros Hwf Hn Hpre.
  destruct (down_loop_spec (n - i) h i n Hwf ltac:(lia) Hn Hpre)
    as (h' & i' & Hd & Hwf' & Hst & Hle & Hord & Hmoved & Hsame & Hhi).
  exists h', (i <? i'). unfold heap.down. rewrite Hd; simpl.
  split_conj; auto.
  - intros Hm. apply Nat.ltb_lt in Hm. auto.
  - intros Hm. apply Nat.ltb_ge in Hm. apply Hsame. lia.
Qed.

Lemma up_spec h j n :
  wf h -> j < n -> n <= length (pq h) -> up_pre h n j ->
  exists h', heap.up h j = Some h' /\ wf h' /\ hstep h h' /\
             heapord h' n /\ (forall k, n <= k -> pq h' !! k = pq h !! k).
Proof. intros. apply up_loop_spec; auto. Qed.

Lemma wt_same h h' k k' :
  same_reqs (objs h) (objs h') -> pq h' !! k = pq h !! k' -> wt h' k = wt h k'.
Proof.
  intros Hs Hk. unfold wt, req_at. rewrite Hk.
  destruct (pq h !! k') as [p|]; simpl; [|reflexivity].
  destruct (Hs p) as [Hw _].
  destruct (objs h' !! p), (objs h !! p); simpl in *; congruence.
Qed.

(** The outcome of taking request [x] out of the queue [h]. *)
Record popped (h h' : pqheap) (x : nat) : Prop := mk_popped {
  popped_wf : wf h';
  popped_ord : heapord h' (length (pq h'));
  popped_len : S (length (pq h')) = length (pq h);
  popped_elem : forall p, p ∈ pq h <-> p = x \/ p ∈ pq h';
  popped_out : x ∉ pq h';
  popped_reqs : same_reqs (objs h) (objs h');
  popped_off : forall p, p ∉ pq h -> objs h' !! p = objs h !! p;
  popped_index : exists r, objs h' !! x = Some r /\ index r = (-1)%Z
}.

Lemma popped_hstep h h1 h' x : hstep h h1 -> popped h1 h' x -> popped h h' x.
Proof.
  intros [L E R O] [Pw Po Pl Pe Pout Pr Poff Pi]. split; auto.
  - congruence.
  - intros p. rewrite <- Pe. symmetry. apply E.
  - eapply same_reqs_trans; eauto.
  - intros p Hp. rewrite Poff, O; auto. rewrite E. exact Hp.
Qed.

Lemma list_last_snoc {A} (l : list A) m x :
  length l = S m -> l !! m = Some x -> l = take m l ++ [x].
Proof.
  intros Hl Hx. rewrite <- (take_drop_middle l m x Hx) at 1. f_equal.
  rewrite (drop_ge l (S m)) by lia. reflexivity.
Qed.

(** [h.Pop()] on a queue whose first [m] positions are a heap and whose
    last position holds [x]. *)
Lemma pq_Pop_spec h m x :
  wf h -> length (pq h) = S m -> pq h !! m = Some x -> heapord h m ->
  exists h', pq_Pop h = Some (h', x) /\ popped h h' x.
Proof.
  intros Hwf Hl Hx Hord.
  destruct (Hwf _ _ Hx) as (r & Hr & Hi).
  destruct (set_index_lookup (objs h) x (-1)%Z r Hr) as (m' & Hm & Hmx & Hmo & Hmr).
  pose proof (wf_NoDup h Hwf) as Hnd.
  pose proof (list_last_snoc _ _ _ Hl Hx) as Hsnoc.
  rewrite Hsnoc in Hnd. apply list.NoDup_app in Hnd as (Hnd1 & Hnd2 & _).
  assert (x ∉ take m (pq h)) as Hout.
  { intros Hin. apply (Hnd2 x Hin). apply list_elem_of_singleton. reflexivity. }
  exists (mkHeap (take m (pq h)) m'). unfold pq_Pop. rewrite Hl.
  replace (S m - 1) with m by lia. simpl. rewrite Hx; simpl. rewrite Hm; simpl.
  split; [reflexivity|].
  assert (Hwt : forall k, k < m -> wt (mkHeap (take m (pq h)) m') k = wt h k).
  { intros k Hk. apply wt_same; [exact Hmr|]. simpl. apply lookup_take_lt, Hk. }
  split; simpl.
  - intros k p Hk. apply lookup_take_Some in Hk as [Hk Hkm].
    rewrite Hmo; [apply Hwf, Hk|]. intros ->. apply Hout.
    apply elem_of_take. eauto.
  - rewrite length_take_le by lia. intros k Hk. unfold ord.
    pose proof (parent_lt k ltac:(lia)).
    rewrite !Hwt by lia. apply Hord, Hk.
  - rewrite length_take_le by lia. lia.
  - intros p. rewrite Hsnoc at 1. rewrite elem_of_app, list_elem_of_singleton. tauto.
  - exact Hout.
  - exact Hmr.
  - intros p Hp. apply Hmo. intros ->. apply Hp. eapply list_elem_of_lookup_2, Hx.
  - eexists. split; [exact Hmx | reflexivity].
Qed.

Lemma heapord_le h n n' : heapord h n -> n' <= n -> heapord h n'.
Proof. intros H Hle k Hk. apply H. lia. Qed.

(** [heap.Pop] returns the root and leaves a heap. *)
Lemma HPop_spec h :
  wf h -> heapord h (length (pq h)) -> 0 < length (pq h) ->
  exists h' x, heap.HPop h = Some (h', x) /\ pq h !! 0 = Some x /\ popped h h' x.
Proof.
  intros Hwf Hord Hlen.
  destruct (lookup_lt_is_Some_2 (pq h) 0 Hlen) as [x Hx].
  unfold heap.HPop. change (heap.Len h) with (length (pq h)).
  destruct (Nat.eqb_spec (length (pq h)) 0) as [|_]; [lia|].
  set (m := length (pq h) - 1).
  change (heap.Swap h 0 m) with (pq_Swap h 0 m).
  destruct (pq_Swap_spec h 0 m Hwf ltac:(lia) ltac:(lia))
    as (h1 & HS & Hwf1 & Hst1 & Hl1 & _).
  rewrite HS, bind_Some.
  pose proof (hstep_len _ _ Hst1) as Hlen1.
  assert (W : forall k, wt h1 k = wt h (transp 0 m k))
    by (intros k; eapply swap_wt; eauto).
  destruct (down_spec h1 0 m Hwf1 ltac:(lia)) as (h2 & mv & Hd & Hwf2 & Hst2 & Ho2 & _ & _ & Hhi2).
  { split; [|lia]. intros k Hk Hk0 Hpk. unfold ord. rewrite !W. unfold transp.
    pose proof (parent_lt k ltac:(lia)).
    repeat case_decide; try lia. apply Hord. lia. }
  rewrite Hd, bind_Some.
  assert (pq h2 !! m = Some x) as Hx2.
  { rewrite Hhi2, Hl1 by lia. unfold transp.
    repeat case_decide; try lia; congruence. }
  pose proof (hstep_len _ _ Hst2) as Hlen2.
  destruct (pq_Pop_spec h2 m x Hwf2 ltac:(lia) Hx2) as (h' & HP & Hpop).
  { intros k Hk. apply Ho2; lia. }
  exists h', x. split; [exact HP|]. split; [exact Hx|].
  eapply popped_hstep; [|exact Hpop]. eapply hstep_trans; eassumption.
Qed.

(** [heap.Remove] takes out the request at position [i] and leaves a heap. *)
Lemma Remove_spec h i :
  wf h -> heapord h (length (pq h)) -> i < length (pq h) ->
  exists h' x, heap.Remove h i = Some (h', x) /\ pq h !! i = Some x /\ popped h h' x.
Proof.
  intros Hwf Hord Hi.
  destruct (lookup_lt_is_Some_2 (pq h) i Hi) as [x Hx].
  unfold heap.Remove. change (heap.Len h) with (length (pq h)).
  destruct (Nat.eqb_spec (length (pq h)) 0) as [|_]; [lia|].
  set (m := length (pq h) - 1).
  destruct (Nat.eqb_spec m i) as [Hmi|Hmi].
  { rewrite bind_Some. subst i.
    destruct (pq_Pop_spec h m x Hwf ltac:(lia) Hx) as (h' & HP & Hpop).
    { eapply heapord_le; [exact Hord | lia]. }
    exists h', x. auto. }
  change (heap.Swap h i m) with (pq_Swap h i m).
  destruct (pq_Swap_spec h i m Hwf ltac:(lia) ltac:(lia))
    as (h1 & HS & Hwf1 & Hst1 & Hl1 & _).
  rewrite HS, bind_Some.
  pose proof (hstep_len _ _ Hst1) as Hlen1.
  assert (W : forall k, wt h1 k = wt h (transp i m k))
    by (intros k; eapply swap_wt; eauto).
  assert (Hgrand : 0 < i -> forall c, 0 < c < m -> parent c = i ->
                   (wt h1 c <= wt h1 (parent i))%Z).
  { intros Hi0 c Hc Hpc. rewrite !W. unfold transp.
    pose proof (parent_lt c ltac:(lia)). pose proof (parent_lt i Hi0).
    pose proof (Hord c ltac:(lia)) as H1. pose proof (Hord i ltac:(lia)) as H2.
    unfold ord in H1, H2. rewrite Hpc in H1.
    repeat case_decide; try lia. }
  destruct (down_spec h1 i m Hwf1 ltac:(lia))
    as (h2 & mv & Hd & Hwf2 & Hst2 & Ho2 & Hmv2 & Hnmv2 & Hhi2).
  { split; [|exact Hgrand]. intros k Hk Hki Hpk. unfold ord. rewrite !W. unfold transp.
    pose proof (parent_lt k ltac:(lia)).
    repeat case_decide; try lia. apply Hord. lia. }
  rewrite Hd, bind_Some.
  pose proof (hstep_len _ _ Hst2) as Hlen2.
  assert (exists h3, (if negb mv then heap.up h2 i else Some h2) = Some h3 /\
                     wf h3 /\ hstep h h3 /\ heapord h3 m /\ pq h3 !! m = Some x)
    as (h3 & Hup & Hwf3 & Hst3 & Hord3 & Hx3).
  { assert (pq h2 !! m = Some x) as Hx2.
    { rewrite Hhi2, Hl1 by lia. unfold transp.
      repeat case_decide; try lia; congruence. }
    destruct mv; simpl.
    - exists h2. split_conj; auto.
      + eapply hstep_trans; eassumption.
      + intros k Hk. destruct (decide (k = i)) as [->|Hki];
          [apply Hmv2; [reflexivity | lia] | apply Ho2; assumption].
    - specialize (Hnmv2 eq_refl). subst h2.
      destruct (up_spec h1 i m Hwf1 ltac:(lia) ltac:(lia))
        as (h3 & Hup & Hwf3 & Hst3 & Hord3 & Hhi3).
      { split; [exact Ho2 | exact Hgrand]. }
      exists h3. split_conj; auto.
      + eapply hstep_trans; eassumption.
      + rewrite Hhi3 by lia. exact Hx2. }
  rewrite Hup, bind_Some.
  pose proof (hstep_len _ _ Hst3) as Hlen3.
  destruct (pq_Pop_spec h3 m x Hwf3 ltac:(lia) Hx3 Hord3) as (h' & HP & Hpop).
  exists h', x. split; [exact HP|]. split; [exact Hx|].
  eapply popped_hstep; eassumption.
Qed.

(** The outcome of adding request [x] to the queue [h]. *)
Record pushed (h h' : pqheap) (x : nat) : Prop := mk_pushed {
  pushed_wf : wf h';
  pushed_ord : heapord h' (length (pq h'));
  pushed_len : length (pq h') = S (length (pq h));
  pushed_elem : forall p, p ∈ pq h' <-> p = x \/ p ∈ pq h;
  pushed_reqs : same_reqs (objs h) (objs h');
  pushed_off : forall p, p ∉ pq h -> p <> x -> objs h' !! p = objs h !! p
}.

(** [heap.Push] of a request that is not in the queue. *)
Lemma HPush_spec h x :
  wf h -> heapord h (length (pq h)) -> x < length (objs h) -> x ∉ pq h ->
  exists h', heap.HPush h x = Some h' /\ pushed h h' x.
Proof.
  intros Hwf Hord Hx Hout.
  destruct (lookup_lt_is_Some_2 _ _ Hx) as [r Hr].
  set (n := length (pq h)).
  destruct (set_index_lookup (objs h) x (Z.of_nat n) r Hr) as (m1 & Hm & Hmx & Hmo & Hmr).
  set (h1 := mkHeap (pq h ++ [x]) m1).
  assert (heap.Push h x = Some h1) as HP.
  { change (heap.Push h x) with (pq_Push h x). unfold pq_Push. fold n.
    rewrite Hm. reflexivity. }
  unfold heap.HPush. rewrite HP, bind_Some.
  change (heap.Len h1) with (length (pq h1)).
  assert (length (pq h1) = S n) as Hlen1 by (simpl; rewrite length_app; simpl; lia).
  rewrite Hlen1. replace (S n - 1) with n by lia.
  assert (wf h1) as Hwf1.
  { intros k p Hk. simpl in *. apply lookup_snoc_Some in Hk as [[Hk1 Hk2]|[Hk1 Hk2]].
    - rewrite Hmo; [apply Hwf, Hk2|]. intros ->. apply Hout.
      eapply list_elem_of_lookup_2, Hk2.
    - subst p k. rewrite Hmx. eexists; split; reflexivity. }
  assert (Hwt : forall k, k < n -> wt h1 k = wt h k).
  { intros k Hk. apply wt_same; [exact Hmr|]. simpl. apply lookup_app_l, Hk. }
  destruct (up_spec h1 n (S n) Hwf1 ltac:(lia) ltac:(lia))
    as (h' & Hup & Hwf' & Hst' & Hord' & _).
  { split.
    - intros k Hk Hkn. unfold ord. pose proof (parent_lt k ltac:(lia)).
      rewrite !Hwt by lia. apply Hord. lia.
    - intros Hn0 c Hc Hpc. destruct (parent_child c n ltac:(lia) Hpc); lia. }
  exists h'. split; [exact Hup|]. destruct Hst' as [L E R O]. split; auto.
  - rewrite L, Hlen1. exact Hord'.
  - rewrite L. exact Hlen1.
  - intros p. rewrite E. simpl. rewrite elem_of_app, list_elem_of_singleton. tauto.
  - eapply same_reqs_trans; eassumption.
  - intros p Hp Hpx. rewrite O.
    + apply Hmo, Hpx.
    + simpl. rewrite elem_of_app, list_elem_of_singleton. tauto.
Qed.

End heap_proofs.

(** *** The semaphore: invariant of the state guarded by [mu] *)

Section semaphore_proofs.

(** State and weight of the request at address [p]. *)
Definition st (s : Prioritized) (p : nat) : option reqState :=
  state <$> objs (queue s) !! p.
Definition wg (s : Prioritized) (p : nat) : option Z :=
  weight <$> objs (queue s) !! p.

Record sem_inv (s : Prioritized) : Prop := mk_sem_inv {
  inv_wf : wf (queue s);
  inv_ord : heapord (queue s) (length (pq (queue s)));
  (* a request in the queue was not handed a slot *)
  inv_queued : forall p, p ∈ pq (queue s) -> st s p <> Some stateAcquired;
  (* a request outside the queue has index -1 *)
  inv_off : forall p r, objs (queue s) !! p = Some r -> p ∉ pq (queue s) ->
                        index r = (-1)%Z;
  (* a waiting request is in the queue *)
  inv_waiting : forall p, st s p = Some stateWaiting -> p ∈ pq (queue s)
}.

Lemma heapord_same h h' n :
  same_reqs (objs h) (objs h') -> pq h' = pq h -> heapord h n -> heapord h' n.
Proof.
  intros Hs Hpq Hord k Hk. unfold ord.
  rewrite !(wt_same h h' _ _ Hs) by (rewrite Hpq; reflexivity). apply Hord, Hk.
Qed.

Lemma set_state_lookup m p s r :
  m !! p = Some r ->
  exists m', set_state m p s = Some m' /\
    m' !! p = Some (mkRequest (weight r) (index r) s) /\
    (forall q, q <> p -> m' !! q = m !! q) /\
    (forall q, weight <$> m' !! q = weight <$> m !! q) /\
    (forall q, index <$> m' !! q = index <$> m !! q).
Proof.
  intros Hr. unfold set_state. rewrite Hr; simpl. eexists; split; [reflexivity|].
  pose proof (lookup_lt_Some _ _ _ Hr) as Hlt.
  split; [apply list_lookup_insert_eq, Hlt|].
  split; [intros q Hq; apply list_lookup_insert_ne; congruence|].
  split; intros q; (destruct (decide (q = p)) as [->|Hq];
    [rewrite list_lookup_insert_eq, Hr by exact Hlt; reflexivity
    |rewrite list_lookup_insert_ne by congruence; reflexivity]).
Qed.

(** [CompareAndSwap] on an allocated request. *)
Lemma CompareAndSwap_spec m p old new r :
  m !! p = Some r ->
  (state r = old /\
   exists m', CompareAndSwap m p old new = Some (m', true) /\
     m' !! p = Some (mkRequest (weight r) (index r) new) /\
     (forall q, q <> p -> m' !! q = m !! q) /\
     (forall q, weight <$> m' !! q = weight <$> m !! q) /\
     (forall q, index <$> m' !! q = index <$> m !! q)) \/
  (state r <> old /\ CompareAndSwap m p old new = Some (m, false)).
Proof.
  intros Hr. unfold CompareAndSwap. rewrite Hr; simpl.
  destruct (decide (state r = old)) as [He|Hne]; [left | right; auto].
  split; [exact He|].
  destruct (set_state_lookup m p new r Hr) as (m' & Hm & H1 & H2 & H3 & H4).
  exists m'. rewrite Hm. simpl. auto.
Qed.

(** Changing the state of a request outside the queue keeps the heap. *)
Lemma wf_state_off h m' x :
  wf h -> x ∉ pq h -> (forall q, q <> x -> m' !! q = objs h !! q) ->
  wf (mkHeap (pq h) m').
Proof.
  intros Hwf Hout Ho k p Hk. simpl in *. rewrite Ho; [apply Hwf, Hk|].
  intros ->. apply Hout. eapply list_elem_of_lookup_2, Hk.
Qed.

Lemma heapord_weights h m' n :
  (forall q, weight <$> m' !! q = weight <$> objs h !! q) ->
  heapord h n -> heapord (mkHeap (pq h) m') n.
Proof.
  intros Hw Hord k Hk. unfold ord.
  assert (E : forall k, wt (mkHeap (pq h) m') k = wt h k).
  { intros k'. unfold wt, req_at. simpl. destruct (pq h !! k') as [p|]; simpl; [|reflexivity].
    specialize (Hw p). destruct (m' !! p), (objs h !! p); simpl in *; congruence. }
  rewrite !E. apply Hord, Hk.
Qed.

(** What [privateRelease] does to a state [s], giving [s'] and the request
    [g] that was handed the slot, if any. *)
Definition released (s s' : Prioritized) (g : option nat) : Prop :=
  capacity s' = capacity s /\
  (forall p, wg s' p = wg s p) /\
  (forall p, p ∈ pq (queue s') -> p ∈ pq (queue s)) /\
  (* only the request served and requests that are not waiting leave the queue *)
  (forall p, p ∈ pq (queue s) ->
     p ∈ pq (queue s') \/ g = Some p \/ st s p <> Some stateWaiting) /\
  match g with
  | Some q =>
      used s' = used s /\ q ∈ pq (queue s) /\ (q ∉ pq (queue s')) /\
      st s q = Some stateWaiting /\ st s' q = Some stateAcquired /\
      (forall p, p <> q -> st s' p = st s p) /\
      (forall p w wq, p ∈ pq (queue s) -> st s p = Some stateWaiting ->
                      wg s p = Some w -> wg s q = Some wq -> (w <= wq)%Z)
  | None =>
      used s' = (used s - 1)%Z /\
      (forall p, st s' p = st s p) /\
      (forall p, p ∈ pq (queue s) -> st s p <> Some stateWaiting)
  end.

Lemma root_max h x p w wx :
  wf h -> heapord h (length (pq h)) -> pq h !! 0%nat = Some x -> p ∈ pq h ->
  weight <$> objs h !! p = Some w -> weight <$> objs h !! x = Some wx -> (w <= wx)%Z.
Proof.
  intros Hwf Hord Hx Hp Hw Hwx.
  apply list_elem_of_lookup in Hp as [k Hk].
  pose proof (heapord_root h _ Hord k (lookup_lt_Some _ _ _ Hk)) as Hle.
  destruct (objs h !! p) as [r|] eqn:Hr; [|discriminate].
  destruct (objs h !! x) as [rx|] eqn:Hrx; [|discriminate].
  rewrite (wt_lookup _ _ _ _ Hk Hr), (wt_lookup _ _ _ _ Hx Hrx) in Hle.
  simpl in Hw, Hwx. congruence.
Qed.

Lemma privateRelease_loop_spec fuel : forall s,
  sem_inv s -> (length (pq (queue s)) <= fuel)%nat ->
  exists s' g, privateRelease_loop fuel s = Some (s', g) /\ sem_inv s' /\ released s s' g.
Proof.
  induction fuel as [|fuel IH]; intros s Hinv Hf.
  - assert (pq (queue s) = []) as Hnil by (apply length_zero_iff_nil; lia).
    eexists _, None. split; [reflexivity|]. split.
    + destruct Hinv. split; auto.
    + unfold released. split_conj; auto; simpl; intros p Hp; rewrite Hnil in Hp;
        apply not_elem_of_nil in Hp; contradiction.
  - simpl. unfold pq_Len. destruct (Nat.ltb_spec 0 (length (pq (queue s)))) as [Hpos|Hz].
    2:{ assert (pq (queue s) = []) as Hnil by (apply length_zero_iff_nil; lia).
        eexists _, None. split; [reflexivity|]. split.
        + destruct Hinv. split; auto.
        + unfold released. split_conj; auto; simpl; intros p Hp; rewrite Hnil in Hp;
            apply not_elem_of_nil in Hp; contradiction. }
    destruct Hinv as [Hwf Hord Hq Hoff Hwait].
    destruct (HPop_spec (queue s) Hwf Hord Hpos) as (h' & x & HP & Hx & Hpop).
    rewrite HP, bind_Some. cbv beta iota.
    destruct Hpop as [Pw Po Pl Pe Pout Pr Poff [r' [Hr' Hi']]].
    assert (Hst : forall p, state <$> objs h' !! p = st s p) by (intros p; apply Pr).
    assert (Hwg : forall p, weight <$> objs h' !! p = wg s p) by (intros p; apply Pr).
    assert (x ∈ pq (queue s)) as Hxin by (apply Pe; auto).
    destruct (CompareAndSwap_spec (objs h') x stateWaiting stateAcquired r' Hr')
      as [(Hsw & m' & HC & Hmx & Hmo & Hmw & Hmi)|(Hsw & HC)];
      rewrite HC, bind_Some; cbv beta iota.
    + (* the request was waiting: it gets the slot *)
      eexists _, (Some x). split; [reflexivity|]. split.
      * split; simpl.
        -- eapply wf_state_off; eauto.
        -- apply heapord_weights; assumption.
        -- intros p Hp. unfold st; simpl.
           rewrite Hmo by (intros ->; contradiction). rewrite Hst.
           apply Hq, Pe. auto.
        -- intros p r Hr Hp. destruct (decide (p = x)) as [->|Hpx].
           ++ rewrite Hmx in Hr. injection Hr as <-. exact Hi'.
           ++ rewrite Hmo in Hr by exact Hpx.
              assert (p ∉ pq (queue s)) as Hp' by (rewrite Pe; tauto).
              rewrite Poff in Hr by exact Hp'. eapply Hoff; eauto.
        -- intros p Hp. unfold st in Hp; simpl in Hp.
           destruct (decide (p = x)) as [->|Hpx].
           ++ rewrite Hmx in Hp. discriminate.
           ++ rewrite Hmo, Hst in Hp by exact Hpx.
              apply Hwait, Pe in Hp as [->|Hp]; [contradiction | exact Hp].
      * unfold released; simpl. split_conj; auto.
        -- intros p. unfold wg at 1; simpl. rewrite Hmw. apply Hwg.
        -- intros p Hp. apply Pe. auto.
        -- intros p Hp. apply Pe in Hp as [->|Hp]; auto.
        -- rewrite <- Hst, Hr'. simpl. congruence.
        -- unfold st; simpl. rewrite Hmx. reflexivity.
        -- intros p Hp. unfold st at 1; simpl. rewrite Hmo by exact Hp. apply Hst.
        -- intros p w wq Hp _ Hw Hwq. eapply (root_max (queue s)); eauto.
    + (* the request was canceled: try the next one *)
      set (s1 := mkPrioritized (capacity s) (used s) (mkHeap (pq h') (objs h'))).
      assert (sem_inv s1) as Hinv1.
      { split; simpl.
        - destruct h'; exact Pw.
        - destruct h'; exact Po.
        - intros p Hp. unfold st; simpl. rewrite Hst. apply Hq, Pe. auto.
        - intros p r Hr Hp. destruct (decide (p = x)) as [->|Hpx].
          + congruence.
          + assert (p ∉ pq (queue s)) as Hp' by (rewrite Pe; tauto).
            rewrite Poff in Hr by exact Hp'. eapply Hoff; eauto.
        - intros p Hp. unfold st in Hp; simpl in Hp. rewrite Hst in Hp.
          pose proof (Hwait p Hp) as Hin. apply Pe in Hin as [->|Hin]; [|exact Hin].
          rewrite <- Hst, Hr' in Hp. simpl in Hp. congruence. }
      destruct (IH s1 Hinv1 ltac:(simpl; lia)) as (s' & g & Hloop & Hinv' & Hrel).
      exists s', g. split; [exact Hloop|]. split; [exact Hinv'|].
      destruct Hrel as (Hcap & Hw' & Hsub & Hdrop & Hg).
      assert (Hst1 : forall p, st s1 p = st s p) by (intros p; apply Hst).
      assert (Hwg1 : forall p, wg s1 p = wg s p) by (intros p; apply Hwg).
      assert (x_not_waiting : st s x <> Some stateWaiting).
      { rewrite <- Hst, Hr'. simpl. congruence. }
      unfold released. split_conj; auto.
      * intros p. rewrite Hw'. apply Hwg1.
      * intros p Hp. apply Pe. right. apply Hsub, Hp.
      * intros p Hp. apply Pe in Hp as [->|Hp]; [auto|].
        destruct (Hdrop p Hp) as [H1|[H1|H1]]; auto.
        right; right. rewrite <- Hst1. exact H1.
      * destruct g as [q|].
        -- destruct Hg as (Hu & Hqin & Hqout & Hsq & Hsq' & Hoth & Hmax).
           split_conj; auto.
           ++ apply Pe. right. exact Hqin.
           ++ rewrite <- Hst1. exact Hsq.
           ++ intros p Hp. rewrite Hoth by exact Hp. apply Hst1.
           ++ intros p w wq Hp Hsp Hwp Hwq. apply (Hmax p w wq).
              ** apply Pe in Hp as [->|Hp]; [contradiction | exact Hp].
              ** rewrite Hst1. exact Hsp.
              ** rewrite Hwg1. exact Hwp.
              ** rewrite Hwg1. exact Hwq.
        -- destruct Hg as (Hu & Hsame & Hnone). split_conj; auto.
           ++ intros p. rewrite Hsame. apply Hst1.
           ++ intros p Hp. apply Pe in Hp as [->|Hp]; [exact x_not_waiting|].
              rewrite <- Hst1. apply Hnone, Hp.
Qed.

Lemma pq_Swap_length h i j h' :
  pq_Swap h i j = Some h' -> length (pq h') = length (pq h).
Proof.
  unfold pq_Swap, set_index. intros H.
  repeat match type of H with
         | (?x ≫= _) = Some _ => destruct x; simpl in H; [|discriminate]
         end.
  injection H as <-. simpl. rewrite !length_insert. reflexivity.
Qed.

Lemma down_loop_length fuel : forall (h : pqheap) i n h' i',
  heap.down_loop fuel h i n = Some (h', i') -> length (pq h') = length (pq h).
Proof.
  induction fuel as [|fuel IH]; intros h i n h' i' H.
  - injection H as <- _. reflexivity.
  - rewrite down_loop_S in H. destruct (n <=? 2 * i + 1)%nat; [injection H as <- _; reflexivity|].
    destruct (if (2 * i + 1 + 1 <? n)%nat then _ else _) as [b|]; [|discriminate].
    rewrite bind_Some in H. cbv beta zeta in H.
    destruct (pq_Less h _ i) as [[|]|]; simpl in H;
      [|injection H as <- _; reflexivity|discriminate].
    destruct (pq_Swap h i _) as [h1|] eqn:HS; simpl in H; [|discriminate].
    rewrite (IH _ _ _ _ _ H). eapply pq_Swap_length, HS.
Qed.

Lemma HPop_length (h h' : pqheap) x :
  heap.HPop h = Some (h', x) -> S (length (pq h')) = length (pq h).
Proof.
  unfold heap.HPop. change (heap.Len h) with (length (pq h)).
  destruct (Nat.eqb_spec (length (pq h)) 0) as [|Hn]; [discriminate|]. intros H.
  change (heap.Swap h 0 (length (pq h) - 1)) with (pq_Swap h 0 (length (pq h) - 1)) in H.
  destruct (pq_Swap h 0 _) as [h1|] eqn:HS; simpl in H; [|discriminate].
  unfold heap.down in H.
  destruct (heap.down_loop _ h1 0 _) as [[h2 i2]|] eqn:HD; simpl in H; [|discriminate].
  apply pq_Swap_length in HS. apply down_loop_length in HD.
  change (heap.Pop h2) with (pq_Pop h2) in H. unfold pq_Pop, set_index in H.
  destruct (Nat.eqb_spec (length (pq h2)) 0); [discriminate|].
  repeat match type of H with
         | (?x ≫= _) = Some _ => destruct x; simpl in H; [|discriminate]
         end.
  injection H as <- _. simpl. rewrite length_take_le by lia. lia.
Qed.

(** The loop of [privateRelease] ends before its fuel runs out: with at
    least [Len] turns allowed, more turns change nothing. *)
Lemma privateRelease_loop_fuel fuel : forall fuel' s,
  (length (pq (queue s)) <= fuel)%nat -> (length (pq (queue s)) <= fuel')%nat ->
  privateRelease_loop fuel s = privateRelease_loop fuel' s.
Proof.
  induction fuel as [|fuel IH]; intros [|fuel'] s H1 H2; try reflexivity.
  - simpl. unfold pq_Len. destruct (Nat.ltb_spec 0 (length (pq (queue s)))); [lia | reflexivity].
  - simpl. unfold pq_Len. destruct (Nat.ltb_spec 0 (length (pq (queue s)))); [lia | reflexivity].
  - simpl. destruct (0 <? pq_Len (queue s))%nat; [|reflexivity].
    destruct (heap.HPop (queue s)) as [[h' x]|] eqn:HP; simpl; [|reflexivity].
    apply HPop_length in HP.
    destruct (CompareAndSwap (objs h') x stateWaiting stateAcquired) as [[m [|]]|];
      simpl; try reflexivity.
    apply IH; simpl; lia.
Qed.

Lemma privateRelease_spec s :
  sem_inv s ->
  exists s' g, privateRelease s = Some (s', g) /\ sem_inv s' /\ released s s' g.
Proof. intros Hinv. apply privateRelease_loop_spec; [exact Hinv | unfold pq_Len; lia]. Qed.


(** What queueing a new request of weight [w] at address [p] does. *)
Definition enqueued (s s' : Prioritized) (p : nat) (w : Z) : Prop :=
  capacity s' = capacity s /\ used s' = used s /\
  p = length (objs (queue s)) /\
  length (objs (queue s')) = S (length (objs (queue s))) /\
  st s' p = Some stateWaiting /\ wg s' p = Some w /\
  (forall q, q <> p -> st s' q = st s q /\ wg s' q = wg s q) /\
  (forall q, q ∈ pq (queue s') <-> q = p \/ q ∈ pq (queue s)).

Lemma WaitAcquire_locked_now s w :
  (used s < capacity s)%Z ->
  WaitAcquire_locked s w
  = Some (mkPrioritized (capacity s) (used s + 1) (queue s), Immediate (used s)).
Proof.
  intros H. unfold WaitAcquire_locked.
  destruct (Z.ltb_spec (used s) (capacity s)); [reflexivity | lia].
Qed.

Lemma WaitAcquire_locked_wait s w :
  sem_inv s -> (capacity s <= used s)%Z ->
  exists s', WaitAcquire_locked s w = Some (s', Queued (length (objs (queue s)))) /\
             sem_inv s' /\ enqueued s s' (length (objs (queue s))) w.
Proof.
  intros [Hwf Hord Hq Hoff Hwait] Hfull. unfold WaitAcquire_locked.
  destruct (Z.ltb_spec (used s) (capacity s)); [lia|].
  set (x := length (objs (queue s))).
  set (new := mkRequest w 0 stateWaiting).
  set (h0 := mkHeap (pq (queue s)) (objs (queue s) ++ [new])).
  assert (Hvalid : forall p, p ∈ pq (queue s) -> (p < x)%nat).
  { intros p Hp. apply list_elem_of_lookup in Hp as [k Hk].
    destruct (Hwf _ _ Hk) as (r & Hr & _). eapply lookup_lt_Some, Hr. }
  assert (Hold : forall p, (p < x)%nat -> objs h0 !! p = objs (queue s) !! p).
  { intros p Hp. simpl. apply lookup_app_l, Hp. }
  assert (Hnew : objs h0 !! x = Some new).
  { simpl. rewrite lookup_app_r by (unfold x; lia).
    replace (x - length (objs (queue s)))%nat with 0%nat by (unfold x; lia). reflexivity. }
  assert (wf h0) as Hwf0.
  { intros k p Hk. simpl in Hk. rewrite Hold; [apply Hwf, Hk|].
    apply Hvalid. eapply list_elem_of_lookup_2, Hk. }
  assert (heapord h0 (length (pq h0))) as Hord0.
  { intros k Hk. unfold ord.
    assert (E : forall k, wt h0 k = wt (queue s) k).
    { intros k'. unfold wt, req_at. simpl.
      destruct (pq (queue s) !! k') as [p|] eqn:Hp; simpl; [|reflexivity].
      rewrite lookup_app_l; [reflexivity|].
      apply Hvalid. eapply list_elem_of_lookup_2, Hp. }
    rewrite !E. apply Hord, Hk. }
  assert (x ∉ pq h0) as Hout.
  { intros Hin. apply Hvalid in Hin. lia. }
  destruct (HPush_spec h0 x Hwf0 Hord0) as (h' & HP & [Pw Po Pl Pe Pr Poff]).
  { simpl. rewrite length_app. simpl. unfold x. lia. }
  { exact Hout. }
  rewrite HP, bind_Some. eexists; split; [reflexivity|].
  pose proof (same_reqs_length _ _ Pr) as Hlen'.
  assert (length (objs h0) = S x) as Hlen0
    by (simpl; rewrite length_app; simpl; unfold x; lia).
  assert (Hst' : forall q, state <$> objs h' !! q = state <$> objs h0 !! q)
    by (intros q; apply Pr).
  assert (Hwg' : forall q, weight <$> objs h' !! q = weight <$> objs h0 !! q)
    by (intros q; apply Pr).
  assert (Hother : forall q, q <> x -> objs h0 !! q = objs (queue s) !! q).
  { intros q Hqx. destruct (decide (q < x)%nat) as [Hlt|Hge]; [apply Hold, Hlt|].
    rewrite !lookup_ge_None_2; [reflexivity | fold x; lia | lia]. }
  split.
  - split; simpl.
    + exact Pw.
    + exact Po.
    + intros p Hp. unfold st; simpl. rewrite Hst'.
      apply Pe in Hp as [->|Hp].
      * rewrite Hnew. discriminate.
      * rewrite Hold by (apply Hvalid, Hp). apply Hq, Hp.
    + intros p r Hr Hp. rewrite Pe in Hp.
      rewrite Poff in Hr by tauto.
      rewrite Hother in Hr by tauto. eapply Hoff; [exact Hr | tauto].
    + intros p Hp. unfold st in Hp; simpl in Hp. rewrite Hst' in Hp.
      apply Pe. destruct (decide (p = x)) as [->|Hpx]; [auto|right].
      rewrite Hother in Hp by exact Hpx. apply Hwait, Hp.
  - unfold enqueued; simpl. split_conj; auto.
    + rewrite Hlen', Hlen0. reflexivity.
    + unfold st; simpl. rewrite Hst', Hnew. reflexivity.
    + unfold wg; simpl. rewrite Hwg', Hnew. reflexivity.
    + intros q Hqx. unfold st, wg; simpl.
      rewrite Hst', Hwg', Hother by assumption. split; reflexivity.
Qed.

Lemma wf_index_same h m' :
  wf h -> (forall q, index <$> m' !! q = index <$> objs h !! q) ->
  wf (mkHeap (pq h) m').
Proof.
  intros Hwf Hi k p Hk. simpl in *. destruct (Hwf _ _ Hk) as (r & Hr & Hri).
  specialize (Hi p). rewrite Hr in Hi. simpl in Hi.
  destruct (m' !! p) as [r'|]; [|discriminate]. simpl in Hi.
  exists r'. split; [reflexivity | congruence].
Qed.

(** The cancel CAS on a waiting request. *)
Lemma cancel_CAS_won s p :
  sem_inv s -> st s p = Some stateWaiting ->
  exists s', cancel_CAS s p = Some (s', true) /\ sem_inv s' /\
    capacity s' = capacity s /\ used s' = used s /\
    pq (queue s') = pq (queue s) /\
    st s' p = Some stateCanceled /\
    (forall q, q <> p -> st s' q = st s q) /\ (forall q, wg s' q = wg s q).
Proof.
  intros [Hwf Hord Hq Hoff Hwait] Hp. unfold st in Hp.
  destruct (objs (queue s) !! p) as [r|] eqn:Hr; [|discriminate].
  simpl in Hp. injection Hp as Hp.
  destruct (CompareAndSwap_spec _ p stateWaiting stateCanceled r Hr)
    as [(_ & m' & HC & Hmx & Hmo & Hmw & Hmi)|(Hne & _)]; [|contradiction].
  unfold cancel_CAS. rewrite HC, bind_Some. eexists; split; [reflexivity|].
  split; [split|]; simpl.
  - apply wf_index_same; assumption.
  - apply heapord_weights; assumption.
  - intros q Hin. unfold st; simpl. destruct (decide (q = p)) as [->|Hqp].
    + rewrite Hmx. discriminate.
    + rewrite Hmo by exact Hqp. apply Hq, Hin.
  - intros q r' Hr' Hin. specialize (Hmi q). rewrite Hr' in Hmi. simpl in Hmi.
    destruct (objs (queue s) !! q) as [r0|] eqn:Hr0; [|discriminate].
    simpl in Hmi. injection Hmi as ->. eapply Hoff; eauto.
  - intros q Hs. unfold st in Hs; simpl in Hs. destruct (decide (q = p)) as [->|Hqp].
    + rewrite Hmx in Hs. discriminate.
    + rewrite Hmo in Hs by exact Hqp. apply Hwait, Hs.
  - split_conj; auto.
    + unfold st; simpl. rewrite Hmx. reflexivity.
    + intros q Hqp. unfold st; simpl. rewrite Hmo by exact Hqp. reflexivity.
Qed.

(** The cancel CAS on a request that was already handed the slot. *)
Lemma cancel_CAS_lost s p :
  st s p = Some stateAcquired -> cancel_CAS s p = Some (s, false).
Proof.
  intros Hp. unfold st in Hp.
  destruct (objs (queue s) !! p) as [r|] eqn:Hr; [|discriminate].
  simpl in Hp. injection Hp as Hp.
  destruct (CompareAndSwap_spec _ p stateWaiting stateCanceled r Hr)
    as [(He & _)|(_ & HC)]; [congruence|].
  unfold cancel_CAS. rewrite HC, bind_Some. destruct s as [c u [q o]]; reflexivity.
Qed.

(** Taking a canceled request out of the queue. *)
Lemma cancel_remove_spec s p :
  sem_inv s -> st s p = Some stateCanceled ->
  exists s', cancel_remove s p = Some s' /\ sem_inv s' /\
    capacity s' = capacity s /\ used s' = used s /\
    (p ∉ pq (queue s')) /\
    (forall q, st s' q = st s q) /\ (forall q, wg s' q = wg s q) /\
    (forall q, q ∈ pq (queue s') <-> q ∈ pq (queue s) /\ q <> p).
Proof.
  intros Hinv Hp. pose proof Hinv as [Hwf Hord Hq Hoff Hwait]. unfold st in Hp.
  destruct (objs (queue s) !! p) as [r|] eqn:Hr; [|discriminate].
  simpl in Hp. injection Hp as Hp.
  unfold cancel_remove. rewrite Hr, bind_Some.
  destruct (Z.eqb_spec (index r) (-1)) as [Hi|Hi].
  - assert (p ∉ pq (queue s)) as Hout.
    { intros Hin. apply list_elem_of_lookup in Hin as [k Hk].
      destruct (Hwf _ _ Hk) as (r' & Hr' & Hk'). assert (r' = r) by congruence. subst. lia. }
    exists s. split_conj; auto. intros q. split; [|tauto].
    intros Hin. split; [exact Hin | intros ->; contradiction].
  - assert (p ∈ pq (queue s)) as Hin.
    { destruct (decide (p ∈ pq (queue s))) as [|Hout]; [assumption|].
      exfalso. apply Hi. eapply Hoff; eauto. }
    apply list_elem_of_lookup in Hin as [k Hk].
    destruct (Hwf _ _ Hk) as (r' & Hr' & Hk'). assert (r' = r) by congruence. subst r'.
    destruct (Z.ltb_spec (index r) 0); [lia|].
    rewrite Hk', Nat2Z.id.
    destruct (Remove_spec (queue s) k Hwf Hord (lookup_lt_Some _ _ _ Hk))
      as (h' & x & HR & Hx & [Pw Po Pl Pe Pout Pr Poff Pi]).
    assert (x = p) by congruence. subst x.
    rewrite HR, bind_Some. eexists; split; [reflexivity|].
    assert (Hst : forall q, state <$> objs h' !! q = st s q) by (intros q; apply Pr).
    split; [split|]; simpl.
    + exact Pw.
    + exact Po.
    + intros q Hin. unfold st; simpl. rewrite Hst. apply Hq, Pe. auto.
    + intros q rq Hrq Hout. destruct (decide (q = p)) as [->|Hqp].
      * destruct Pi as (r0 & Hr0 & Hi0). congruence.
      * assert (q ∉ pq (queue s)) as Hout' by (rewrite Pe; tauto).
        rewrite Poff in Hrq by exact Hout'. eapply Hoff; eauto.
    + intros q Hs. unfold st in Hs; simpl in Hs. rewrite Hst in Hs.
      pose proof (Hwait q Hs) as Hin. apply Pe in Hin as [->|Hin]; [|exact Hin].
      unfold st in Hs. rewrite Hr in Hs. simpl in Hs. congruence.
    + split_conj; auto.
      * intros q. apply Pr.
      * intros q. rewrite Pe. split; [|intros [[->|H'] Hne]; [contradiction | exact H']].
        intros Hin. split; [auto | intros ->; contradiction].
Qed.

Lemma NewPrioritized_eq n :
  NewPrioritized n = Some (mkPrioritized n 0 (mkHeap [] [])).
Proof. reflexivity. Qed.

Lemma sem_inv_new n : sem_inv (mkPrioritized n 0 (mkHeap [] [])).
Proof.
  split; simpl.
  - intros k p Hk. discriminate.
  - intros k Hk. simpl in Hk. lia.
  - intros p Hp. apply not_elem_of_nil in Hp. contradiction.
  - intros p r Hr. discriminate.
  - intros p Hp. discriminate.
Qed.


Lemma cancel_CAS_not_waiting s p x :
  st s p = Some x -> x <> stateWaiting -> cancel_CAS s p = Some (s, false).
Proof.
  intros Hp Hx. unfold st in Hp.
  destruct (objs (queue s) !! p) as [r|] eqn:Hr; [|discriminate].
  simpl in Hp. injection Hp as Hp.
  destruct (CompareAndSwap_spec _ p stateWaiting stateCanceled r Hr)
    as [(He & _)|(_ & HC)]; [congruence|].
  unfold cancel_CAS. rewrite HC, bind_Some. destruct s as [c u [q o]]; reflexivity.
Qed.

End semaphore_proofs.

(** *** The semaphore and its goroutines as a transition system

    The steps are the sections of [WaitAcquire] and [privateRelease] that
    run under [mu], and the lock-free [CompareAndSwap] of a canceling
    waiter.  [privateRelease] sends on the unbuffered channel [req.ready]
    while it holds [mu]: between the hand-over and the receive, [mu] stays
    locked ([sending]). *)

(** Where the goroutine that queued a request stands. *)
Inductive pc :=
  | pcSelect                  (* in the [select] of [WaitAcquire] *)
  | pcCanceling               (* won the cancel CAS, not yet under [mu] *)
  | pcReturnedErr             (* [WaitAcquire] returned the cancellation cause *)
  | pcHolding (tid : Z)       (* [WaitAcquire] returned nil; [done] not called yet *)
  | pcReleased.               (* [done] was called *)

Record config := mkConfig {
  sem : Prioritized;
  waiters : list pc;          (* one per request object *)
  direct : list Z;            (* slots ([tid]s) acquired without waiting, not released *)
  sending : option (nat * Z)  (* [req.ready <- tid] in progress, [mu] held *)
}.

Definition is_holding (x : pc) : bool :=
  match x with pcHolding _ => true | _ => false end.

Fixpoint holding (l : list pc) : nat :=
  match l with
  | [] => 0
  | x :: l => ((if is_holding x then 1 else 0) + holding l)%nat
  end.

(** The number of slots granted and not released: those acquired without
    waiting, those of waiters that were served, and the one in transit. *)
Definition granted (c : config) : nat :=
  (length (direct c) + holding (waiters c)
   + match sending c with Some _ => 1 | None => 0 end)%nat.

Definition hand_over (g : option nat) (tid : Z) : option (nat * Z) :=
  match g with Some q => Some (q, tid) | None => None end.

Inductive step : config -> config -> Prop :=
  (* WaitAcquire with a free slot *)
  | step_acquire_now c w s' tid :
      sending c = None ->
      WaitAcquire_locked (sem c) w = Some (s', Immediate tid) ->
      step c (mkConfig s' (waiters c) (tid :: direct c) None)
  (* WaitAcquire without a free slot: the request is queued *)
  | step_acquire_wait c w s' req :
      sending c = None ->
      WaitAcquire_locked (sem c) w = Some (s', Queued req) ->
      step c (mkConfig s' (waiters c ++ [pcSelect]) (direct c) None)
  (* done() of a slot acquired without waiting *)
  | step_release_direct c i tid s' g :
      sending c = None ->
      direct c !! i = Some tid ->
      privateRelease (sem c) = Some (s', g) ->
      step c (mkConfig s' (waiters c) (delete i (direct c)) (hand_over g tid))
  (* done() of a waiter that was served *)
  | step_release_waiter c p tid s' g :
      sending c = None ->
      waiters c !! p = Some (pcHolding tid) ->
      privateRelease (sem c) = Some (s', g) ->
      step c (mkConfig s' (<[p := pcReleased]> (waiters c)) (direct c) (hand_over g tid))
  (* case tid := <-req.ready *)
  | step_receive c p tid :
      sending c = Some (p, tid) ->
      waiters c !! p = Some pcSelect ->
      step c (mkConfig (sem c) (<[p := pcHolding tid]> (waiters c)) (direct c) None)
  (* case <-ctx.Done(), the CAS succeeds *)
  | step_cancel c p s' :
      waiters c !! p = Some pcSelect ->
      cancel_CAS (sem c) p = Some (s', true) ->
      step c (mkConfig s' (<[p := pcCanceling]> (waiters c)) (direct c) (sending c))
  (* case <-ctx.Done(), the CAS fails: tid := <-req.ready *)
  | step_cancel_lost c p tid s' :
      waiters c !! p = Some pcSelect ->
      cancel_CAS (sem c) p = Some (s', false) ->
      sending c = Some (p, tid) ->
      step c (mkConfig s' (<[p := pcHolding tid]> (waiters c)) (direct c) None)
  (* after a successful cancel: remove from the queue under mu, return oerr *)
  | step_cancel_remove c p s' :
      sending c = None ->
      waiters c !! p = Some pcCanceling ->
      cancel_remove (sem c) p = Some s' ->
      step c (mkConfig s' (<[p := pcReturnedErr]> (waiters c)) (direct c) None).

(** [NewPrioritized(name, n)] and no goroutine yet. *)
Definition init (n : Z) : config :=
  mkConfig (mkPrioritized n 0 (mkHeap [] [])) [] [] None.

Definition reachable (n : Z) (c : config) : Prop := rtc step (init n) c.

Section system_proofs.

Lemma holding_app l1 l2 : holding (l1 ++ l2) = (holding l1 + holding l2)%nat.
Proof. induction l1 as [|x l1 IH]; simpl; [reflexivity | rewrite IH; lia]. Qed.

Lemma holding_insert l : forall p old new,
  l !! p = Some old ->
  (holding (<[p := new]> l) + (if is_holding old then 1 else 0)
   = holding l + (if is_holding new then 1 else 0))%nat.
Proof.
  induction l as [|x l IH]; intros [|p] old new H; simpl in *; try discriminate.
  - injection H as ->. lia.
  - specialize (IH p old new H). lia.
Qed.

(** The invariant of the system for a semaphore of capacity [n]. *)
Record Inv (n : Z) (c : config) : Prop := mk_Inv {
  cinv_sem : sem_inv (sem c);
  cinv_len : length (waiters c) = length (objs (queue (sem c)));
  cinv_waiting : forall p,
    st (sem c) p = Some stateWaiting -> waiters c !! p = Some pcSelect;
  cinv_canceled : forall p,
    st (sem c) p = Some stateCanceled ->
    waiters c !! p = Some pcCanceling \/
    (waiters c !! p = Some pcReturnedErr /\ p ∉ pq (queue (sem c)));
  cinv_acquired : forall p,
    st (sem c) p = Some stateAcquired ->
    (waiters c !! p = Some pcSelect /\ exists tid, sending c = Some (p, tid)) \/
    (exists tid, waiters c !! p = Some (pcHolding tid)) \/
    waiters c !! p = Some pcReleased;
  cinv_sending : forall p tid,
    sending c = Some (p, tid) ->
    st (sem c) p = Some stateAcquired /\ waiters c !! p = Some pcSelect;
  cinv_used : used (sem c) = Z.of_nat (granted c);
  cinv_cap : capacity (sem c) = n /\ (used (sem c) <= n)%Z
}.

Lemma Inv_init n : (0 <= n)%Z -> Inv n (init n).
Proof.
  intros Hn. split; simpl; try (intros; discriminate); auto using sem_inv_new.
Qed.

(** The state of every allocated request is defined. *)
Lemma st_is_Some n c p x :
  Inv n c -> waiters c !! p = Some x -> exists y, st (sem c) p = Some y.
Proof.
  intros HI Hp. apply lookup_lt_Some in Hp. rewrite (cinv_len _ _ HI) in Hp.
  destruct (lookup_lt_is_Some_2 _ _ Hp) as [r Hr].
  exists (state r). unfold st. rewrite Hr. reflexivity.
Qed.

Lemma st_of_select n c p :
  Inv n c -> waiters c !! p = Some pcSelect ->
  st (sem c) p = Some stateWaiting \/
  (st (sem c) p = Some stateAcquired /\ exists tid, sending c = Some (p, tid)).
Proof.
  intros HI Hp. destruct (st_is_Some _ _ _ _ HI Hp) as [[| |] Hy]; auto.
  - right. split; [exact Hy|].
    destruct (cinv_acquired _ _ HI p Hy) as [[_ H]|[[tid H]|H]]; [exact H|congruence..].
  - destruct (cinv_canceled _ _ HI p Hy) as [H|[H _]]; congruence.
Qed.

Lemma st_of_holding n c p tid :
  Inv n c -> waiters c !! p = Some (pcHolding tid) -> st (sem c) p = Some stateAcquired.
Proof.
  intros HI Hp. destruct (st_is_Some _ _ _ _ HI Hp) as [[| |] Hy]; auto.
  - pose proof (cinv_waiting _ _ HI p Hy). congruence.
  - destruct (cinv_canceled _ _ HI p Hy) as [H|[H _]]; congruence.
Qed.

Lemma st_of_canceling n c p :
  Inv n c -> waiters c !! p = Some pcCanceling -> st (sem c) p = Some stateCanceled.
Proof.
  intros HI Hp. destruct (st_is_Some _ _ _ _ HI Hp) as [[| |] Hy]; auto.
  - pose proof (cinv_waiting _ _ HI p Hy). congruence.
  - destruct (cinv_acquired _ _ HI p Hy) as [[H _]|[[tid H]|H]]; congruence.
Qed.

Lemma wg_same_length s s' :
  (forall p, wg s' p = wg s p) ->
  length (objs (queue s')) = length (objs (queue s)).
Proof.
  intros Hwg.
  destruct (decide (length (objs (queue s')) = length (objs (queue s))))
    as [|Hne]; [assumption|exfalso].
  destruct (decide (length (objs (queue s')) < length (objs (queue s)))%nat).
  - specialize (Hwg (length (objs (queue s')))). unfold wg in Hwg.
    rewrite (lookup_ge_None_2 (objs (queue s'))) in Hwg by lia.
    destruct (lookup_lt_is_Some_2 (objs (queue s)) (length (objs (queue s'))))
      as [r Hr]; [lia|]. rewrite Hr in Hwg. discriminate.
  - specialize (Hwg (length (objs (queue s)))). unfold wg in Hwg.
    rewrite (lookup_ge_None_2 (objs (queue s))) in Hwg by lia.
    destruct (lookup_lt_is_Some_2 (objs (queue s')) (length (objs (queue s))))
      as [r Hr]; [lia|]. rewrite Hr in Hwg. discriminate.
Qed.

(** A release step keeps the invariant, whoever calls [done]. *)
Lemma Inv_release n c s' g ws ds tid :
  Inv n c -> sending c = None ->
  privateRelease (sem c) = Some (s', g) ->
  length ws = length (waiters c) ->
  (* the caller gives up its slot and is no waiter in [select] *)
  (length ds + holding ws + 1 = length (direct c) + holding (waiters c))%nat ->
  (forall p, st (sem c) p = Some stateWaiting -> ws !! p = waiters c !! p) ->
  (forall p, st (sem c) p = Some stateCanceled -> ws !! p = waiters c !! p) ->
  (forall p, st (sem c) p = Some stateAcquired ->
     (exists tid, ws !! p = Some (pcHolding tid)) \/ ws !! p = Some pcReleased) ->
  Inv n (mkConfig s' ws ds (hand_over g tid)) /\
  (forall p, st (sem c) p = Some stateCanceled -> st s' p = Some stateCanceled).
Proof.
  intros HI Hsend HR Hlen Hcount Hw Hc Ha.
  destruct (privateRelease_spec (sem c) (cinv_sem _ _ HI)) as (s'' & g' & HR' & Hinv' & Hrel).
  rewrite HR in HR'. injection HR' as <- <-.
  destruct Hrel as (Hcap & Hwg & Hsub & Hdrop & Hg).
  pose proof (cinv_used _ _ HI) as Hused. pose proof (cinv_cap _ _ HI) as [Hcn Hle].
  unfold granted in Hused. rewrite Hsend in Hused.
  pose proof (wg_same_length _ _ Hwg) as Hobjs.
  destruct g as [q|]; simpl.
  - destruct Hg as (Hu & Hqin & Hqout & Hsq & Hsq' & Hoth & Hmax).
    assert (Hqsel : ws !! q = Some pcSelect).
    { rewrite Hw by exact Hsq. apply (cinv_waiting _ _ HI), Hsq. }
    split; [split; simpl|].
    + exact Hinv'.
    + rewrite Hlen, Hobjs. apply (cinv_len _ _ HI).
    + intros p Hp. destruct (decide (p = q)) as [->|Hpq]; [congruence|].
      rewrite Hoth in Hp by exact Hpq. rewrite Hw by exact Hp.
      apply (cinv_waiting _ _ HI), Hp.
    + intros p Hp. destruct (decide (p = q)) as [->|Hpq]; [congruence|].
      rewrite Hoth in Hp by exact Hpq. rewrite Hc by exact Hp.
      destruct (cinv_canceled _ _ HI p Hp) as [H|[H Hout]]; [auto|].
      right. split; [exact H|]. intros Hin. apply Hout, Hsub, Hin.
    + intros p Hp. destruct (decide (p = q)) as [->|Hpq]; [left; eauto|].
      rewrite Hoth in Hp by exact Hpq. right. apply Ha, Hp.
    + intros p tid' [= <- <-]. auto.
    + unfold granted; simpl. lia.
    + split; [congruence | lia].
    + intros p Hp. destruct (decide (p = q)) as [->|Hpq]; [congruence|].
      rewrite Hoth by exact Hpq. exact Hp.
  - destruct Hg as (Hu & Hsame & Hnone).
    split; [split; simpl|].
    + exact Hinv'.
    + rewrite Hlen, Hobjs. apply (cinv_len _ _ HI).
    + intros p Hp. rewrite Hsame in Hp. rewrite Hw by exact Hp.
      apply (cinv_waiting _ _ HI), Hp.
    + intros p Hp. rewrite Hsame in Hp. rewrite Hc by exact Hp.
      destruct (cinv_canceled _ _ HI p Hp) as [H|[H Hout]]; [auto|].
      right. split; [exact H|]. intros Hin. apply Hout, Hsub, Hin.
    + intros p Hp. rewrite Hsame in Hp. right. apply Ha, Hp.
    + intros p tid' [=].
    + unfold granted; simpl. lia.
    + split; [congruence | lia].
    + intros p Hp. rewrite Hsame. exact Hp.
Qed.

(** Receiving the slot, from the [select] or after a lost cancel race. *)
Lemma Inv_receive n c p tid :
  Inv n c -> sending c = Some (p, tid) -> waiters c !! p = Some pcSelect ->
  Inv n (mkConfig (sem c) (<[p := pcHolding tid]> (waiters c)) (direct c) None).
Proof.
  intros HI Hsend Hp.
  destruct (cinv_sending _ _ HI p tid Hsend) as [Hst _].
  pose proof (lookup_lt_Some _ _ _ Hp) as Hlt.
  pose proof (holding_insert _ p pcSelect (pcHolding tid) Hp) as Hh. simpl in Hh.
  pose proof (cinv_used _ _ HI) as Hused. unfold granted in Hused. rewrite Hsend in Hused.
  split; simpl.
  - apply (cinv_sem _ _ HI).
  - rewrite length_insert. apply (cinv_len _ _ HI).
  - intros q Hq. assert (q <> p) by congruence.
    rewrite list_lookup_insert_ne by congruence. apply (cinv_waiting _ _ HI), Hq.
  - intros q Hq. assert (q <> p) by congruence.
    rewrite list_lookup_insert_ne by congruence. apply (cinv_canceled _ _ HI), Hq.
  - intros q Hq. destruct (decide (q = p)) as [->|Hqp].
    + right; left. exists tid. apply list_lookup_insert_eq, Hlt.
    + rewrite list_lookup_insert_ne by congruence.
      destruct (cinv_acquired _ _ HI q Hq) as [[_ [t Ht]]|H]; [congruence | auto].
  - intros q t [=].
  - unfold granted; simpl. lia.
  - apply (cinv_cap _ _ HI).
Qed.

Lemma step_Inv n c c' :
  Inv n c -> step c c' ->
  Inv n c' /\
  (forall p, st (sem c) p = Some stateCanceled -> st (sem c') p = Some stateCanceled).
Proof.
  intros HI Hstep. pose proof (cinv_sem _ _ HI) as Hsem.
  pose proof (cinv_cap _ _ HI) as [Hcn Hle].
  destruct Hstep as [c w s' tid Hsend HW | c w s' req Hsend HW
                    | c i tid s' g Hsend Hd HR | c p tid s' g Hsend Hp HR
                    | c p tid Hsend Hp | c p s' Hp HC | c p tid s' Hp HC Hsend
                    | c p s' Hsend Hp HC].
  - (* acquire, free slot *)
    destruct (Z.lt_ge_cases (used (sem c)) (capacity (sem c))) as [Hfree|Hfull].
    2:{ destruct (WaitAcquire_locked_wait (sem c) w Hsem Hfull) as (s'' & HW' & _).
        congruence. }
    rewrite (WaitAcquire_locked_now _ w Hfree) in HW. injection HW as <- <-.
    pose proof (cinv_used _ _ HI) as Hused. unfold granted in Hused. rewrite Hsend in Hused.
    split; [|auto]. destruct HI as [[? ? ? ? ?] ? ? ? ? ? ? ?].
    split; simpl; auto.
    + split; auto.
    + intros p Hq. destruct (cinv_acquired0 p Hq) as [[_ [t Ht]]|H]; [congruence|auto].
    + intros; discriminate.
    + unfold granted; simpl. lia.
    + split; [assumption | lia].
  - (* acquire, no free slot *)
    destruct (Z.lt_ge_cases (used (sem c)) (capacity (sem c))) as [Hfree|Hfull].
    { rewrite (WaitAcquire_locked_now _ w Hfree) in HW. discriminate. }
    destruct (WaitAcquire_locked_wait (sem c) w Hsem Hfull) as (s'' & HW' & Hinv' & Henq).
    rewrite HW in HW'. injection HW' as <- ->.
    destruct Henq as (Hcap & Hu & _ & Hlen & Hsx & Hwx & Hoth & Hel).
    set (x := length (objs (queue (sem c)))) in *.
    pose proof (cinv_len _ _ HI) as Hwl. fold x in Hwl.
    pose proof (cinv_used _ _ HI) as Hused. unfold granted in Hused. rewrite Hsend in Hused.
    assert (Hold : forall p y, p <> x -> waiters c !! p = Some y ->
                               (waiters c ++ [pcSelect]) !! p = Some y).
    { intros p y _ Hy. apply lookup_app_l_Some, Hy. }
    assert (Hcanc : forall p, st (sem c) p = Some stateCanceled ->
                              st s' p = Some stateCanceled).
    { intros p Hq. assert (p <> x).
      { intros ->. unfold st in Hq. rewrite lookup_ge_None_2 in Hq by (unfold x; lia).
        discriminate. }
      destruct (Hoth p H) as [-> _]. exact Hq. }
    split; [|exact Hcanc]. split; simpl.
    + exact Hinv'.
    + rewrite length_app. simpl. lia.
    + intros p Hq. destruct (decide (p = x)) as [->|Hpx].
      * rewrite lookup_app_r by lia. replace (x - length (waiters c))%nat with 0%nat by lia.
        reflexivity.
      * destruct (Hoth p Hpx) as [Hs _]. rewrite Hs in Hq.
        apply Hold; [exact Hpx | apply (cinv_waiting _ _ HI), Hq].
    + intros p Hq. destruct (decide (p = x)) as [->|Hpx]; [congruence|].
      destruct (Hoth p Hpx) as [Hs _]. rewrite Hs in Hq.
      destruct (cinv_canceled _ _ HI p Hq) as [H|[H Hout]]; [left; auto|].
      right. split; [auto|]. rewrite Hel. tauto.
    + intros p Hq. destruct (decide (p = x)) as [->|Hpx]; [congruence|].
      destruct (Hoth p Hpx) as [Hs _]. rewrite Hs in Hq.
      destruct (cinv_acquired _ _ HI p Hq) as [[_ [t Ht]]|[[t H]|H]];
        [congruence | right; left; eauto | right; right; auto].
    + intros; discriminate.
    + unfold granted; simpl. rewrite holding_app. simpl. lia.
    + split; [congruence | lia].
  - (* release of a slot acquired without waiting *)
    apply (Inv_release n c s' g (waiters c) (delete i (direct c)) tid HI Hsend HR);
      auto.
    + rewrite length_delete by eauto. pose proof (lookup_lt_Some _ _ _ Hd). lia.
    + intros p Hq.
      destruct (cinv_acquired _ _ HI p Hq) as [[_ [t Ht]]|H]; [congruence | auto].
  - (* release by a waiter that was served *)
    pose proof (st_of_holding _ _ _ _ HI Hp) as Hstp.
    pose proof (lookup_lt_Some _ _ _ Hp) as Hlt.
    pose proof (holding_insert _ p (pcHolding tid) pcReleased Hp) as Hh. simpl in Hh.
    apply (Inv_release n c s' g (<[p := pcReleased]> (waiters c)) (direct c) tid HI Hsend HR).
    + apply length_insert.
    + lia.
    + intros q Hq. apply list_lookup_insert_ne. congruence.
    + intros q Hq. apply list_lookup_insert_ne. congruence.
    + intros q Hq. destruct (decide (q = p)) as [->|Hqp].
      * right. apply list_lookup_insert_eq, Hlt.
      * rewrite list_lookup_insert_ne by congruence.
        destruct (cinv_acquired _ _ HI q Hq) as [[_ [t Ht]]|H]; [congruence | auto].
  - (* receive *)
    split; [|auto]. apply Inv_receive; assumption.
  - (* cancel, CAS won *)
    destruct (st_of_select _ _ _ HI Hp) as [Hw|[Ha _]].
    2:{ rewrite (cancel_CAS_not_waiting _ _ _ Ha) in HC by discriminate. discriminate. }
    destruct (cancel_CAS_won (sem c) p Hsem Hw)
      as (s'' & HC' & Hinv' & Hcap & Hu & Hpq & Hsp & Hoth & Hwg).
    rewrite HC in HC'. injection HC' as <-.
    pose proof (lookup_lt_Some _ _ _ Hp) as Hlt.
    pose proof (holding_insert _ p pcSelect pcCanceling Hp) as Hh. simpl in Hh.
    pose proof (cinv_used _ _ HI) as Hused. unfold granted in Hused.
    pose proof (wg_same_length _ _ Hwg) as Hobjs.
    split; [split; simpl|].
    + exact Hinv'.
    + rewrite length_insert, Hobjs. apply (cinv_len _ _ HI).
    + intros q Hq. destruct (decide (q = p)) as [->|Hqp]; [congruence|].
      rewrite list_lookup_insert_ne by congruence. rewrite Hoth in Hq by exact Hqp.
      apply (cinv_waiting _ _ HI), Hq.
    + intros q Hq. destruct (decide (q = p)) as [->|Hqp].
      * left. apply list_lookup_insert_eq, Hlt.
      * rewrite list_lookup_insert_ne by congruence. rewrite Hoth in Hq by exact Hqp.
        rewrite Hpq. apply (cinv_canceled _ _ HI), Hq.
    + intros q Hq. destruct (decide (q = p)) as [->|Hqp]; [congruence|].
      rewrite list_lookup_insert_ne by congruence. rewrite Hoth in Hq by exact Hqp.
      apply (cinv_acquired _ _ HI), Hq.
    + intros q t Hs. destruct (cinv_sending _ _ HI q t Hs) as [Hq1 Hq2].
      assert (q <> p) by congruence.
      rewrite list_lookup_insert_ne by congruence. rewrite Hoth by assumption. auto.
    + unfold granted; simpl. lia.
    + split; [congruence | lia].
    + intros q Hq. assert (q <> p) by congruence. rewrite Hoth by assumption. exact Hq.
  - (* cancel, CAS lost *)
    destruct (cinv_sending _ _ HI p tid Hsend) as [Ha _].
    rewrite (cancel_CAS_not_waiting _ _ _ Ha) in HC by discriminate.
    injection HC as <-.
    split; [|auto]. apply Inv_receive; assumption.
  - (* cancel, removal from the queue *)
    pose proof (st_of_canceling _ _ _ HI Hp) as Hc.
    destruct (cancel_remove_spec (sem c) p Hsem Hc)
      as (s'' & HC' & Hinv' & Hcap & Hu & Hout & Hst & Hwg & Hel).
    rewrite HC in HC'. injection HC' as <-.
    pose proof (lookup_lt_Some _ _ _ Hp) as Hlt.
    pose proof (holding_insert _ p pcCanceling pcReturnedErr Hp) as Hh. simpl in Hh.
    pose proof (cinv_used _ _ HI) as Hused. unfold granted in Hused. rewrite Hsend in Hused.
    pose proof (wg_same_length _ _ Hwg) as Hobjs.
    split; [split; simpl|].
    + exact Hinv'.
    + rewrite length_insert, Hobjs. apply (cinv_len _ _ HI).
    + intros q Hq. rewrite Hst in Hq. assert (q <> p) by congruence.
      rewrite list_lookup_insert_ne by congruence. apply (cinv_waiting _ _ HI), Hq.
    + intros q Hq. rewrite Hst in Hq. destruct (decide (q = p)) as [->|Hqp].
      * right. split; [apply list_lookup_insert_eq, Hlt | exact Hout].
      * rewrite list_lookup_insert_ne by congruence.
        destruct (cinv_canceled _ _ HI q Hq) as [Hq'|[Hq' Hout']]; [auto|].
        right. split; [exact Hq'|]. rewrite Hel. tauto.
    + intros q Hq. rewrite Hst in Hq. assert (q <> p) as Hqp by congruence.
      rewrite list_lookup_insert_ne by congruence.
      destruct (cinv_acquired _ _ HI q Hq) as [[_ [t Ht]]|Hq']; [congruence | auto].
    + intros; discriminate.
    + unfold granted; simpl. lia.
    + split; [congruence | lia].
    + intros q Hq. rewrite Hst. exact Hq.
Qed.

Lemma steps_Inv n c c' :
  Inv n c -> rtc step c c' ->
  Inv n c' /\
  (forall p, st (sem c) p = Some stateCanceled -> st (sem c') p = Some stateCanceled).
Proof.
  intros HI Hsteps. induction Hsteps as [c|c c1 c' Hstep Hsteps IH]; [auto|].
  destruct (step_Inv n c c1 HI Hstep) as [HI1 Hc1].
  destruct (IH HI1) as [HI' Hc']. auto.
Qed.

Lemma reachable_Inv n c : (0 <= n)%Z -> reachable n c -> Inv n c.
Proof. intros Hn Hr. eapply steps_Inv; [apply Inv_init, Hn | exact Hr]. Qed.

End system_proofs.

(** *** The scenario of the ordering property: capacity 1, slot held,
    [n] waiters queued, then [n] releases *)

(** [WaitAcquire] called once per weight while no slot is free; the result
    carries the requests that were queued, in order. *)
Fixpoint enqueue (s : Prioritized) (ws : list Z) : option (Prioritized * list nat) :=
  match ws with
  | [] => Some (s, [])
  | w :: ws =>
      '(s, a) ← WaitAcquire_locked s w;
      match a with
      | Queued req => '(s, reqs) ← enqueue s ws; Some (s, req :: reqs)
      | Immediate _ => None
      end
  end.

(** [n] releases in a row, each by the current holder of the slot; the
    result carries the requests served, in order. *)
Fixpoint releases (n : nat) (s : Prioritized) : option (Prioritized * list nat) :=
  match n with
  | O => Some (s, [])
  | S n =>
      '(s, g) ← privateRelease s;
      match g with
      | Some q => '(s, qs) ← releases n s; Some (s, q :: qs)
      | None => Some (s, [])
      end
  end.

(** The requests in the order they are granted the slot; request [q] is
    the waiter with weight [ws !! q]. *)
Definition grant_order (ws : list Z) : option (list nat) :=
  s ← NewPrioritized 1;
  '(s, _) ← WaitAcquire_locked s 1;
  '(s, _) ← enqueue s ws;
  '(_, qs) ← releases (length ws) s;
  Some qs.

(** The order the specification states: descending weight, and first come
    first served among equal weights.  Waiters are inserted one by one, in
    the order they queued, behind every waiter of at least their weight. *)
Fixpoint spec_insert (w : nat -> Z) (q : nat) (l : list nat) : list nat :=
  match l with
  | [] => [q]
  | x :: l' => if (w q <=? w x)%Z then x :: spec_insert w q l' else q :: l
  end.

Definition spec_grant_order (ws : list Z) : list nat :=
  fold_left (fun l q => spec_insert (fun q => default 0%Z (ws !! q)) q l)
            (seq 0 (length ws)) [].

Section scenario_proofs.

Definition weight_of (s : Prioritized) (q : nat) : Z := default 0%Z (wg s q).

Lemma StronglySorted_weaken {A} (R R' : A -> A -> Prop) l :
  (forall a b, R a b -> R' a b) -> StronglySorted R l -> StronglySorted R' l.
Proof.
  intros HR. induction 1 as [|a l Hs IH Hf]; constructor; [exact IH|].
  eapply List.Forall_impl; [|exact Hf]. intros b. apply HR.
Qed.

Lemma enqueue_spec ws : forall s,
  sem_inv s -> (capacity s <= used s)%Z ->
  let base := length (objs (queue s)) in
  exists s', enqueue s ws = Some (s', seq base (length ws)) /\ sem_inv s' /\
    capacity s' = capacity s /\ used s' = used s /\
    (forall q, (q < base)%nat -> st s' q = st s q /\ wg s' q = wg s q) /\
    (forall i w, ws !! i = Some w ->
       st s' (base + i)%nat = Some stateWaiting /\ wg s' (base + i)%nat = Some w) /\
    (forall q, q ∈ pq (queue s') <->
               q ∈ pq (queue s) \/ (base <= q < base + length ws)%nat).
Proof.
  induction ws as [|w ws IH]; intros s Hinv Hfull base.
  - exists s. simpl. split_conj; auto.
    + intros i w Hi. discriminate.
    + intros q. split; [auto | intros [H|H]; [exact H | lia]].
  - destruct (WaitAcquire_locked_wait s w Hinv Hfull) as (s1 & HW & Hinv1 & Henq).
    destruct Henq as (Hcap & Hu & _ & Hlen & Hsx & Hwx & Hoth & Hel). fold base in Hlen, Hsx, Hwx, Hoth, Hel, HW.
    destruct (IH s1 Hinv1 ltac:(lia)) as (s' & HE & Hinv' & Hcap' & Hu' & Hold' & Hnew' & Hel').
    rewrite Hlen in HE, Hold', Hnew', Hel'.
    exists s'. simpl. rewrite HW, bind_Some. cbv beta iota. rewrite HE, bind_Some.
    split; [reflexivity|]. split; [exact Hinv'|].
    split; [congruence|]. split; [congruence|]. split_conj.
    + intros q Hq. destruct (Hold' q ltac:(lia)) as [-> ->]. apply Hoth. lia.
    + intros [|i] w' Hi; simpl in Hi.
      * injection Hi as <-. replace (base + 0)%nat with base by lia.
        destruct (Hold' base ltac:(lia)) as [-> ->]. auto.
      * replace (base + S i)%nat with (S base + i)%nat by lia. apply Hnew', Hi.
    + intros q. rewrite Hel', Hel. simpl. split.
      * intros [[->|H]|H]; [right; lia | auto | right; lia].
      * intros [H|H]; [auto|].
        destruct (decide (q = base)) as [->|Hne]; [auto | right; lia].
Qed.

Lemma releases_spec m : forall s,
  sem_inv s ->
  (forall p, p ∈ pq (queue s) -> st s p = Some stateWaiting) ->
  length (pq (queue s)) = m ->
  exists s' qs, releases m s = Some (s', qs) /\ qs ≡ₚ pq (queue s) /\
    StronglySorted (fun a b => (weight_of s b <= weight_of s a)%Z) qs.
Proof.
  induction m as [|m IH]; intros s Hinv Hall Hlen.
  - exists s, []. split; [reflexivity|]. split; [|constructor].
    apply length_zero_iff_nil in Hlen. rewrite Hlen. reflexivity.
  - destruct (privateRelease_spec s Hinv) as (s1 & g & HR & Hinv1 & Hrel).
    destruct Hrel as (Hcap & Hwg & Hsub & Hdrop & Hg).
    simpl. rewrite HR, bind_Some. cbv beta iota.
    destruct g as [q|].
    2:{ exfalso. destruct Hg as (_ & _ & Hnone).
        destruct (pq (queue s)) as [|p l] eqn:Hpq; [discriminate|].
        apply (Hnone p); [apply list_elem_of_here|].
        apply Hall, list_elem_of_here. }
    destruct Hg as (Hu & Hqin & Hqout & Hsq & Hsq' & Hoth & Hmax).
    assert (Hperm : pq (queue s) ≡ₚ q :: pq (queue s1)).
    { apply NoDup_Permutation.
      - apply wf_NoDup, (inv_wf _ Hinv).
      - constructor; [exact Hqout | apply wf_NoDup, (inv_wf _ Hinv1)].
      - intros p. rewrite elem_of_cons. split.
        + intros Hp. destruct (Hdrop p Hp) as [H|[H|H]]; [auto | left; congruence |].
          exfalso. apply H, Hall, Hp.
        + intros [->|Hp]; [exact Hqin | apply Hsub, Hp]. }
    assert (Hall1 : forall p, p ∈ pq (queue s1) -> st s1 p = Some stateWaiting).
    { intros p Hp. rewrite Hoth by (intros ->; contradiction). apply Hall, Hsub, Hp. }
    assert (Hlen1 : length (pq (queue s1)) = m).
    { apply Permutation_length in Hperm. simpl in Hperm. lia. }
    destruct (IH s1 Hinv1 Hall1 Hlen1) as (s' & qs & HRs & Hp' & Hsorted).
    rewrite HRs, bind_Some. exists s', (q :: qs).
    split; [reflexivity|]. split; [rewrite Hperm, Hp'; reflexivity|].
    assert (Hw1 : forall p, weight_of s1 p = weight_of s p)
      by (intros p; unfold weight_of; rewrite Hwg; reflexivity).
    constructor.
    + eapply StronglySorted_weaken; [|exact Hsorted]. (* weights are those of [s] *)
      intros a b. simpl. rewrite !Hw1. auto.
    + apply List.Forall_forall. intros b Hb.
      assert (b ∈ pq (queue s)) as Hbin.
      { apply Hsub. rewrite <- Hp'. apply list_elem_of_In, Hb. }
      assert (exists w, wg s b = Some w) as [w Hw].
      { pose proof (Hall b Hbin) as Hs. unfold st in Hs. unfold wg.
        destruct (objs (queue s) !! b); [eauto | discriminate]. }
      assert (exists wq, wg s q = Some wq) as [wq Hwq].
      { unfold st in Hsq. unfold wg.
        destruct (objs (queue s) !! q); [eauto | discriminate]. }
      unfold weight_of. rewrite Hw, Hwq. simpl.
      eapply Hmax; eauto.
Qed.

End scenario_proofs.

Section properties.

Lemma sorted_by_weight (f g : nat -> Z) qs :
  (forall q, q ∈ qs -> f q = g q) ->
  StronglySorted (fun a b => (f b <= f a)%Z) qs ->
  Sorted (fun x y => (y <= x)%Z) (g <$> qs).
Proof.
  intros Hfg Hs. apply StronglySorted_Sorted.
  induction Hs as [|a l Hs IH Hf]; simpl; constructor.
  - apply IH. intros q Hq. apply Hfg. apply elem_of_cons. auto.
  - apply List.Forall_forall. intros y Hy. apply list_elem_of_In in Hy.
    apply list_elem_of_fmap in Hy as (b & -> & Hb).
    rewrite List.Forall_forall in Hf. specialize (Hf b ltac:(apply list_elem_of_In, Hb)).
    rewrite <- !Hfg; [exact Hf | apply list_elem_of_here | apply elem_of_cons; auto].
Qed.

(** C2, refuted as stated: three waiters of equal weight are not served
    in the order they queued.  The third one is served before the second,
    since [heap.Pop] moves the last request of the queue to the root. *)
Lemma grant_order_not_fifo :
  grant_order [1; 1; 1]%Z = Some [0; 2; 1]%nat /\
  spec_grant_order [1; 1; 1]%Z = [0; 1; 2]%nat /\
  grant_order [1; 1; 1]%Z <> Some (spec_grant_order [1; 1; 1]%Z).
Proof. split_conj; try (vm_compute; reflexivity). vm_compute. discriminate. Qed.

(** C2, amended: for a semaphore of capacity 1 whose slot is held, after
    queueing waiters with weights [ws] and releasing as many times, every
    waiter is granted the slot exactly once and the weights of the waiters,
    in the order they are granted, are descending.  The order among waiters
    of equal weight is the one the binary heap yields; it need not be the
    order in which they queued. *)
Theorem grant_order_descending (ws : list Z) :
  exists qs, grant_order ws = Some qs /\
    qs ≡ₚ seq 0 (length ws) /\
    Sorted (fun x y => (y <= x)%Z) ((fun q => default 0%Z (ws !! q)) <$> qs).
Proof.
  unfold grant_order. rewrite NewPrioritized_eq, bind_Some.
  rewrite WaitAcquire_locked_now by (simpl; lia). rewrite bind_Some. cbv beta iota.
  simpl capacity. simpl used. simpl queue.
  set (s0 := mkPrioritized 1 (0 + 1) (mkHeap [] [])).
  assert (sem_inv s0) as Hinv0.
  { pose proof (sem_inv_new 1) as [? ? ? ? ?]. split; auto. }
  destruct (enqueue_spec ws s0 Hinv0 ltac:(simpl; lia))
    as (s' & HE & Hinv' & _ & _ & _ & Hnew & Hel).
  simpl in HE, Hnew, Hel. rewrite HE, bind_Some. cbv beta iota.
  assert (Hmem : forall q, q ∈ pq (queue s') <-> (q < length ws)%nat).
  { intros q. rewrite Hel. split; [intros [H|H]; [apply not_elem_of_nil in H; contradiction | lia]
                                  | intros H; right; lia]. }
  assert (Hperm : pq (queue s') ≡ₚ seq 0 (length ws)).
  { apply NoDup_Permutation; [apply wf_NoDup, (inv_wf _ Hinv') | apply NoDup_seq |].
    intros q. rewrite Hmem, elem_of_seq. lia. }
  assert (Hat : forall q, (q < length ws)%nat ->
            st s' q = Some stateWaiting /\ weight_of s' q = default 0%Z (ws !! q)).
  { intros q Hq. destruct (lookup_lt_is_Some_2 ws q Hq) as [w Hw].
    destruct (Hnew q w Hw) as [Hs Hg]. split; [exact Hs|].
    unfold weight_of. rewrite Hg, Hw. reflexivity. }
  destruct (releases_spec (length ws) s' Hinv') as (s'' & qs & HR & Hp & Hsorted).
  { intros p Hp. apply Hat, Hmem, Hp. }
  { rewrite (Permutation_length Hperm). apply length_seq. }
  rewrite HR, bind_Some. exists qs. split; [reflexivity|].
  split; [rewrite Hp; exact Hperm|].
  eapply sorted_by_weight; [|exact Hsorted].
  intros q Hq. apply Hat, Hmem. rewrite <- Hp. exact Hq.
Qed.

(** C10: over every run of [WaitAcquire] and [done] calls (and
    cancellations) on a semaphore of capacity [n >= 0], [used] counts the
    slots granted and not released, and this number never exceeds [n].
    [WaitAcquire] grants at once exactly when [used < capacity], adding one
    to [used]; a release either hands the slot to one waiting request,
    which becomes acquired while [used] and all other requests stay as
    they are, or, when it serves no request, subtracts one from [used]. *)
Theorem Prioritized_slots_bounded (n : Z) (c : config)
    (Hn : (0 <= n)%Z) (Hreach : reachable n c) :
  used (sem c) = Z.of_nat (granted c) /\
  (Z.of_nat (granted c) <= n)%Z /\
  capacity (sem c) = n /\
  (forall w s' tid,
     WaitAcquire_locked (sem c) w = Some (s', Immediate tid) ->
     (used (sem c) < n)%Z /\ used s' = (used (sem c) + 1)%Z) /\
  (forall w, (used (sem c) < n)%Z ->
     exists s', WaitAcquire_locked (sem c) w = Some (s', Immediate (used (sem c)))) /\
  (exists s' g, privateRelease (sem c) = Some (s', g) /\
     match g with
     | Some q =>
         used s' = used (sem c) /\
         st (sem c) q = Some stateWaiting /\ st s' q = Some stateAcquired /\
         (forall p, p <> q -> st s' p = st (sem c) p)
     | None =>
         used s' = (used (sem c) - 1)%Z /\ (forall p, st s' p = st (sem c) p)
     end).
Proof.
  pose proof (reachable_Inv n c Hn Hreach) as HI.
  pose proof (cinv_cap _ _ HI) as [Hcap Hle].
  pose proof (cinv_used _ _ HI) as Hused.
  split; [exact Hused|]. split; [lia|]. split; [exact Hcap|]. split_conj.
  - intros w s' tid HW.
    destruct (Z.lt_ge_cases (used (sem c)) (capacity (sem c))) as [Hfree|Hfull].
    + rewrite (WaitAcquire_locked_now _ w Hfree) in HW. injection HW as <- <-.
      simpl. split; [lia | reflexivity].
    + destruct (WaitAcquire_locked_wait (sem c) w (cinv_sem _ _ HI) Hfull)
        as (s'' & HW' & _). congruence.
  - intros w Hfree. eexists. apply WaitAcquire_locked_now. lia.
  - destruct (privateRelease_spec (sem c) (cinv_sem _ _ HI)) as (s' & g & HR & _ & Hrel).
    exists s', g. split; [exact HR|].
    destruct Hrel as (_ & _ & _ & _ & Hg). destruct g as [q|].
    + destruct Hg as (Hu & _ & _ & Hsq & Hsq' & Hoth & _). auto.
    + destruct Hg as (Hu & Hsame & _). auto.
Qed.

(** A semaphore of capacity 1 after one [WaitAcquire] that got the slot
    and a second one, of weight 5, that was queued. *)
Definition one_waiting : config :=
  mkConfig (mkPrioritized 1 1 (mkHeap [0%nat] [mkRequest 5 0 stateWaiting]))
           [pcSelect] [0%Z] None.

Lemma one_waiting_reachable : reachable 1 one_waiting.
Proof.
  unfold reachable.
  eapply rtc_l. { eapply (step_acquire_now (init 1) 1%Z); reflexivity. }
  eapply rtc_l. { eapply (step_acquire_wait _ 5%Z); reflexivity. }
  apply rtc_refl.
Qed.

Lemma Prioritized_slots_bounded_witness :
  (0 <= 1)%Z /\ reachable 1 one_waiting /\
  used (sem one_waiting) = Z.of_nat (granted one_waiting) /\
  (Z.of_nat (granted one_waiting) <= 1)%Z.
Proof.
  assert (0 <= 1)%Z as H0 by lia.
  pose proof one_waiting_reachable as Hr.
  split; [exact H0|]. split; [exact Hr|].
  pose proof (Prioritized_slots_bounded 1 one_waiting H0 Hr) as (H1 & H2 & _).
  split; [exact H1 | exact H2].
Defined.

(** C3: a waiter canceled while queued never gets a slot.  In every
    reachable state of a semaphore of capacity [n >= 0]:
    - a request whose state is canceled stays canceled through all later
      steps, and its goroutine is returning, or has returned, the
      cancellation cause; it is never a holder;
    - the goroutine that won the cancel CAS can always finish: it removes
      the request from the queue, if it is still there, and returns;
    - a release serves a request that was waiting, never a canceled one,
      and that request has the largest weight among the waiting ones; it
      serves nobody only if no request is waiting;
    - when a grant races with the cancellation of the same waiter, the
      cancel CAS fails and the waiter takes the slot;
    - [used] equals the number of slots granted and not released: no slot
      is lost or released twice. *)
Theorem canceled_waiter_is_skipped (n : Z) (c : config)
    (Hn : (0 <= n)%Z) (Hreach : reachable n c) :
  (forall p c', st (sem c) p = Some stateCanceled -> rtc step c c' ->
     st (sem c') p = Some stateCanceled /\
     (waiters c' !! p = Some pcCanceling \/ waiters c' !! p = Some pcReturnedErr)) /\
  (forall p, waiters c !! p = Some pcCanceling -> sending c = None ->
     exists s', cancel_remove (sem c) p = Some s' /\
       step c (mkConfig s' (<[p := pcReturnedErr]> (waiters c)) (direct c) None)) /\
  (exists s' g, privateRelease (sem c) = Some (s', g) /\
     match g with
     | Some q =>
         st (sem c) q = Some stateWaiting /\ st s' q = Some stateAcquired /\
         (forall p w wq, st (sem c) p = Some stateWaiting ->
            wg (sem c) p = Some w -> wg (sem c) q = Some wq -> (w <= wq)%Z)
     | None => forall p, st (sem c) p <> Some stateWaiting
     end) /\
  (forall p tid, sending c = Some (p, tid) ->
     cancel_CAS (sem c) p = Some (sem c, false) /\
     step c (mkConfig (sem c) (<[p := pcHolding tid]> (waiters c)) (direct c) None)) /\
  used (sem c) = Z.of_nat (granted c).
Proof.
  pose proof (reachable_Inv n c Hn Hreach) as HI.
  pose proof (cinv_sem _ _ HI) as Hsem.
  split_conj.
  - intros p c' Hp Hsteps.
    destruct (steps_Inv n c c' HI Hsteps) as [HI' Hc']. specialize (Hc' p Hp).
    split; [exact Hc'|].
    destruct (cinv_canceled _ _ HI' p Hc') as [H|[H _]]; auto.
  - intros p Hp Hsend.
    pose proof (st_of_canceling _ _ _ HI Hp) as Hc.
    destruct (cancel_remove_spec (sem c) p Hsem Hc) as (s' & HC & _).
    exists s'. split; [exact HC|]. apply step_cancel_remove; assumption.
  - destruct (privateRelease_spec (sem c) Hsem) as (s' & g & HR & _ & Hrel).
    exists s', g. split; [exact HR|].
    destruct Hrel as (_ & _ & _ & _ & Hg). destruct g as [q|].
    + destruct Hg as (_ & _ & _ & Hsq & Hsq' & _ & Hmax). split_conj; auto.
      intros p w wq Hp. apply Hmax; [|exact Hp]. apply (inv_waiting _ Hsem), Hp.
    + destruct Hg as (_ & _ & Hnone). intros p Hp.
      apply (Hnone p); [|exact Hp]. apply (inv_waiting _ Hsem), Hp.
  - intros p tid Hsend. destruct (cinv_sending _ _ HI p tid Hsend) as [Ha Hp].
    pose proof (cancel_CAS_not_waiting _ _ _ Ha ltac:(discriminate)) as HC.
    split; [exact HC|]. eapply step_cancel_lost; eassumption.
  - apply (cinv_used _ _ HI).
Qed.

(** The state above after the context of the queued waiter was canceled
    and its CAS succeeded. *)
Definition one_canceled : config :=
  mkConfig (mkPrioritized 1 1 (mkHeap [0%nat] [mkRequest 5 0 stateCanceled]))
           [pcCanceling] [0%Z] None.

Lemma one_canceled_reachable : reachable 1 one_canceled.
Proof.
  eapply rtc_r; [apply one_waiting_reachable|].
  eapply (step_cancel one_waiting 0%nat); reflexivity.
Qed.

Lemma canceled_waiter_is_skipped_witness :
  (0 <= 1)%Z /\ reachable 1 one_canceled /\
  (forall p c', st (sem one_canceled) p = Some stateCanceled -> rtc step one_canceled c' ->
     st (sem c') p = Some stateCanceled /\
     (waiters c' !! p = Some pcCanceling \/ waiters c' !! p = Some pcReturnedErr)).
Proof.
  assert (0 <= 1)%Z as H0 by lia.
  pose proof one_canceled_reachable as Hr.
  split; [exact H0|]. split; [exact Hr|].
  exact (proj1 (canceled_waiter_is_skipped 1 one_canceled H0 Hr)).
Defined.

(** The scenario of [TestPrioritized_SkipCanceledRequest]: waiters of
    weight 10, 20 and 1 queue behind the holder, the first is canceled,
    and the releases serve the one of weight 20, then the one of weight 1. *)
Example SkipCanceledRequest :
  (s ← NewPrioritized 1;
   '(s, _) ← WaitAcquire_locked s 1;
   '(s, _) ← enqueue s [10; 20; 1]%Z;
   '(s, ok) ← cancel_CAS s 0%nat;
   s ← cancel_remove s 0%nat;
   '(s, qs) ← releases 3 s;
   Some (ok, qs, used s)) = Some (true, [1; 2]%nat, 0%Z).
Proof. vm_compute. reflexivity. Qed.

(** The scenario of [TestPrioritized_MultiCapacityPrioritization]. *)
Definition multi_capacity_scenario (ws : list Z) : option (list Z) :=
  s ← NewPrioritized 3;
  '(s, _) ← WaitAcquire_locked s 1;
  '(s, _) ← WaitAcquire_locked s 1;
  '(s, _) ← WaitAcquire_locked s 1;
  '(s, _) ← enqueue s ws;
  '(s, qs) ← releases (length ws) s;
  Some ((fun q : nat => default 0%Z (ws !! q)) <$> (qs : list nat)).

Example MultiCapacityPrioritization :
  multi_capacity_scenario [10; 1; 50; 5; 20]%Z = Some [50; 20; 10; 5; 1]%Z.
Proof. vm_compute. reflexivity. Qed.

End properties.

(* ----------------------------------------------------------------- *)
(** *** The priority queue under [container/heap] *)

Section heap_properties.
Local Open Scope nat_scope.

Lemma popped_Permutation h h' x :
  wf h -> popped h h' x -> pq h ≡ₚ x :: pq h'.
Proof.
  intros Hwf [Pw Po Pl Pe Pout Pr Poff Pi]. apply NoDup_Permutation.
  - apply wf_NoDup, Hwf.
  - constructor; [exact Pout | apply wf_NoDup, Pw].
  - intros p. rewrite elem_of_cons. apply Pe.
Qed.

Lemma popped_index_field h h' x :
  popped h h' x -> index <$> objs h' !! x = Some (-1)%Z.
Proof. intros [_ _ _ _ _ _ _ (r & -> & Hi)]. simpl. congruence. Qed.

(** A queue of two requests, the heavier one at the root. *)
Definition two_queue : pqheap :=
  mkHeap [0; 1] [mkRequest 5 0 stateWaiting; mkRequest 3 1 stateWaiting].

Lemma two_queue_wf : wf two_queue.
Proof.
  intros [|[|k]] p Hk; simpl in Hk; try discriminate; injection Hk as <-;
    eexists; split; reflexivity.
Qed.

Lemma two_queue_ord : heapord two_queue (length (pq two_queue)).
Proof.
  intros k Hk. simpl in Hk. assert (k = 1) as -> by lia.
  unfold ord. vm_compute. discriminate.
Qed.

(** X17: [heap.Pop] on the queue returns a request of the largest weight.
    On a well-formed queue in heap order that is not empty, it returns the
    request at the root, no queued request is heavier, the queue loses that
    request and nothing else, stays well formed and in heap order, and the
    [index] of the request returned is [-1]; no weight or state changes.  On
    an empty queue [heap.Pop] panics. *)
Theorem heap_Pop_returns_heaviest (h : pqheap)
    (Hwf : wf h) (Hord : heapord h (length (pq h))) :
  (pq h = [] -> heap.HPop h = None) /\
  (pq h <> [] ->
     exists h' x r, heap.HPop h = Some (h', x) /\
       pq h !! 0 = Some x /\ objs h !! x = Some r /\
       (forall p r', p ∈ pq h -> objs h !! p = Some r' -> (weight r' <= weight r)%Z) /\
       pq h ≡ₚ x :: pq h' /\
       wf h' /\ heapord h' (length (pq h')) /\
       index <$> objs h' !! x = Some (-1)%Z /\
       same_reqs (objs h) (objs h')).
Proof.
  split.
  - intros Hnil. unfold heap.HPop. change (heap.Len h) with (length (pq h)).
    rewrite Hnil. reflexivity.
  - intros Hne.
    assert (0 < length (pq h)) as Hlen by (destruct (pq h); [contradiction | simpl; lia]).
    destruct (HPop_spec h Hwf Hord Hlen) as (h' & x & HP & Hx & Hpop).
    destruct (Hwf _ _ Hx) as (r & Hr & _).
    exists h', x, r. split_conj; auto.
    + intros p r' Hp Hr'.
      apply (root_max h x p (weight r') (weight r) Hwf Hord Hx Hp);
        [rewrite Hr' | rewrite Hr]; reflexivity.
    + apply popped_Permutation; assumption.
    + apply (popped_wf _ _ _ Hpop).
    + apply (popped_ord _ _ _ Hpop).
    + eapply popped_index_field, Hpop.
    + apply (popped_reqs _ _ _ Hpop).
Qed.

Lemma heap_Pop_returns_heaviest_witness :
  wf two_queue /\ heapord two_queue (length (pq two_queue)) /\
  pq two_queue <> [] /\
  exists h' x r, heap.HPop two_queue = Some (h', x) /\
    pq two_queue !! 0 = Some x /\ objs two_queue !! x = Some r /\
    (forall p r', p ∈ pq two_queue -> objs two_queue !! p = Some r' ->
                  (weight r' <= weight r)%Z) /\
    pq two_queue ≡ₚ x :: pq h' /\
    wf h' /\ heapord h' (length (pq h')) /\
    index <$> objs h' !! x = Some (-1)%Z /\
    same_reqs (objs two_queue) (objs h').
Proof.
  assert (pq two_queue <> []) as Hne by discriminate.
  exact (conj two_queue_wf (conj two_queue_ord (conj Hne
           (proj2 (heap_Pop_returns_heaviest two_queue two_queue_wf two_queue_ord) Hne)))).
Defined.

(** X18: [heap.Push] keeps the queue a heap.  Pushing a request that is not
    queued onto a well-formed queue in heap order adds that request and
    nothing else and leaves the queue well formed (every [index] field is the
    position of its request) and in heap order; no weight or state changes. *)
Theorem heap_Push_keeps_heap (h : pqheap) (x : nat)
    (Hwf : wf h) (Hord : heapord h (length (pq h)))
    (Hx : x < length (objs h)) (Hout : x ∉ pq h) :
  exists h', heap.HPush h x = Some h' /\
    pq h' ≡ₚ x :: pq h /\
    wf h' /\ heapord h' (length (pq h')) /\
    same_reqs (objs h) (objs h').
Proof.
  destruct (HPush_spec h x Hwf Hord Hx Hout) as (h' & HP & [Pw Po Pl Pe Pr Poff]).
  exists h'. split_conj; auto.
  apply NoDup_Permutation.
  - apply wf_NoDup, Pw.
  - constructor; [exact Hout | apply wf_NoDup, Hwf].
  - intros p. rewrite elem_of_cons. apply Pe.
Qed.

(** The queue above with a third request, of weight 9, not yet queued. *)
Definition two_queue_and_one : pqheap :=
  mkHeap [0; 1] [mkRequest 5 0 stateWaiting; mkRequest 3 1 stateWaiting;
                 mkRequest 9 0 stateWaiting].

Lemma two_queue_and_one_wf : wf two_queue_and_one.
Proof.
  intros [|[|k]] p Hk; simpl in Hk; try discriminate; injection Hk as <-;
    eexists; split; reflexivity.
Qed.

Lemma two_queue_and_one_ord : heapord two_queue_and_one (length (pq two_queue_and_one)).
Proof.
  intros k Hk. simpl in Hk. assert (k = 1) as -> by lia.
  unfold ord. vm_compute. discriminate.
Qed.

Lemma heap_Push_keeps_heap_witness :
  wf two_queue_and_one /\
  heapord two_queue_and_one (length (pq two_queue_and_one)) /\
  2 < length (objs two_queue_and_one) /\ (2 ∉ pq two_queue_and_one) /\
  exists h', heap.HPush two_queue_and_one 2 = Some h' /\
    pq h' ≡ₚ 2 :: pq two_queue_and_one /\
    wf h' /\ heapord h' (length (pq h')) /\
    same_reqs (objs two_queue_and_one) (objs h').
Proof.
  assert (2 < length (objs two_queue_and_one)) as Hx by (simpl; lia).
  assert (2 ∉ pq two_queue_and_one) as Hout.
  { simpl. intros H. apply elem_of_cons in H as [H|H]; [discriminate|].
    apply elem_of_cons in H as [H|H]; [discriminate|].
    apply not_elem_of_nil in H. exact H. }
  exact (conj two_queue_and_one_wf (conj two_queue_and_one_ord (conj Hx (conj Hout
           (heap_Push_keeps_heap two_queue_and_one 2 two_queue_and_one_wf
              two_queue_and_one_ord Hx Hout))))).
Defined.

(** X19: [heap.Remove] takes out the request at the given position.  On a
    well-formed queue in heap order, [heap.Remove(i)] with [i] in range
    returns the request at position [i]; the queue loses that request and
    nothing else and stays well formed and in heap order, and the [index] of
    the request returned is [-1].  With [i] out of range it panics. *)
Theorem heap_Remove_takes_position (h : pqheap) (i : nat)
    (Hwf : wf h) (Hord : heapord h (length (pq h))) :
  (length (pq h) <= i -> heap.Remove h i = None) /\
  (i < length (pq h) ->
     exists h' x, heap.Remove h i = Some (h', x) /\
       pq h !! i = Some x /\
       pq h ≡ₚ x :: pq h' /\
       wf h' /\ heapord h' (length (pq h')) /\
       index <$> objs h' !! x = Some (-1)%Z /\
       same_reqs (objs h) (objs h')).
Proof.
  split.
  - intros Hi. unfold heap.Remove. change (heap.Len h) with (length (pq h)).
    destruct (Nat.eqb_spec (length (pq h)) 0) as [|Hn]; [reflexivity|].
    destruct (Nat.eqb_spec (length (pq h) - 1) i) as [|_]; [lia|].
    change (heap.Swap h i (length (pq h) - 1)) with (pq_Swap h i (length (pq h) - 1)).
    unfold pq_Swap. rewrite (lookup_ge_None_2 (pq h) i) by lia. reflexivity.
  - intros Hi.
    destruct (Remove_spec h i Hwf Hord Hi) as (h' & x & HR & Hx & Hpop).
    exists h', x. split_conj; auto.
    + apply popped_Permutation; assumption.
    + apply (popped_wf _ _ _ Hpop).
    + apply (popped_ord _ _ _ Hpop).
    + eapply popped_index_field, Hpop.
    + apply (popped_reqs _ _ _ Hpop).
Qed.

Lemma heap_Remove_takes_position_witness :
  wf two_queue /\ heapord two_queue (length (pq two_queue)) /\
  1 < length (pq two_queue) /\
  exists h' x, heap.Remove two_queue 1 = Some (h', x) /\
    pq two_queue !! 1 = Some x /\
    pq two_queue ≡ₚ x :: pq h' /\
    wf h' /\ heapord h' (length (pq h')) /\
    index <$> objs h' !! x = Some (-1)%Z /\
    same_reqs (objs two_queue) (objs h').
Proof.
  assert (1 < length (pq two_queue)) as Hi by (simpl; lia).
  exact (conj two_queue_wf (conj two_queue_ord (conj Hi
           (proj2 (heap_Remove_takes_position two_queue 1 two_queue_wf two_queue_ord) Hi)))).
Defined.

End heap_properties.

(* ----------------------------------------------------------------- *)
(** *** More invariants of the semaphore *)

Section more_invariants.

(** A release that serves nobody leaves the queue empty. *)
Lemma privateRelease_loop_None fuel : forall s s',
  (length (pq (queue s)) <= fuel)%nat ->
  privateRelease_loop fuel s = Some (s', None) -> pq (queue s') = [].
Proof.
  induction fuel as [|fuel IH]; intros s s' Hf H.
  - simpl in H. injection H as <-. simpl. apply length_zero_iff_nil. lia.
  - simpl in H. unfold pq_Len in H.
    destruct (Nat.ltb_spec 0 (length (pq (queue s)))) as [Hpos|Hz].
    2:{ injection H as <-. simpl. apply length_zero_iff_nil. lia. }
    destruct (heap.HPop (queue s)) as [[h x]|] eqn:HP; simpl in H; [|discriminate].
    apply HPop_length in HP.
    destruct (CompareAndSwap (objs h) x stateWaiting stateAcquired) as [[m [|]]|];
      simpl in H; try discriminate.
    eapply IH; [|exact H]. simpl. lia.
Qed.

(** The slot ids in use: those of the slots acquired without waiting, those
    of the waiters that were served, and the one in transit. *)
Definition slot_ids_below (n : Z) (c : config) : Prop :=
  (forall tid, tid ∈ direct c -> (0 <= tid < n)%Z) /\
  (forall p tid, waiters c !! p = Some (pcHolding tid) -> (0 <= tid < n)%Z) /\
  (forall p tid, sending c = Some (p, tid) -> (0 <= tid < n)%Z).

(** No slot is free while a request is queued. *)
Definition no_idle_slot (c : config) : Prop :=
  pq (queue (sem c)) <> [] -> used (sem c) = capacity (sem c).

Lemma WaitAcquire_locked_Immediate s w s' tid :
  WaitAcquire_locked s w = Some (s', Immediate tid) ->
  (used s < capacity s)%Z /\ tid = used s /\
  s' = mkPrioritized (capacity s) (used s + 1) (queue s).
Proof.
  unfold WaitAcquire_locked. destruct (Z.ltb_spec (used s) (capacity s)) as [Hlt|Hge].
  - intros [= <- <-]. auto.
  - destruct (heap.HPush _ _); simpl; intros H; discriminate.
Qed.

Lemma WaitAcquire_locked_Queued s w s' req :
  WaitAcquire_locked s w = Some (s', Queued req) ->
  (capacity s <= used s)%Z /\ used s' = used s /\ capacity s' = capacity s.
Proof.
  unfold WaitAcquire_locked. destruct (Z.ltb_spec (used s) (capacity s)) as [Hlt|Hge].
  - intros H. discriminate.
  - destruct (heap.HPush _ _); simpl; intros H; [|discriminate].
    injection H as <- _. auto.
Qed.

Lemma cancel_CAS_frame s p s' ok :
  cancel_CAS s p = Some (s', ok) ->
  used s' = used s /\ capacity s' = capacity s /\ pq (queue s') = pq (queue s).
Proof.
  unfold cancel_CAS.
  destruct (CompareAndSwap _ _ _ _) as [[m b]|]; simpl; intros H; [|discriminate].
  injection H as <- _. auto.
Qed.

Lemma lookup_insert_holding (l : list pc) p x q tid :
  <[p := x]> l !! q = Some (pcHolding tid) ->
  x = pcHolding tid \/ l !! q = Some (pcHolding tid).
Proof.
  intros H. apply list_lookup_insert_Some in H as [(_ & <- & _)|[_ H]]; auto.
Qed.

Lemma step_more_invariants n c c' :
  Inv n c -> no_idle_slot c /\ slot_ids_below n c -> step c c' ->
  no_idle_slot c' /\ slot_ids_below n c'.
Proof.
  intros HI [Hidle (Hd & Hw & Hs)] Hstep.
  pose proof (cinv_sem _ _ HI) as Hsem.
  pose proof (cinv_cap _ _ HI) as [Hcn Hle].
  pose proof (cinv_used _ _ HI) as Hused.
  unfold no_idle_slot, slot_ids_below in *.
  destruct Hstep as [c w s' tid Hsend HW | c w s' req Hsend HW
                    | c i tid s' g Hsend Hdi HR | c p tid s' g Hsend Hp HR
                    | c p tid Hsend Hp | c p s' Hp HC | c p tid s' Hp HC Hsend
                    | c p s' Hsend Hp HC]; simpl.
  - (* acquire, free slot *)
    apply WaitAcquire_locked_Immediate in HW as (Hfree & -> & ->). simpl.
    split_conj.
    + intros Hne. specialize (Hidle Hne). lia.
    + intros tid Ht. apply elem_of_cons in Ht as [->|Ht]; [lia | auto].
    + exact Hw.
    + intros p tid H. discriminate.
  - (* acquire, queued *)
    apply WaitAcquire_locked_Queued in HW as (Hfull & -> & ->).
    split_conj; [intros _; lia | exact Hd | | intros p tid H; discriminate].
    intros p tid H. apply lookup_app_Some in H as [H|[_ H]]; [eauto|].
    destruct (p - length (waiters c))%nat; simpl in H; discriminate.
  - (* release by a direct holder *)
    assert (0 <= tid < n)%Z as Htid by (eapply Hd, list_elem_of_lookup_2, Hdi).
    destruct (privateRelease_spec (sem c) Hsem) as (s'' & g' & HR' & _ & Hrel).
    rewrite HR in HR'. injection HR' as <- <-.
    destruct Hrel as (Hcap & _ & _ & _ & Hg).
    split_conj.
    + destruct g as [q|].
      * destruct Hg as (Hu & Hq & _). intros _.
        rewrite Hu, Hcap. apply Hidle. intros Hnil. rewrite Hnil in Hq.
        apply not_elem_of_nil in Hq. exact Hq.
      * intros Hne. exfalso. apply Hne.
        eapply (privateRelease_loop_None _ (sem c)); [|exact HR]. unfold pq_Len. lia.
    + intros t Ht. apply Hd. eapply list_elem_of_delete_inv, Ht.
    + exact Hw.
    + intros p t H. destruct g; simpl in H; [injection H as _ <-; exact Htid | discriminate].
  - (* release by a served waiter *)
    assert (0 <= tid < n)%Z as Htid by (eapply Hw, Hp).
    destruct (privateRelease_spec (sem c) Hsem) as (s'' & g' & HR' & _ & Hrel).
    rewrite HR in HR'. injection HR' as <- <-.
    destruct Hrel as (Hcap & _ & _ & _ & Hg).
    split_conj.
    + destruct g as [q|].
      * destruct Hg as (Hu & Hq & _). intros _.
        rewrite Hu, Hcap. apply Hidle. intros Hnil. rewrite Hnil in Hq.
        apply not_elem_of_nil in Hq. exact Hq.
      * intros Hne. exfalso. apply Hne.
        eapply (privateRelease_loop_None _ (sem c)); [|exact HR]. unfold pq_Len. lia.
    + exact Hd.
    + intros q t H. apply lookup_insert_holding in H as [H|H]; [discriminate | eauto].
    + intros q t H. destruct g; simpl in H; [injection H as _ <-; exact Htid | discriminate].
  - (* receive *)
    split_conj; [exact Hidle | exact Hd | | intros q t H; discriminate].
    intros q t H. apply lookup_insert_holding in H as [H|H]; [|eauto].
    injection H as <-. eauto.
  - (* cancel *)
    apply cancel_CAS_frame in HC as (-> & -> & ->).
    split_conj; [exact Hidle | exact Hd | | exact Hs].
    intros q t H. apply lookup_insert_holding in H as [H|H]; [discriminate | eauto].
  - (* cancel lost the race *)
    apply cancel_CAS_frame in HC as (-> & -> & ->).
    split_conj; [exact Hidle | exact Hd | | intros q t H; discriminate].
    intros q t H. apply lookup_insert_holding in H as [H|H]; [|eauto].
    injection H as <-. eauto.
  - (* removal after cancel *)
    pose proof (st_of_canceling _ _ _ HI Hp) as Hc.
    destruct (cancel_remove_spec (sem c) p Hsem Hc)
      as (s'' & HC' & _ & Hcap & Hu & _ & _ & _ & Hel).
    rewrite HC in HC'. injection HC' as <-.
    split_conj; [| exact Hd | | intros q t H; discriminate].
    + intros Hne. rewrite Hu, Hcap. apply Hidle. intros Hnil.
      destruct (pq (queue s')) as [|q l] eqn:E; [contradiction|].
      assert (q ∈ pq (queue (sem c))) as Hq by (apply Hel; apply list_elem_of_here).
      rewrite Hnil in Hq. apply not_elem_of_nil in Hq. exact Hq.
    + intros q t H. apply lookup_insert_holding in H as [H|H]; [discriminate | eauto].
Qed.

Lemma reachable_more_invariants n c :
  (0 <= n)%Z -> reachable n c -> Inv n c /\ no_idle_slot c /\ slot_ids_below n c.
Proof.
  intros Hn Hreach. unfold reachable in Hreach.
  revert c Hreach.
  apply (rtc_ind_r (R := step)
           (fun c => Inv n c /\ no_idle_slot c /\ slot_ids_below n c) (init n)).
  - split; [apply Inv_init, Hn|]. split.
    + unfold no_idle_slot. simpl. intros H. exfalso. apply H. reflexivity.
    + unfold slot_ids_below. split_conj; simpl.
      * intros tid H. apply not_elem_of_nil in H. contradiction.
      * intros p tid H. discriminate.
      * intros p tid H. discriminate.
  - intros c1 c2 _ Hstep [HI HP]. split.
    + apply (step_Inv n c1 c2 HI Hstep).
    + apply (step_more_invariants n c1 c2 HI HP Hstep).
Qed.

(** X20: the semaphore is work conserving.  In every reachable state, if the
    queue is not empty then all slots are in use: [WaitAcquire] queues a
    request only when no slot is free, and a release gives a slot back
    ([used--]) only after it has emptied the queue.  So a request never
    waits in the queue while a slot is free. *)
Theorem queue_empty_while_slot_free (n : Z) (c : config)
    (Hn : (0 <= n)%Z) (Hreach : reachable n c) :
  (pq (queue (sem c)) <> [] -> used (sem c) = n) /\
  ((used (sem c) < n)%Z ->
     pq (queue (sem c)) = [] /\ forall p, st (sem c) p <> Some stateWaiting).
Proof.
  destruct (reachable_more_invariants n c Hn Hreach) as (HI & Hidle & _).
  pose proof (cinv_cap _ _ HI) as [Hcn Hle]. unfold no_idle_slot in Hidle.
  rewrite Hcn in Hidle. split; [exact Hidle|].
  intros Hfree.
  assert (pq (queue (sem c)) = []) as Hnil.
  { destruct (pq (queue (sem c))) as [|q l] eqn:E; [reflexivity|].
    specialize (Hidle ltac:(discriminate)). lia. }
  split; [exact Hnil|].
  intros p Hp. apply (inv_waiting _ (cinv_sem _ _ HI)) in Hp.
  rewrite Hnil in Hp. apply not_elem_of_nil in Hp. exact Hp.
Qed.

Lemma queue_empty_while_slot_free_witness :
  (0 <= 1)%Z /\ reachable 1 one_waiting /\
  (pq (queue (sem one_waiting)) <> [] -> used (sem one_waiting) = 1%Z).
Proof.
  assert (0 <= 1)%Z as H0 by lia.
  exact (conj H0 (conj one_waiting_reachable
           (proj1 (queue_empty_while_slot_free 1 one_waiting H0 one_waiting_reachable)))).
Defined.

(** A semaphore of capacity 2 on which two slots were acquired, the first
    one released and a slot acquired again. *)
Definition reacquired : config :=
  mkConfig (mkPrioritized 2 2 (mkHeap [] [])) [] [1%Z; 1%Z] None.

Lemma reacquired_reachable : reachable 2 reacquired.
Proof.
  unfold reachable.
  eapply rtc_l. { eapply (step_acquire_now (init 2) 1%Z); reflexivity. }
  eapply rtc_l. { eapply (step_acquire_now _ 1%Z); reflexivity. }
  eapply rtc_l. { eapply (step_release_direct _ 1%nat 0%Z); reflexivity. }
  eapply rtc_l. { eapply (step_acquire_now _ 1%Z); reflexivity. }
  apply rtc_refl.
Qed.

(** X21: the slot id [tid] given to a holder is a number from [0] to
    [capacity - 1], in every reachable state and for every holder, also for
    a slot that is being handed over.  The ids of two holders can be equal
    though: an immediate grant takes the current value of [used] as its id,
    which another holder may still carry. *)
Theorem slot_ids_in_range (n : Z) (c : config)
    (Hn : (0 <= n)%Z) (Hreach : reachable n c) :
  (forall tid, tid ∈ direct c -> (0 <= tid < n)%Z) /\
  (forall p tid, waiters c !! p = Some (pcHolding tid) -> (0 <= tid < n)%Z) /\
  (forall p tid, sending c = Some (p, tid) -> (0 <= tid < n)%Z) /\
  (exists c2, reachable 2 c2 /\ direct c2 = [1; 1]%Z).
Proof.
  destruct (reachable_more_invariants n c Hn Hreach) as (_ & _ & Hd & Hw & Hs).
  split_conj; [exact Hd | exact Hw | exact Hs|].
  exists reacquired. split; [apply reacquired_reachable | reflexivity].
Qed.

Lemma slot_ids_in_range_witness :
  (0 <= 2)%Z /\ reachable 2 reacquired /\
  (forall tid, tid ∈ direct reacquired -> (0 <= tid < 2)%Z).
Proof.
  assert (0 <= 2)%Z as H0 by lia.
  exact (conj H0 (conj reacquired_reachable
           (proj1 (slot_ids_in_range 2 reacquired H0 reacquired_reachable)))).
Defined.

End more_invariants.

(* ----------------------------------------------------------------- *)
(** *** [Do], called while no other goroutine uses the semaphore *)

Section Do.

(** Go [error] values; [Do] only passes them on. *)
Variable error : Type.

(** A context that is done: the values of [ctx.Err()] and
    [context.Cause(ctx)]. *)
Record done_ctx := mkDone { ctx_Err : error; ctx_Cause : error }.

(** How [WaitAcquire] ends when the caller is the only goroutine: with a
    slot, with the cause of its context, or never, because nobody is there
    to send on [req.ready]. *)
Inductive acquire_end := Slot (tid : Z) | Canceled (cause : error) | Waits.

(** [WaitAcquire]; [ctx] is [None] for a context that is never done.  A
    queued request sits in the [select] until the context is done. *)
Definition WaitAcquire (s : Prioritized) (ctx : option done_ctx) (w : Z)
  : option (Prioritized * acquire_end) :=
  '(s, a) ← WaitAcquire_locked s w;
  match a with
  | Immediate tid => Some (s, Slot tid)
  | Queued req =>
      match ctx with
      | None => Some (s, Waits)
      | Some d =>
          '(s, ok) ← cancel_CAS s req;
          if (ok : bool) then s ← cancel_remove s req; Some (s, Canceled (ctx_Cause d))
          else Some (s, Waits)                  (* tid := <-req.ready *)
      end
  end.

(** How [Do] ends: it returns [err], having called [f] or not, or it blocks
    for ever. *)
Inductive do_end := Returns (err : option error) (f_called : bool) | Blocks.

(** [Do]; [f] is the error that the function returns when it is called.
    The deferred [done(err)] is [privateRelease], whose send on [req.ready]
    blocks when it picks a queued request, since no goroutine receives. *)
Definition Do (s : Prioritized) (ctx : option done_ctx) (w : Z) (f : option error)
  : option (Prioritized * do_end) :=
  '(s, a) ← WaitAcquire s ctx w;
  match a with
  | Canceled cause => Some (s, Returns (Some cause) false)
  | Waits => Some (s, Blocks)
  | Slot tid =>
      let r := match ctx with
               | Some d => Returns (Some (ctx_Err d)) false   (* ctx.Err() != nil *)
               | None => Returns f true                       (* err = f(ctx) *)
               end in
      '(s, g) ← privateRelease s;
      match g with
      | None => Some (s, r)
      | Some _ => Some (s, Blocks)
      end
  end.


End Do.


End semaphore.

(* ================================================================= *)
(** ** toolsupport/gccutil: deps.go and scandeps.go *)

Module gccutil.

Inductive error :=
  | unsupported_commandline        (* no PWD=/proc/self/cwd prefix *)
  | failed_to_split (arg : string)
  | failed_to_normalize (err : error)
  | failed_to_read (rspfile : string)
  | failed_to_split_rsp (rspfile : string).

Section with_shutil.

(** [shutil.Split], from a package that is not part of the sources at
    hand: it splits a command line into words, or fails. *)
Variable shutil_Split : string -> option (list string).

Definition is_shell (args : list string) : bool :=
  match args with
  | [a0; a1; _] => String.eqb a0 "/bin/sh" && String.eqb a1 "-c"
  | _ => false
  end.

Definition normalizeArgs (args : list string) : list string + error :=
  match args with
  | [a0; a1; a2] =>
      if String.eqb a0 "/bin/sh" && String.eqb a1 "-c" then
        if negb (strings.HasPrefix a2 "PWD=/proc/self/cwd ") then inr unsupported_commandline
        else
          match shutil_Split (strings.TrimPrefix a2 "PWD=/proc/self/cwd ") with
          | None => inr (failed_to_split a2)
          | Some cmdArgs => inl cmdArgs
          end
      else inl args
  | _ => inl args
  end.

(** The loop of [DepsArgs] over the arguments left, with the flag [skip]
    and the arguments kept so far. *)
Fixpoint DepsArgs_loop (args : list string) (skip : bool) (dargs : list string)
  : list string :=
  match args with
  | [] => dargs
  | arg :: args =>
      if skip then DepsArgs_loop args false dargs
      else if String.eqb arg "-MD" || String.eqb arg "-MMD" || String.eqb arg "-c"
      then DepsArgs_loop args skip dargs
      else if String.eqb arg "-MF" || String.eqb arg "-o"
      then DepsArgs_loop args true dargs
      else if strings.HasPrefix arg "-MF" then DepsArgs_loop args skip dargs
      else if strings.HasPrefix arg "-o" then DepsArgs_loop args skip dargs
      else DepsArgs_loop args skip (dargs ++ [arg])
  end.

Definition DepsArgs (args : list string) : list string + error :=
  match normalizeArgs args with
  | inr err => inr (failed_to_normalize err)
  | inl args => inl (DepsArgs_loop args false [] ++ ["-M"%string])
  end.

Lemma normalizeArgs_not_shell (args : list string) :
  is_shell args = false -> normalizeArgs args = inl args.
Proof.
  unfold is_shell, normalizeArgs.
  destruct args as [|a0 [|a1 [|a2 [|a3 args]]]]; try reflexivity.
  intros ->. reflexivity.
Qed.

(** An argument that [DepsArgs] drops wherever it stands: a flag that
    makes the compiler write an object file or a dependency file. *)
Definition output_flag (arg : string) : bool :=
  String.eqb arg "-MD" || String.eqb arg "-MMD" || String.eqb arg "-c"
  || strings.HasPrefix arg "-MF" || strings.HasPrefix arg "-o".

Lemma DepsArgs_loop_spec args : forall skip dargs,
  exists kept, DepsArgs_loop args skip dargs = dargs ++ kept /\
    sublist kept args /\ Forall (fun a => output_flag a = false) kept /\
    (skip = false -> Forall (fun a => output_flag a = false) args -> kept = args).
Proof.
  induction args as [|arg args IH]; intros skip dargs.
  - exists []. simpl. rewrite app_nil_r. repeat split; constructor.
  - cbn [DepsArgs_loop]. destruct skip.
    { destruct (IH false dargs) as (kept & -> & Hs & Hk & _).
      exists kept. split_and!; auto; [constructor; exact Hs | discriminate]. }
    unfold output_flag.
    destruct (String.eqb arg "-MD") eqn:E1; cbn [orb].
    { destruct (IH false dargs) as (kept & -> & Hs & Hk & _).
      exists kept. split_and!; auto; [constructor; exact Hs|].
      intros _ Ha. inversion Ha as [|? ? H]; subst. unfold output_flag in H.
      rewrite E1 in H. discriminate. }
    destruct (String.eqb arg "-MMD") eqn:E2; cbn [orb].
    { destruct (IH false dargs) as (kept & -> & Hs & Hk & _).
      exists kept. split_and!; auto; [constructor; exact Hs|].
      intros _ Ha. inversion Ha as [|? ? H]; subst. unfold output_flag in H.
      rewrite E1, E2 in H. discriminate. }
    destruct (String.eqb arg "-c") eqn:E3; cbn [orb].
    { destruct (IH false dargs) as (kept & -> & Hs & Hk & _).
      exists kept. split_and!; auto; [constructor; exact Hs|].
      intros _ Ha. inversion Ha as [|? ? H]; subst. unfold output_flag in H.
      rewrite E1, E2, E3 in H. discriminate. }
    destruct (String.eqb arg "-MF") eqn:E4; cbn [orb].
    { destruct (IH true dargs) as (kept & -> & Hs & Hk & _).
      exists kept. split_and!; auto; [constructor; exact Hs|].
      intros _ Ha. inversion Ha as [|? ? H]; subst. unfold output_flag in H.
      apply String.eqb_eq in E4. subst arg. discriminate. }
    destruct (String.eqb arg "-o") eqn:E5; cbn [orb].
    { destruct (IH true dargs) as (kept & -> & Hs & Hk & _).
      exists kept. split_and!; auto; [constructor; exact Hs|].
      intros _ Ha. inversion Ha as [|? ? H]; subst. unfold output_flag in H.
      apply String.eqb_eq in E5. subst arg. discriminate. }
    destruct (strings.HasPrefix arg "-MF") eqn:E6; cbn [orb].
    { destruct (IH false dargs) as (kept & -> & Hs & Hk & _).
      exists kept. split_and!; auto; [constructor; exact Hs|].
      intros _ Ha. inversion Ha as [|? ? H]; subst. unfold output_flag in H.
      rewrite E1, E2, E3, E6 in H. discriminate. }
    destruct (strings.HasPrefix arg "-o") eqn:E7; cbn [orb].
    { destruct (IH false dargs) as (kept & -> & Hs & Hk & _).
      exists kept. split_and!; auto; [constructor; exact Hs|].
      intros _ Ha. inversion Ha as [|? ? H]; subst. unfold output_flag in H.
      rewrite E1, E2, E3, E6, E7 in H. discriminate. }
    destruct (IH false (dargs ++ [arg])) as (kept & -> & Hs & Hk & Hid).
    exists (arg :: kept). rewrite <- app_assoc. split_and!; auto.
    + constructor. exact Hs.
    + constructor; [|exact Hk]. unfold output_flag. rewrite E1, E2, E3, E6, E7. reflexivity.
    + intros _ Ha. inversion Ha; subst. f_equal. apply Hid; auto.
Qed.

(** X23: [DepsArgs] turns a compile command into one that only prints the
    dependencies.  For a command line [args] that [normalizeArgs] accepts
    as [nargs], the result is a subsequence of [nargs] followed by ["-M"];
    no argument kept is an output flag ([-MD], [-MMD], [-c], or one starting
    with [-MF] or [-o]); and a command line without such flags is kept
    whole.  A command line that is not [/bin/sh -c ...] is taken as it is;
    when [normalizeArgs] fails, [DepsArgs] fails. *)
Theorem DepsArgs_drops_output_flags (args : list string) :
  (is_shell args = false -> normalizeArgs args = inl args) /\
  (forall nargs, normalizeArgs args = inl nargs ->
     exists kept, DepsArgs args = inl (kept ++ ["-M"%string]) /\
       sublist kept nargs /\
       Forall (fun a => output_flag a = false) kept /\
       (Forall (fun a => output_flag a = false) nargs -> kept = nargs)) /\
  (forall err, normalizeArgs args = inr err ->
     DepsArgs args = inr (failed_to_normalize err)).
Proof.
  split_and!.
  - unfold is_shell, normalizeArgs.
    destruct args as [|a0 [|a1 [|a2 [|a3 args]]]]; try reflexivity.
    intros ->. reflexivity.
  - intros nargs Hn. unfold DepsArgs. rewrite Hn.
    destruct (DepsArgs_loop_spec nargs false []) as (kept & -> & Hs & Hk & Hid).
    exists kept. simpl. split_and!; auto.
  - intros err Hn. unfold DepsArgs. rewrite Hn. reflexivity.
Qed.

(** [defineMacro]; the map [defines] is updated in place, so it is
    returned.  [value[0]] is the first byte of a value that is not empty. *)
Definition defineMacro (defines : gmap string string) (arg : string)
  : gmap string string :=
  let '(macro, value, ok) := strings.Cut arg "="%char in
  if negb ok then defines
  else
    match value with
    | EmptyString => defines
    | String c _ =>
        if Ascii.eqb c "<"%char || Ascii.eqb c (ascii_of_nat 34)
        then <[macro := value]> defines
        else defines
    end.

(** A value that names a header: it starts with [<] or with a double
    quote. *)
Definition header_like (value : string) : bool :=
  match value with
  | EmptyString => false
  | String c _ => Ascii.eqb c "<"%char || Ascii.eqb c (ascii_of_nat 34)
  end.

Lemma defineMacro_header_like (d : gmap string string) (arg : string) :
  map_Forall (fun k v => strings.free_of "="%char k = true /\ header_like v = true) d ->
  map_Forall (fun k v => strings.free_of "="%char k = true /\ header_like v = true)
             (defineMacro d arg).
Proof.
  intros Hd. unfold defineMacro.
  pose proof (strings.Cut_before_free arg "="%char) as Hfree.
  destruct (strings.Cut arg "="%char) as [[macro value] ok]. simpl in Hfree.
  destruct ok; simpl; [|exact Hd].
  destruct value as [|c value]; [exact Hd|].
  destruct (Ascii.eqb c "<"%char || Ascii.eqb c (ascii_of_nat 34)) eqn:E; [|exact Hd].
  apply map_Forall_insert_2; [|exact Hd]. split; [exact Hfree | exact E].
Qed.

(** X24: [defineMacro] records a macro only when its value names a header.
    For an argument [macro=value], where [macro] holds no [=], the macro is
    set to [value] when [value] starts with [<] or a double quote, the
    last definition winning; for any other argument (no [=], an empty value,
    any other value) the map is left as it is.  So all values in a map built
    by [defineMacro] from the empty map are header-like, and no key holds
    an [=]. *)
Theorem defineMacro_records_headers (defines : gmap string string) :
  (forall macro value, strings.free_of "="%char macro = true ->
     defineMacro defines (macro +:+ String "="%char value)
     = if header_like value then <[macro := value]> defines else defines) /\
  (forall arg, strings.free_of "="%char arg = true -> defineMacro defines arg = defines) /\
  (forall args,
     map_Forall (fun k v => strings.free_of "="%char k = true /\ header_like v = true)
                (fold_left defineMacro args ∅)).
Proof.
  split_and!.
  - intros macro value Hm. unfold defineMacro. rewrite (strings.Cut_found _ _ _ Hm).
    simpl negb. cbv iota. destruct value as [|c value]; reflexivity.
  - intros arg Ha. unfold defineMacro. rewrite (strings.Cut_not_found _ _ Ha). reflexivity.
  - intros args.
    assert (Hfold : forall args d,
              map_Forall (fun k v => strings.free_of "="%char k = true /\ header_like v = true) d ->
              map_Forall (fun k v => strings.free_of "="%char k = true /\ header_like v = true)
                         (fold_left defineMacro args d)).
    { induction args0 as [|a args0 IH]; intros d Hd; simpl; [exact Hd|].
      apply IH, defineMacro_header_like, Hd. }
    apply Hfold, map_Forall_empty.
Qed.

(** *** [ExtractScanDepsParams] *)

(** Indices and lengths are natural numbers in what follows. *)
Local Open Scope nat_scope.
(** [ScanDepsParams]. *)
Record ScanDepsParams := mkScanDepsParams {
  Sources : list string;
  Includes : list string;
  Files : list string;
  Dirs : list string;
  Frameworks : list string;
  Sysroots : list string;
  Defines : gmap string string
}.

(** [res.Sources = append(res.Sources, x)], and the same for the other
    fields. *)
Definition append_Sources (res : ScanDepsParams) (x : string) : ScanDepsParams :=
  mkScanDepsParams (Sources res ++ [x]) (Includes res) (Files res) (Dirs res)
                   (Frameworks res) (Sysroots res) (Defines res).
Definition append_Includes (res : ScanDepsParams) (x : string) : ScanDepsParams :=
  mkScanDepsParams (Sources res) (Includes res ++ [x]) (Files res) (Dirs res)
                   (Frameworks res) (Sysroots res) (Defines res).
Definition append_Files (res : ScanDepsParams) (x : string) : ScanDepsParams :=
  mkScanDepsParams (Sources res) (Includes res) (Files res ++ [x]) (Dirs res)
                   (Frameworks res) (Sysroots res) (Defines res).
Definition append_Dirs (res : ScanDepsParams) (x : string) : ScanDepsParams :=
  mkScanDepsParams (Sources res) (Includes res) (Files res) (Dirs res ++ [x])
                   (Frameworks res) (Sysroots res) (Defines res).
Definition append_Frameworks (res : ScanDepsParams) (x : string) : ScanDepsParams :=
  mkScanDepsParams (Sources res) (Includes res) (Files res) (Dirs res)
                   (Frameworks res ++ [x]) (Sysroots res) (Defines res).
Definition append_Sysroots (res : ScanDepsParams) (x : string) : ScanDepsParams :=
  mkScanDepsParams (Sources res) (Includes res) (Files res) (Dirs res)
                   (Frameworks res) (Sysroots res ++ [x]) (Defines res).

(** [defineMacro(res.Defines, arg)]. *)
Definition define (res : ScanDepsParams) (arg : string) : ScanDepsParams :=
  mkScanDepsParams (Sources res) (Includes res) (Files res) (Dirs res)
                   (Frameworks res) (Sysroots res) (defineMacro (Defines res) arg).

(** How one round of the loop of [ExtractScanDepsParams] ends: the loop
    goes on with the arguments [args] at index [i] (the increment of the
    [for] statement included), the function returns an error, or an index is
    out of range and the program panics. *)
Inductive iteration :=
  | Next (args : list string) (i : nat) (res : ScanDepsParams)
  | Return (res : ScanDepsParams) (err : error)
  | IndexOutOfRange.

(** How a call ends: with a result and an error (or [nil]), with a panic,
    or not within the number of rounds allowed. *)
Inductive outcome :=
  | Returns (res : ScanDepsParams) (err : option error)
  | Panics
  | Unfinished.

(** [filepath.Base], [filepath.Dir], [filepath.Ext] and [filepath.ToSlash]
    of Go's standard library; [fs.ReadFile] on the file system handed to
    [ExtractScanDepsParams], with [None] when the file cannot be read. *)
Variable filepath_Base filepath_Dir filepath_Ext filepath_ToSlash : string -> string.
Variable fs_ReadFile : string -> option string.

Definition is_compiler (cmdname : string) : bool :=
  strings.HasSuffix cmdname "clang" || strings.HasSuffix cmdname "clang++"
  || strings.HasSuffix cmdname "gcc" || strings.HasSuffix cmdname "g++".

Definition source_ext (ext : string) : bool :=
  String.eqb ext ".c" || String.eqb ext ".cc" || String.eqb ext ".cxx"
  || String.eqb ext ".cpp" || String.eqb ext ".m" || String.eqb ext ".mm"
  || String.eqb ext ".S".

(** The statement [if !strings.HasPrefix(arg, "-") { ... }] at the head
    of the loop body: the toolchain directory of a compiler is a sysroot. *)
Definition toolchain_sysroot (res : ScanDepsParams) (arg : string) : ScanDepsParams :=
  if negb (strings.HasPrefix arg "-") then
    if is_compiler (filepath_Base arg)
    then append_Sysroots res (filepath_ToSlash (filepath_Dir (filepath_Dir arg)))
    else res
  else res.

(** The second [switch] of the loop body, on the prefix of [arg], followed
    by the increment of the loop. *)
Definition prefix_switch (args : list string) (i : nat) (arg : string)
    (res : ScanDepsParams) : iteration :=
  if strings.HasPrefix arg "@" then
    let rspfile := strings.TrimPrefix arg "@" in
    let res := append_Files res rspfile in
    match fs_ReadFile rspfile with
    | None => Return res (failed_to_read rspfile)
    | Some buf =>
        match shutil_Split buf with
        | None => Return res (failed_to_split_rsp rspfile)
        | Some rspArgs =>
            (* args = slices.Insert(args, i+1, rspArgs...) *)
            Next (take (i + 1) args ++ rspArgs ++ drop (i + 1) args) (i + 1) res
        end
    end
  else if strings.HasPrefix arg "-I" then
    Next args (i + 1) (append_Dirs res (strings.TrimPrefix arg "-I"))
  else if strings.HasPrefix arg "--include=" then
    Next args (i + 1) (append_Includes res (strings.TrimPrefix arg "--include="))
  else if strings.HasPrefix arg "--include-directory=" then
    Next args (i + 1) (append_Dirs res (strings.TrimPrefix arg "--include-directory="))
  else if strings.HasPrefix arg "-iquote" then
    Next args (i + 1) (append_Dirs res (strings.TrimPrefix arg "-iquote"))
  else if strings.HasPrefix arg "-isystem" then
    Next args (i + 1) (append_Dirs res (strings.TrimPrefix arg "-isystem"))
  else if strings.HasPrefix arg "-F" then
    Next args (i + 1) (append_Frameworks res (strings.TrimPrefix arg "-F"))
  else if strings.HasPrefix arg "-fmodule-file=" then
    let moduleFile := strings.TrimPrefix arg "-fmodule-file=" in
    let '(_, after, found) := strings.Cut moduleFile "="%char in
    if found then Next args (i + 1) (append_Files res after)
    else Next args (i + 1) (append_Files res moduleFile)
  else if strings.HasPrefix arg "-fmodule-map-file=" then
    Next args (i + 1) (append_Files res (strings.TrimPrefix arg "-fmodule-map-file="))
  else if strings.HasPrefix arg "-fprofile-list=" then
    Next args (i + 1) (append_Files res (strings.TrimPrefix arg "-fprofile-list="))
  else if strings.HasPrefix arg "-fprofile-use=" then
    Next args (i + 1) (append_Files res (strings.TrimPrefix arg "-fprofile-use="))
  else if strings.HasPrefix arg "-fprofile-sample-use=" then
    Next args (i + 1) (append_Files res (strings.TrimPrefix arg "-fprofile-sample-use="))
  else if strings.HasPrefix arg "-fsanitize-ignorelist=" then
    Next args (i + 1) (append_Files res (strings.TrimPrefix arg "-fsanitize-ignorelist="))
  else if strings.HasPrefix arg "-iframework" then
    Next args (i + 1) (append_Frameworks res (strings.TrimPrefix arg "-iframework"))
  else if strings.HasPrefix arg "--gcc-toolchain=" then
    Next args (i + 1) (append_Sysroots res (strings.TrimPrefix arg "--gcc-toolchain="))
  else if strings.HasPrefix arg "--sysroot=" then
    Next args (i + 1) (append_Sysroots res (strings.TrimPrefix arg "--sysroot="))
  else if strings.HasPrefix arg "-D" then
    Next args (i + 1) (define res (strings.TrimPrefix arg "-D"))
  else if negb (strings.HasPrefix arg "-") then
    if source_ext (filepath_Ext arg) then Next args (i + 1) (append_Sources res arg)
    else Next args (i + 1) res
  else Next args (i + 1) res.

(** The body of the loop for [arg = args[i]].  A flag of the first
    [switch] takes its value from [args[i+1]], which panics when there is
    none; all of them but [--sysroot] then [continue]. *)
Definition loop_body (args : list string) (i : nat) (arg : string)
    (res : ScanDepsParams) : iteration :=
  let res := toolchain_sysroot res arg in
  if String.eqb arg "-I" || String.eqb arg "--include-directory"
     || String.eqb arg "-isystem" || String.eqb arg "-iquote" then
    match args !! (i + 1) with
    | None => IndexOutOfRange
    | Some v => Next args (i + 1 + 1) (append_Dirs res v)
    end
  else if String.eqb arg "-F" || String.eqb arg "-iframework" then
    match args !! (i + 1) with
    | None => IndexOutOfRange
    | Some v => Next args (i + 1 + 1) (append_Frameworks res v)
    end
  else if String.eqb arg "-include" then
    match args !! (i + 1) with
    | None => IndexOutOfRange
    | Some v => Next args (i + 1 + 1) (append_Includes res v)
    end
  else if String.eqb arg "-isysroot" then
    match args !! (i + 1) with
    | None => IndexOutOfRange
    | Some v => Next args (i + 1 + 1) (append_Sysroots res v)
    end
  else if String.eqb arg "--sysroot" then
    match args !! (i + 1) with
    | None => IndexOutOfRange
    | Some v => prefix_switch args (i + 1) arg (append_Sysroots res v)
    end
  else if String.eqb arg "-D" then
    match args !! (i + 1) with
    | None => IndexOutOfRange
    | Some v => Next args (i + 1 + 1) (define res v)
    end
  else prefix_switch args i arg res.

(** The loop [for i := 0; i < len(args); i++], for at most [fuel]
    rounds. *)
Fixpoint ExtractScanDepsParams_loop (fuel : nat) (args : list string) (i : nat)
    (res : ScanDepsParams) : outcome :=
  match fuel with
  | O => Unfinished
  | S fuel =>
      match args !! i with
      | None => Returns res None
      | Some arg =>
          match loop_body args i arg res with
          | Next args i res => ExtractScanDepsParams_loop fuel args i res
          | Return res err => Returns res (Some err)
          | IndexOutOfRange => Panics
          end
      end
  end.

(** [ExtractScanDepsParams]; the context and [env] are not used by the
    function. *)
Definition ExtractScanDepsParams (fuel : nat) (args : list string) : outcome :=
  let res := mkScanDepsParams [] [] [] [] [] [] ∅ in
  match normalizeArgs args with
  | inr err => Returns res (Some (failed_to_normalize err))
  | inl args => ExtractScanDepsParams_loop fuel args 0 res
  end.

(** A flag of the first [switch], which takes the next argument as its
    value. *)
Definition value_flag (arg : string) : bool :=
  String.eqb arg "-I" || String.eqb arg "--include-directory"
  || String.eqb arg "-isystem" || String.eqb arg "-iquote"
  || String.eqb arg "-F" || String.eqb arg "-iframework"
  || String.eqb arg "-include" || String.eqb arg "-isysroot"
  || String.eqb arg "--sysroot" || String.eqb arg "-D".

(** Every such flag of the command line is followed by an argument (which
    is then its value, and is not looked at as a flag). *)
Fixpoint flags_have_values (args : list string) : bool :=
  match args with
  | [] => true
  | arg :: rest =>
      if value_flag arg then
        match rest with
        | [] => false
        | _ :: rest' => flags_have_values rest'
        end
      else flags_have_values rest
  end.

(** No argument names a response file. *)
Definition no_response_file (args : list string) : Prop :=
  Forall (fun arg => strings.HasPrefix arg "@" = false) args.

(** What holds of every result: the macros kept have header-like values,
    and the sources are arguments that are no flags and have the extension
    of a source file. *)
Definition scanned (res : ScanDepsParams) : Prop :=
  map_Forall (fun k v => strings.free_of "="%char k = true /\ header_like v = true)
             (Defines res) /\
  Forall (fun s => strings.HasPrefix s "-" = false /\ source_ext (filepath_Ext s) = true)
         (Sources res).

Lemma toolchain_sysroot_scanned res arg : scanned res -> scanned (toolchain_sysroot res arg).
Proof.
  intros H. unfold toolchain_sysroot.
  destruct (negb (strings.HasPrefix arg "-")); [|exact H].
  destruct (is_compiler (filepath_Base arg)); exact H.
Qed.

Lemma define_scanned res arg : scanned res -> scanned (define res arg).
Proof.
  intros [Hd Hs]. split; [|exact Hs]. apply defineMacro_header_like, Hd.
Qed.

(** An argument that names no response file takes one round of the second
    [switch], which neither fails nor changes the arguments. *)
Lemma prefix_switch_plain (arg : string) (res : ScanDepsParams) :
  strings.HasPrefix arg "@" = false ->
  exists res', (scanned res -> scanned res') /\
    forall args i, prefix_switch args i arg res = Next args (i + 1) res'.
Proof.
  intros Hat. unfold prefix_switch. rewrite Hat.
  repeat match goal with
  | |- context [if strings.HasPrefix arg ?p then _ else _] =>
      destruct (strings.HasPrefix arg p) eqn:?;
      [ first [ eexists; split; [|intros; reflexivity]; first [exact (fun H => H) | apply define_scanned]
              | idtac ] | ]
  end.
  - destruct (strings.Cut (strings.TrimPrefix arg "-fmodule-file=") "="%char) as [[b a] found].
    destruct found; (eexists; split; [|intros; reflexivity]); exact (fun H => H).
  - destruct (strings.HasPrefix arg "-") eqn:Hdash; simpl negb; cbv iota.
    { exists res. split; [auto | reflexivity]. }
    destruct (source_ext (filepath_Ext arg)) eqn:Hext;
      (eexists; split; [|intros; reflexivity]); [|exact (fun H => H)].
    intros [Hd Hs]. split; [exact Hd|]. simpl. apply Forall_app. split; [exact Hs|].
    constructor; [|constructor]. split; assumption.
Qed.

Ltac decide_prefixes :=
  repeat match goal with
  | |- context [strings.HasPrefix ?a ?p] =>
      let b := eval vm_compute in (strings.HasPrefix a p) in
      change (strings.HasPrefix a p) with b; cbv iota
  end.

Lemma prefix_switch_sysroot args i res :
  prefix_switch args i "--sysroot" res = Next args (i + 1) res.
Proof. unfold prefix_switch. decide_prefixes. reflexivity. Qed.

(** One round of the loop for an argument that names no response file. *)
Lemma loop_body_plain (arg : string) (res : ScanDepsParams) :
  strings.HasPrefix arg "@" = false ->
  if value_flag arg then
    exists f : string -> ScanDepsParams,
      (scanned res -> forall v, scanned (f v)) /\
      forall args i, loop_body args i arg res =
        match args !! (i + 1) with
        | None => IndexOutOfRange
        | Some v => Next args (i + 1 + 1) (f v)
        end
  else
    exists res', (scanned res -> scanned res') /\
      forall args i, loop_body args i arg res = Next args (i + 1) res'.
Proof.
  intros Hat. unfold value_flag, loop_body.
  pose proof (toolchain_sysroot_scanned res arg) as Hts.
  set (res0 := toolchain_sysroot res arg) in *.
  destruct (String.eqb arg "-I") eqn:E1; cbn [orb].
  { exists (append_Dirs res0). split; [|reflexivity]. intros H v. exact (Hts H). }
  destruct (String.eqb arg "--include-directory") eqn:E2; cbn [orb].
  { exists (append_Dirs res0). split; [|reflexivity]. intros H v. exact (Hts H). }
  destruct (String.eqb arg "-isystem") eqn:E3; cbn [orb].
  { exists (append_Dirs res0). split; [|reflexivity]. intros H v. exact (Hts H). }
  destruct (String.eqb arg "-iquote") eqn:E4; cbn [orb].
  { exists (append_Dirs res0). split; [|reflexivity]. intros H v. exact (Hts H). }
  destruct (String.eqb arg "-F") eqn:E5; cbn [orb].
  { exists (append_Frameworks res0). split; [|reflexivity]. intros H v. exact (Hts H). }
  destruct (String.eqb arg "-iframework") eqn:E6; cbn [orb].
  { exists (append_Frameworks res0). split; [|reflexivity]. intros H v. exact (Hts H). }
  destruct (String.eqb arg "-include") eqn:E7; cbn [orb].
  { exists (append_Includes res0). split; [|reflexivity]. intros H v. exact (Hts H). }
  destruct (String.eqb arg "-isysroot") eqn:E8; cbn [orb].
  { exists (append_Sysroots res0). split; [|reflexivity]. intros H v. exact (Hts H). }
  destruct (String.eqb arg "--sysroot") eqn:E9; cbn [orb].
  { exists (append_Sysroots res0). split; [intros H v; exact (Hts H)|].
    intros args i. apply String.eqb_eq in E9. subst arg.
    destruct (args !! (i + 1)); [|reflexivity]. apply prefix_switch_sysroot. }
  destruct (String.eqb arg "-D") eqn:E10; cbn [orb].
  { exists (define res0). split; [|reflexivity]. intros H v. apply define_scanned, Hts, H. }
  destruct (prefix_switch_plain arg res0 Hat) as (res' & Hs & Hp).
  exists res'. split; [|exact Hp]. intros H. apply Hs, Hts, H.
Qed.

(** Two rounds are alike when they leave the same arguments to read and
    the same result. *)
Definition same_rest (a b : iteration) : Prop :=
  match a, b with
  | Next args1 i1 res1, Next args2 i2 res2 => drop i1 args1 = drop i2 args2 /\ res1 = res2
  | Return res1 err1, Return res2 err2 => res1 = res2 /\ err1 = err2
  | IndexOutOfRange, IndexOutOfRange => True
  | _, _ => False
  end.

Lemma prefix_switch_shift args i j arg res :
  j <= i < length args ->
  same_rest (prefix_switch args i arg res) (prefix_switch (drop j args) (i - j) arg res).
Proof.
  intros Hi. unfold prefix_switch.
  assert (Hd : drop (i + 1) args = drop (i - j + 1) (drop j args)).
  { rewrite drop_drop. f_equal. lia. }
  destruct (strings.HasPrefix arg "@").
  { destruct (fs_ReadFile _); [|split; reflexivity].
    destruct (shutil_Split _) as [rspArgs|]; [|split; reflexivity].
    split; [|reflexivity].
    rewrite !drop_app_length'; [rewrite Hd; reflexivity | |].
    - rewrite length_take, length_drop. lia.
    - rewrite length_take. lia. }
  repeat match goal with
  | |- context [if ?c then _ else _] => destruct c
  | |- context [strings.Cut ?s ?sep] => destruct (strings.Cut s sep) as [[? ?] ?]
  end; (split; [exact Hd | reflexivity]).
Qed.

Lemma loop_body_shift args i arg res :
  i < length args ->
  same_rest (loop_body args i arg res) (loop_body (drop i args) 0 arg res).
Proof.
  intros Hi. unfold loop_body.
  assert (Hl : drop i args !! (0 + 1) = args !! (i + 1)).
  { rewrite lookup_drop. f_equal. }
  assert (Hd : drop (i + 1 + 1) args = drop (0 + 1 + 1) (drop i args)).
  { rewrite drop_drop. f_equal. lia. }
  rewrite !Hl.
  repeat match goal with
  | |- context [if ?c then _ else _] =>
      destruct c;
      [ destruct (args !! (i + 1)) as [v|] eqn:Hv;
        first [ exact I | split; [exact Hd | reflexivity] | idtac ] | ]
  end.
  - pose proof (prefix_switch_shift args (i + 1) i arg
                  (append_Sysroots (toolchain_sysroot res arg) v)) as H.
    replace (i + 1 - i) with (0 + 1) in H by lia. apply H.
    apply lookup_lt_Some in Hv. lia.
  - pose proof (prefix_switch_shift args i i arg (toolchain_sysroot res arg)) as H.
    replace (i - i) with 0 in H by lia. apply H. lia.
Qed.

(** The loop only reads the arguments from index [i] on. *)
Lemma ExtractScanDepsParams_loop_shift fuel : forall args i res,
  ExtractScanDepsParams_loop fuel args i res
  = ExtractScanDepsParams_loop fuel (drop i args) 0 res.
Proof.
  induction fuel as [|fuel IH]; intros args i res; [reflexivity|].
  cbn [ExtractScanDepsParams_loop].
  rewrite lookup_drop, Nat.add_0_r.
  destruct (args !! i) as [arg|] eqn:Harg; [|reflexivity].
  pose proof (loop_body_shift args i arg res (lookup_lt_Some _ _ _ Harg)) as Hs.
  destruct (loop_body args i arg res) as [a1 i1 r1| |];
    destruct (loop_body (drop i args) 0 arg res) as [a2 i2 r2| |];
    simpl in Hs; try contradiction.
  - destruct Hs as [Hd ->]. rewrite (IH a1 i1), (IH a2 i2), Hd. reflexivity.
  - destruct Hs as [-> ->]. reflexivity.
  - reflexivity.
Qed.

(** A stretch of arguments without response files, in which every value
    flag has its value, takes some [k] rounds and leaves the loop at the
    argument after it. *)
Lemma ExtractScanDepsParams_loop_run (n : nat) : forall pre,
  length pre <= n -> no_response_file pre -> flags_have_values pre = true ->
  forall res, exists k res', k <= length pre /\ (scanned res -> scanned res') /\
    forall rest fuel,
      ExtractScanDepsParams_loop fuel (pre ++ rest) 0 res
      = if fuel <? k then Unfinished
        else ExtractScanDepsParams_loop (fuel - k) rest 0 res'.
Proof.
  induction n as [n IH] using lt_wf_ind. intros pre Hn Hno Hfv res.
  destruct pre as [|a pre].
  { exists 0, res. split; [simpl; lia|]. split; [auto|].
    intros rest fuel. simpl. rewrite Nat.sub_0_r. reflexivity. }
  inversion Hno as [|? ? Ha Hno']; subst.
  pose proof (loop_body_plain a res Ha) as Hbody.
  cbn [flags_have_values] in Hfv.
  destruct (value_flag a).
  - destruct pre as [|v pre]; [discriminate|].
    destruct Hbody as (f & Hf & Hbody).
    inversion Hno' as [|? ? _ Hno'']; subst.
    destruct (IH (length pre) ltac:(simpl in Hn; lia) pre (le_n _) Hno'' Hfv (f v))
      as (k & res' & Hk & Hs & Hrun).
    exists (S k), res'. split; [simpl; lia|]. split; [intros H; apply Hs, Hf, H|].
    intros rest [|fuel]; [reflexivity|].
    cbn [ExtractScanDepsParams_loop]. simpl lookup at 1. cbv iota.
    rewrite Hbody. simpl lookup at 1. cbv iota.
    rewrite ExtractScanDepsParams_loop_shift. simpl drop. rewrite drop_0.
    rewrite Hrun. reflexivity.
  - destruct Hbody as (res1 & Hres1 & Hbody).
    destruct (IH (length pre) ltac:(simpl in Hn; lia) pre (le_n _) Hno' Hfv res1)
      as (k & res' & Hk & Hs & Hrun).
    exists (S k), res'. split; [simpl; lia|]. split; [intros H; apply Hs, Hres1, H|].
    intros rest [|fuel]; [reflexivity|].
    cbn [ExtractScanDepsParams_loop]. simpl lookup at 1. cbv iota.
    rewrite Hbody.
    rewrite ExtractScanDepsParams_loop_shift. simpl drop. rewrite drop_0.
    rewrite Hrun. reflexivity.
Qed.

(** A command line in which some value flag lacks its value ends with such
    a flag, after a stretch in which none does. *)
Lemma flags_lack_value (n : nat) : forall args,
  length args <= n -> flags_have_values args = false ->
  exists pre flag, args = pre ++ [flag] /\ flags_have_values pre = true /\
    value_flag flag = true.
Proof.
  induction n as [n IH] using lt_wf_ind. intros args Hn Hfv.
  destruct args as [|a args]; [discriminate|].
  cbn [flags_have_values] in Hfv.
  destruct (value_flag a) eqn:Ea.
  - destruct args as [|v args].
    + exists [], a. split; [reflexivity|]. split; [reflexivity | exact Ea].
    + destruct (IH (length args) ltac:(simpl in Hn; lia) args (le_n _) Hfv)
        as (pre & flag & -> & Hpre & Hflag).
      exists (a :: v :: pre), flag. split; [reflexivity|]. split; [|exact Hflag].
      cbn [flags_have_values]. rewrite Ea. exact Hpre.
  - destruct (IH (length args) ltac:(simpl in Hn; lia) args (le_n _) Hfv)
      as (pre & flag & -> & Hpre & Hflag).
    exists (a :: pre), flag. split; [reflexivity|]. split; [|exact Hflag].
    cbn [flags_have_values]. rewrite Ea. exact Hpre.
Qed.

Lemma scanned_empty : scanned (mkScanDepsParams [] [] [] [] [] [] ∅).
Proof. split; [apply map_Forall_empty | constructor]. Qed.

(** X25: [ExtractScanDepsParams] scans the command line as [normalizeArgs]
    returns it, which is the line itself unless it is [/bin/sh -c ...];
    when [normalizeArgs] fails, it returns an empty result and the error
    wrapped as "failed to normalize args".  When the normalized line holds
    no response file, the scan ends within as many rounds as that line has
    arguments, and never with an error.  It returns when every flag that
    takes its value from the next argument ([-I], [--include-directory],
    [-isystem], [-iquote], [-F], [-iframework], [-include], [-isysroot],
    [--sysroot], [-D]) is followed by an argument; the macros it then
    reports have header-like values and the sources are arguments that are
    no flags.  Otherwise, as for a line that ends with [-I], it panics with
    an index out of range. *)
Theorem ExtractScanDepsParams_without_response_files (args : list string) (fuel : nat) :
  (is_shell args = false -> normalizeArgs args = inl args) /\
  (forall err, normalizeArgs args = inr err ->
     ExtractScanDepsParams fuel args
     = Returns (mkScanDepsParams [] [] [] [] [] [] ∅) (Some (failed_to_normalize err))) /\
  (forall nargs,
     normalizeArgs args = inl nargs ->
     no_response_file nargs ->
     length nargs < fuel ->
     (flags_have_values nargs = true ->
        exists res, ExtractScanDepsParams fuel args = Returns res None /\ scanned res) /\
     (flags_have_values nargs = false -> ExtractScanDepsParams fuel args = Panics)).
Proof.
  split; [apply normalizeArgs_not_shell|].
  split; [intros err Hn; unfold ExtractScanDepsParams; rewrite Hn; reflexivity|].
  intros nargs Hn Hno Hfuel. unfold ExtractScanDepsParams. rewrite Hn.
  set (res0 := mkScanDepsParams [] [] [] [] [] [] ∅).
  split; intros Hfv.
  - destruct (ExtractScanDepsParams_loop_run (length nargs) nargs (le_n _) Hno Hfv res0)
      as (k & res' & Hk & Hs & Hrun).
    exists res'. specialize (Hrun [] fuel). rewrite app_nil_r in Hrun. rewrite Hrun.
    destruct (Nat.ltb_spec fuel k) as [|_]; [lia|].
    destruct (fuel - k) as [|m] eqn:Em; [lia|].
    split; [reflexivity | apply Hs, scanned_empty].
  - destruct (flags_lack_value (length nargs) nargs (le_n _) Hfv)
      as (pre & flag & -> & Hpre & Hflag).
    apply Forall_app in Hno as [Hno Hflag'].
    inversion Hflag' as [|? ? Hat _]; subst.
    destruct (ExtractScanDepsParams_loop_run (length pre) pre (le_n _) Hno Hpre res0)
      as (k & res' & Hk & Hs & Hrun).
    rewrite Hrun. rewrite length_app in Hfuel. simpl in Hfuel.
    destruct (Nat.ltb_spec fuel k) as [|_]; [lia|].
    destruct (fuel - k) as [|m] eqn:Em; [lia|].
    cbn [ExtractScanDepsParams_loop]. simpl lookup at 1. cbv iota.
    pose proof (loop_body_plain flag res' Hat) as Hbody. rewrite Hflag in Hbody.
    destruct Hbody as (f & _ & ->). reflexivity.
Qed.

(** One round of the loop at a response file that can be read and
    split. *)
Lemma loop_body_response_file (r buf : string) (words : list string) args i res :
  fs_ReadFile r = Some buf -> shutil_Split buf = Some words ->
  exists res',
    loop_body args i (String "@" r) res
    = Next (take (i + 1) args ++ words ++ drop (i + 1) args) (i + 1) res'.
Proof.
  intros Hread Hsplit. unfold loop_body. cbn [String.eqb Ascii.eqb Bool.eqb andb orb].
  unfold prefix_switch.
  change (String "@" r) with ("@" +:+ r).
  rewrite strings.HasPrefix_app, strings.TrimPrefix_app, Hread, Hsplit.
  eexists. reflexivity.
Qed.

(** The loop never leaves a response file that leads back to itself. *)
Lemma ExtractScanDepsParams_loop_response_file (r buf : string) (before after : list string) :
  fs_ReadFile r = Some buf ->
  shutil_Split buf = Some (before ++ String "@" r :: after) ->
  no_response_file before -> flags_have_values before = true ->
  forall fuel args i res,
    args !! i = Some (String "@" r) ->
    ExtractScanDepsParams_loop fuel args i res = Unfinished.
Proof.
  intros Hread Hsplit Hno Hfv fuel.
  induction fuel as [fuel IH] using lt_wf_ind. intros args i res Hi.
  destruct fuel as [|fuel]; [reflexivity|].
  cbn [ExtractScanDepsParams_loop]. rewrite Hi.
  destruct (loop_body_response_file r buf _ args i res Hread Hsplit) as (res1 & ->).
  rewrite ExtractScanDepsParams_loop_shift.
  rewrite drop_app_length' by (rewrite length_take; apply lookup_lt_Some in Hi; lia).
  rewrite <- app_assoc.
  destruct (ExtractScanDepsParams_loop_run (length before) before (le_n _) Hno Hfv res1)
    as (k & res' & _ & _ & ->).
  destruct (fuel <? k); [reflexivity|].
  apply IH; [lia | reflexivity].
Qed.

(** X26: a response file that leads back to itself makes
    [ExtractScanDepsParams] run for ever.  When the file [r] splits into
    words among which [@r] is read again (the words before it hold no
    response file, and their value flags have their values), a command line
    that reaches [@r] is never scanned to its end: each round that reads
    [@r] inserts the words of the file after it, so the list of arguments
    grows and [@r] comes up again; no number of rounds is enough. *)
Theorem ExtractScanDepsParams_response_file_cycle
    (r buf : string) (before after pre post : list string) (fuel : nat) :
  fs_ReadFile r = Some buf ->
  shutil_Split buf = Some (before ++ String "@" r :: after) ->
  no_response_file before -> flags_have_values before = true ->
  no_response_file pre -> flags_have_values pre = true ->
  is_shell (pre ++ String "@" r :: post) = false ->
  ExtractScanDepsParams fuel (pre ++ String "@" r :: post) = Unfinished.
Proof.
  intros Hread Hsplit Hno Hfv Hnopre Hfvpre Hsh. unfold ExtractScanDepsParams.
  rewrite (normalizeArgs_not_shell _ Hsh).
  destruct (ExtractScanDepsParams_loop_run (length pre) pre (le_n _) Hnopre Hfvpre
              (mkScanDepsParams [] [] [] [] [] [] ∅)) as (k & res' & _ & _ & ->).
  destruct (fuel <? k); [reflexivity|].
  apply (ExtractScanDepsParams_loop_response_file r buf before after Hread Hsplit Hno Hfv).
  reflexivity.
Qed.

(** The flags that take their value from the next argument, each with the
    prefix that takes the same value from the argument itself. *)
Definition spellings : list (string * string) :=
  [ ("-I", "-I"); ("--include-directory", "--include-directory=");
    ("-isystem", "-isystem"); ("-iquote", "-iquote");
    ("-F", "-F"); ("-iframework", "-iframework");
    ("-include", "--include="); ("--sysroot", "--sysroot=");
    ("-D", "-D") ]%string.

Ltac decide_eqbs :=
  repeat match goal with
  | |- context [String.eqb ?a ?p] =>
      let b := eval vm_compute in (String.eqb a p) in
      change (String.eqb a p) with b; cbv iota
  end.

(** The round of the loop for either spelling. *)
Lemma loop_body_spellings (flag joined v : string) (res : ScanDepsParams) :
  (flag, joined) ∈ spellings -> joined +:+ v <> flag ->
  exists res', forall post,
    loop_body (flag :: v :: post) 0 flag res = Next (flag :: v :: post) 2 res' /\
    loop_body ((joined +:+ v) :: post) 0 (joined +:+ v) res
    = Next ((joined +:+ v) :: post) 1 res'.
Proof.
  intros Hin Hne. unfold spellings in Hin.
  repeat (apply elem_of_cons in Hin as [Hin|Hin];
          [injection Hin as -> ->|]); [..|apply elem_of_nil in Hin; contradiction].
  all: (destruct v as [|c v]; [try (exfalso; apply Hne; reflexivity)|]).
  all: eexists; intros post; split.
  all: unfold loop_body, toolchain_sysroot, prefix_switch.
  all: rewrite ?strings.HasPrefix_app, ?strings.TrimPrefix_app.
  all: decide_eqbs; decide_prefixes; cbn [orb negb lookup list_lookup Nat.add].
  all: try reflexivity.
Qed.

(** X27: the two spellings of a flag mean the same to
    [ExtractScanDepsParams].  Take two command lines that [normalizeArgs]
    accepts and whose normalized forms differ in one place only: one has a
    flag followed by its value as the next argument ([-I dir],
    [--include-directory dir], [-isystem dir], [-iquote dir], [-F dir],
    [-iframework dir], [-include file], [--sysroot dir], [-D macro]), the
    other the value joined to the flag ([-Idir],
    [--include-directory=dir], [-isystemdir], [-iquotedir], [-Fdir],
    [-iframeworkdir], [--include=file], [--sysroot=dir], [-Dmacro]).  If the
    arguments before that place hold no response file and their value
    flags have their values, so that the scan reaches the flag, and if the
    joined argument is not the bare flag, the two lines give the same
    result, in the same number of rounds, whatever follows. *)
Theorem ExtractScanDepsParams_joined_value
    (flag joined v : string) (pre post args1 args2 : list string) (fuel : nat) :
  (flag, joined) ∈ spellings ->
  joined +:+ v <> flag ->
  no_response_file pre -> flags_have_values pre = true ->
  normalizeArgs args1 = inl (pre ++ flag :: v :: post) ->
  normalizeArgs args2 = inl (pre ++ (joined +:+ v) :: post) ->
  ExtractScanDepsParams fuel args1 = ExtractScanDepsParams fuel args2.
Proof.
  intros Hin Hne Hno Hfv Hn1 Hn2. unfold ExtractScanDepsParams.
  rewrite Hn1, Hn2.
  destruct (ExtractScanDepsParams_loop_run (length pre) pre (le_n _) Hno Hfv
              (mkScanDepsParams [] [] [] [] [] [] ∅)) as (k & res' & _ & _ & Hrun).
  rewrite !Hrun. destruct (fuel <? k); [reflexivity|].
  destruct (fuel - k) as [|m]; [reflexivity|].
  destruct (loop_body_spellings flag joined v res' Hin Hne) as (res'' & Hbody).
  destruct (Hbody post) as [H1 H2].
  cbn [ExtractScanDepsParams_loop lookup list_lookup].
  rewrite H1, H2.
  rewrite (ExtractScanDepsParams_loop_shift m (flag :: v :: post) 2),
          (ExtractScanDepsParams_loop_shift m ((joined +:+ v) :: post) 1).
  reflexivity.
Qed.

End with_shutil.

(** [-DFOO=<foo.h>] is recorded, [-DBAR=1] and [-DBAZ] are not. *)
Example defineMacro_examples :
  fold_left defineMacro ["FOO=<foo.h>"; "BAR=1"; "BAZ"]%string ∅
  = {[ "FOO"%string := "<foo.h>"%string ]}.
Proof. vm_compute. reflexivity. Qed.

(** A word splitter for the example: it does not split at all. *)
Definition one_word (s : string) : option (list string) := Some [s].

Lemma DepsArgs_drops_output_flags_witness :
  is_shell ["clang"; "-c"; "-MD"; "-MF"; "a.d"; "-Iinc"; "-o"; "a.o"; "a.c"]%string = false /\
  DepsArgs one_word ["clang"; "-c"; "-MD"; "-MF"; "a.d"; "-Iinc"; "-o"; "a.o"; "a.c"]%string
    = inl ["clang"; "-Iinc"; "a.c"; "-M"]%string.
Proof.
  split; [reflexivity|].
  destruct (DepsArgs_drops_output_flags one_word
              ["clang"; "-c"; "-MD"; "-MF"; "a.d"; "-Iinc"; "-o"; "a.o"; "a.c"]%string)
    as (Hn & _ & _).
  specialize (Hn eq_refl). unfold DepsArgs. rewrite Hn. reflexivity.
Defined.

(** *** Examples *)

(** For the examples: [filepath.Base], [filepath.Dir] and [filepath.Ext]
    on clean, slash-separated relative paths, and a splitter of command
    lines at single blanks. *)
Fixpoint rindex (c : ascii) (s : string) : option nat :=
  match s with
  | EmptyString => None
  | String a s' =>
      match rindex c s' with
      | Some n => Some (S n)
      | None => if Ascii.eqb a c then Some O else None
      end
  end.

Definition unix_Base (path : string) : string :=
  match rindex "/" path with
  | Some n => String.substring (S n) (String.length path - S n) path
  | None => path
  end.

Definition unix_Dir (path : string) : string :=
  match rindex "/" path with
  | Some n => String.substring 0 n path
  | None => "."%string
  end.

Definition unix_Ext (path : string) : string :=
  let base := unix_Base path in
  match rindex "." base with
  | Some n => String.substring n (String.length base - n) base
  | None => EmptyString
  end.

Definition unix_ToSlash (path : string) : string := path.

Definition split_blanks (s : string) : option (list string) :=
  Some (strings.Split s " "%char).

(** A file system without files, and one whose only file [a.rsp] names
    itself. *)
Definition no_files (name : string) : option string := None.

Definition cyclic_rsp (name : string) : option string :=
  if String.eqb name "a.rsp" then Some "-Iinc @a.rsp"%string else None.

Definition quoted (s : string) : string :=
  String (ascii_of_nat 34) (s +:+ String (ascii_of_nat 34) EmptyString).

(** The case [clang++] of [TestScanDepsParams]. *)
Example ExtractScanDepsParams_clang :
  ExtractScanDepsParams split_blanks unix_Base unix_Dir unix_Ext unix_ToSlash no_files 18
    [ "../../third_party/llvm-build/Release+Asserts/bin/clang++";
      "-MMD"; "-MF"; "obj/base/base/base64.o.d";
      "-DDCHECK_ALWAYS_ON=1";
      "-DCR_CLANG_REVISION=" +:+ quoted "llvmorg-17-init-10134-g3da83fba-1";
      "-I../.."; "-Igen"; "-D__DATE_=";
      "-isystem"; "../../buildtools/third_party/libc++/trunk/include";
      "-isystem../../buildtools/third_party/libc++abi/trunk/include";
      "--sysroot=../../build/linux/debian_bullseye_amd64-sysroot";
      "-c"; "../../base/base64.cc"; "-o"; "obj/base/base/base64.o" ]%string
  = Returns
      {| Sources := ["../../base/base64.cc"]%string;
         Includes := [];
         Files := [];
         Dirs := [ "../.."; "gen";
                   "../../buildtools/third_party/libc++/trunk/include";
                   "../../buildtools/third_party/libc++abi/trunk/include" ]%string;
         Frameworks := [];
         Sysroots := [ "../../third_party/llvm-build/Release+Asserts";
                       "../../build/linux/debian_bullseye_amd64-sysroot" ]%string;
         Defines := {[ "CR_CLANG_REVISION"%string
                       := quoted "llvmorg-17-init-10134-g3da83fba-1" ]} |}
      None.
Proof. vm_compute. reflexivity. Qed.

(** A command line given to the shell, as the build of Android gives
    it. *)
Definition shell_line (command : string) : list string :=
  ["/bin/sh"; "-c"; "PWD=/proc/self/cwd " +:+ command]%string.

Lemma ExtractScanDepsParams_without_response_files_witness :
  (exists res,
     ExtractScanDepsParams split_blanks unix_Base unix_Dir unix_Ext unix_ToSlash no_files 6
       (shell_line "bin/clang -I inc -DH=<h.h> a.c") = Returns res None /\
     scanned unix_Ext res) /\
  ExtractScanDepsParams split_blanks unix_Base unix_Dir unix_Ext unix_ToSlash no_files 4
    ["bin/clang"; "a.c"; "-I"]%string = Panics.
Proof.
  split.
  - destruct (ExtractScanDepsParams_without_response_files split_blanks unix_Base unix_Dir
                unix_Ext unix_ToSlash no_files
                (shell_line "bin/clang -I inc -DH=<h.h> a.c") 6%nat) as (_ & _ & H).
    apply (H ["bin/clang"; "-I"; "inc"; "-DH=<h.h>"; "a.c"]%string);
      [reflexivity | repeat constructor | simpl; lia | reflexivity].
  - destruct (ExtractScanDepsParams_without_response_files split_blanks unix_Base unix_Dir
                unix_Ext unix_ToSlash no_files ["bin/clang"; "a.c"; "-I"]%string 4%nat)
      as (_ & _ & H).
    apply (H ["bin/clang"; "a.c"; "-I"]%string);
      [reflexivity | repeat constructor | simpl; lia | reflexivity].
Defined.

Lemma ExtractScanDepsParams_response_file_cycle_witness :
  ExtractScanDepsParams split_blanks unix_Base unix_Dir unix_Ext unix_ToSlash cyclic_rsp 1000
    ["bin/clang"; "@a.rsp"; "a.c"]%string = Unfinished.
Proof.
  apply (ExtractScanDepsParams_response_file_cycle split_blanks unix_Base unix_Dir unix_Ext
           unix_ToSlash cyclic_rsp "a.rsp" "-Iinc @a.rsp" ["-Iinc"%string] []
           ["bin/clang"%string] ["a.c"%string] 1000%nat);
    first [reflexivity | repeat constructor].
Defined.

Lemma ExtractScanDepsParams_joined_value_witness :
  ExtractScanDepsParams split_blanks unix_Base unix_Dir unix_Ext unix_ToSlash no_files 5
    (shell_line "bin/clang -isystem inc a.c")
  = ExtractScanDepsParams split_blanks unix_Base unix_Dir unix_Ext unix_ToSlash no_files 5
    ["bin/clang"; "-isysteminc"; "a.c"]%string.
Proof.
  apply (ExtractScanDepsParams_joined_value split_blanks unix_Base unix_Dir unix_Ext
           unix_ToSlash no_files "-isystem" "-isystem" "inc" ["bin/clang"%string]
           ["a.c"%string] (shell_line "bin/clang -isystem inc a.c")
           ["bin/clang"; "-isysteminc"; "a.c"]%string 5%nat);
    first [reflexivity | discriminate | repeat constructor].
Defined.

(** A shell line without the [PWD=/proc/self/cwd] prefix is rejected, with
    or without response files. *)
Example ExtractScanDepsParams_unsupported_shell_line :
  ExtractScanDepsParams split_blanks unix_Base unix_Dir unix_Ext unix_ToSlash no_files 4
    ["/bin/sh"; "-c"; "clang -c a.c"]%string
  = Returns (mkScanDepsParams [] [] [] [] [] [] ∅)
            (Some (failed_to_normalize unsupported_commandline)).
Proof. reflexivity. Qed.

End gccutil.

(* ================================================================= *)
(** ** subcmd/metricscmd/cmp.go: joining two metrics files *)

Module metricscmd.

(** [build.StepMetric], the fields the command reads. *)
Record StepMetric := mkStepMetric {
  Action : string;
  Output : string;
  Ready : Z;
  Start : Z;
  Duration : Z
}.

(** The zero value, which a Go map yields for a key it does not hold. *)
Definition zero : StepMetric := mkStepMetric EmptyString EmptyString 0 0 0.

Definition indexMap (x : list StepMetric) : gmap string StepMetric :=
  fold_left (fun r m => <[Output m := m]> r) x ∅.

(** [sort.Strings] sorts in increasing order; Go compares strings byte by
    byte.  Any sorting algorithm yields the same list when the strings are
    distinct, as the keys of a map are; insertion sort stands for it. *)
Fixpoint insert_sorted (k : string) (l : list string) : list string :=
  match l with
  | [] => [k]
  | x :: l' => if String.leb k x then k :: l else x :: insert_sorted k l'
  end.

Definition sort_Strings (l : list string) : list string :=
  fold_right insert_sorted [] l.

(** The two loops of [join] that collect the keys; [kx] and [ky] are the
    orders in which [range xm] and [range ym] visit the keys, which Go
    leaves unspecified.  [km] is the [map[string]bool]. *)
Definition join_keys (kx ky : list string) : list string :=
  let '(keys, km) :=
    fold_left (fun '(keys, km) k => (keys ++ [k], <[k := true]> km))
              kx ([], (∅ : gmap string bool)) in
  let '(keys, km) :=
    fold_left (fun '(keys, km) k =>
                 if default false (km !! k) then (keys, km)
                 else (keys ++ [k], <[k := true]> km))
              ky (keys, km) in
  keys.

Definition join (kx ky : list string) (x y : list StepMetric) : list (list StepMetric) :=
  let xm := indexMap x in
  let ym := indexMap y in
  let keys := sort_Strings (join_keys kx ky) in
  fold_left (fun r k => r ++ [[default zero (xm !! k); default zero (ym !! k)]]) keys [].

(** [ks] is an order in which [range m] may visit the keys of [m]: every
    key once. *)
Definition range_order (m : gmap string StepMetric) (ks : list string) : Prop :=
  NoDup ks /\ forall k, k ∈ ks <-> is_Some (m !! k).

(** The row of [join] for the output [k]. *)
Definition row (x y : list StepMetric) (k : string) : list StepMetric :=
  [default zero (indexMap x !! k); default zero (indexMap y !! k)].

Definition string_lt (a b : string) : Prop := String.ltb a b = true.

(** *** The order of strings *)

Lemma ascii_compare_refl c : Ascii.compare c c = Eq.
Proof. unfold Ascii.compare. apply N.compare_refl. Qed.

Lemma ascii_compare_eq c d : Ascii.compare c d = Eq -> c = d.
Proof.
  unfold Ascii.compare. intros H. apply N.compare_eq in H.
  rewrite <- (ascii_N_embedding c), <- (ascii_N_embedding d), H. reflexivity.
Qed.

Lemma ascii_compare_lt_trans c d e :
  Ascii.compare c d = Lt -> Ascii.compare d e = Lt -> Ascii.compare c e = Lt.
Proof.
  unfold Ascii.compare. rewrite !N.compare_lt_iff. apply N.lt_trans.
Qed.

Lemma compare_cons c d (s t : string) :
  String.compare (String c s) (String d t)
  = match Ascii.compare c d with Eq => String.compare s t | ne => ne end.
Proof. reflexivity. Qed.

Lemma compare_refl (s : string) : String.compare s s = Eq.
Proof.
  induction s as [|c s IH]; [reflexivity|].
  rewrite compare_cons, ascii_compare_refl. exact IH.
Qed.

Lemma compare_lt_trans (s : string) : forall t u,
  String.compare s t = Lt -> String.compare t u = Lt -> String.compare s u = Lt.
Proof.
  induction s as [|c s IH]; intros [|d t] [|e u] H1 H2; try discriminate; try reflexivity.
  rewrite compare_cons in *.
  destruct (Ascii.compare c d) eqn:Ecd; try discriminate.
  - apply ascii_compare_eq in Ecd. subst d.
    destruct (Ascii.compare c e) eqn:Ece; try discriminate; [|reflexivity].
    eapply IH; eauto.
  - destruct (Ascii.compare d e) eqn:Ede; try discriminate.
    + apply ascii_compare_eq in Ede. subst e. rewrite Ecd. reflexivity.
    + rewrite (ascii_compare_lt_trans c d e Ecd Ede). reflexivity.
Qed.

Lemma string_lt_trans a b c : string_lt a b -> string_lt b c -> string_lt a c.
Proof.
  unfold string_lt, String.ltb. intros H1 H2.
  destruct (String.compare a b) eqn:E1; try discriminate.
  destruct (String.compare b c) eqn:E2; try discriminate.
  rewrite (compare_lt_trans a b c E1 E2). reflexivity.
Qed.

Lemma string_lt_irrefl a : ~ string_lt a a.
Proof. unfold string_lt, String.ltb. rewrite compare_refl. discriminate. Qed.

Lemma leb_ltb_or_eq a b : String.leb a b = true -> string_lt a b \/ a = b.
Proof.
  unfold string_lt, String.leb, String.ltb.
  destruct (String.compare a b) eqn:E; try discriminate; intros _.
  - right. apply String.compare_eq_iff, E.
  - left. reflexivity.
Qed.

Lemma leb_false_lt a b : String.leb a b = false -> string_lt b a.
Proof.
  unfold string_lt, String.leb, String.ltb. rewrite (String.compare_antisym b a).
  intros H. destruct (String.compare a b); simpl in *; try discriminate; reflexivity.
Qed.

(** *** Sorting distinct keys *)

Lemma insert_sorted_elem k l q : q ∈ insert_sorted k l <-> q = k \/ q ∈ l.
Proof.
  induction l as [|x l IH]; simpl.
  - rewrite list_elem_of_singleton, elem_of_nil. tauto.
  - destruct (String.leb k x).
    + rewrite elem_of_cons. tauto.
    + rewrite !elem_of_cons, IH. tauto.
Qed.

Lemma insert_sorted_sorted k l :
  (k ∉ l) -> StronglySorted string_lt l -> StronglySorted string_lt (insert_sorted k l).
Proof.
  intros Hk Hs. induction Hs as [|x l Hs IH Hx]; simpl.
  - repeat constructor.
  - destruct (String.leb k x) eqn:E.
    + apply leb_ltb_or_eq in E as [Hlt| ->].
      2:{ exfalso. apply Hk, list_elem_of_here. }
      constructor; [constructor; assumption|].
      constructor; [exact Hlt|].
      eapply List.Forall_impl; [|exact Hx]. intros y Hy. eapply string_lt_trans; eauto.
    + apply leb_false_lt in E.
      constructor.
      * apply IH. intros Hin. apply Hk. apply elem_of_cons. auto.
      * apply List.Forall_forall. intros y Hy. apply list_elem_of_In in Hy.
        apply insert_sorted_elem in Hy as [->|Hy]; [exact E|].
        rewrite List.Forall_forall in Hx. apply Hx, list_elem_of_In, Hy.
Qed.

Lemma sort_Strings_elem l q : q ∈ sort_Strings l <-> q ∈ l.
Proof.
  induction l as [|k l IH]; simpl; [reflexivity|].
  rewrite insert_sorted_elem, elem_of_cons, IH. reflexivity.
Qed.

Lemma sort_Strings_sorted l : NoDup l -> StronglySorted string_lt (sort_Strings l).
Proof.
  induction 1 as [|k l Hk Hnd IH]; simpl; [constructor|].
  apply insert_sorted_sorted; [|exact IH]. rewrite sort_Strings_elem. exact Hk.
Qed.

(** Two strictly sorted lists with the same elements are equal. *)
Lemma sorted_unique l1 : forall l2,
  StronglySorted string_lt l1 -> StronglySorted string_lt l2 ->
  (forall k, k ∈ l1 <-> k ∈ l2) -> l1 = l2.
Proof.
  induction l1 as [|a l1 IH]; intros [|b l2] H1 H2 Hel.
  - reflexivity.
  - exfalso. eapply not_elem_of_nil, Hel, list_elem_of_here.
  - exfalso. eapply not_elem_of_nil, Hel, list_elem_of_here.
  - inversion H1 as [|? ? S1 F1]; inversion H2 as [|? ? S2 F2]; subst.
    rewrite List.Forall_forall in F1, F2.
    assert (a = b) as ->.
    { assert (a ∈ b :: l2) as Ha by (apply Hel, list_elem_of_here).
      assert (b ∈ a :: l1) as Hb by (apply Hel, list_elem_of_here).
      apply elem_of_cons in Ha as [Ha|Ha]; [exact Ha|].
      apply elem_of_cons in Hb as [Hb|Hb]; [congruence|].
      exfalso. apply (string_lt_irrefl a).
      eapply string_lt_trans; [apply F1, list_elem_of_In, Hb | apply F2, list_elem_of_In, Ha]. }
    f_equal. apply IH; auto.
    intros k. split; intros Hk.
    + assert (k ∈ b :: l2) as H by (apply Hel, elem_of_cons; auto).
      apply elem_of_cons in H as [->|H]; [|exact H].
      exfalso. apply (string_lt_irrefl b), F1, list_elem_of_In, Hk.
    + assert (k ∈ b :: l1) as H by (apply Hel, elem_of_cons; auto).
      apply elem_of_cons in H as [->|H]; [|exact H].
      exfalso. apply (string_lt_irrefl b), F2, list_elem_of_In, Hk.
Qed.

(** *** The keys collected and the index *)

Lemma join_keys_first kx : forall keys (km : gmap string bool),
  (forall k, default false (km !! k) = true <-> k ∈ keys) ->
  let '(keys', km') :=
    fold_left (fun '(keys, km) k => (keys ++ [k], <[k := true]> km)) kx (keys, km) in
  keys' = keys ++ kx /\ (forall k, default false (km' !! k) = true <-> k ∈ keys').
Proof.
  induction kx as [|a kx IH]; intros keys km Hkm; simpl.
  - rewrite app_nil_r. auto.
  - assert (Hkm1 : forall k, default false (<[a := true]> km !! k) = true <-> k ∈ keys ++ [a]).
    { intros k. rewrite elem_of_app, list_elem_of_singleton.
      destruct (decide (a = k)) as [->|Hne].
      - rewrite lookup_insert_eq. simpl. tauto.
      - rewrite lookup_insert_ne by exact Hne. rewrite Hkm. split; [tauto|].
        intros [H|H]; [exact H | congruence]. }
    specialize (IH (keys ++ [a]) (<[a := true]> km) Hkm1).
    destruct (fold_left _ kx (keys ++ [a], <[a := true]> km)) as [keys' km'].
    destruct IH as [-> Hkm']. rewrite <- app_assoc in Hkm' |- *.
    split; [reflexivity | exact Hkm'].
Qed.

Lemma join_keys_second ky : forall keys (km : gmap string bool),
  NoDup keys -> (forall k, default false (km !! k) = true <-> k ∈ keys) ->
  let '(keys', km') :=
    fold_left (fun '(keys, km) k =>
                 if default false (km !! k) then (keys, km)
                 else (keys ++ [k], <[k := true]> km)) ky (keys, km) in
  NoDup keys' /\ (forall k, k ∈ keys' <-> k ∈ keys \/ k ∈ ky).
Proof.
  induction ky as [|a ky IH]; intros keys km Hnd Hkm; simpl.
  - split; [exact Hnd|]. intros k. rewrite elem_of_nil. tauto.
  - destruct (default false (km !! a)) eqn:Ea.
    + specialize (IH keys km Hnd Hkm).
      destruct (fold_left _ ky (keys, km)) as [keys' km']. destruct IH as [Hnd' Hel].
      split; [exact Hnd'|]. intros k. rewrite Hel, elem_of_cons.
      split; [tauto|]. intros [H|[->|H]]; auto. left. apply Hkm, Ea.
    + assert (a ∉ keys) as Ha by (intros H; apply Hkm in H; congruence).
      assert (Hnd1 : NoDup (keys ++ [a])).
      { apply list.NoDup_app. split; [exact Hnd|]. split; [|apply NoDup_singleton].
        intros k Hk Hk'. apply list_elem_of_singleton in Hk'. congruence. }
      assert (Hkm1 : forall k, default false (<[a := true]> km !! k) = true
                               <-> k ∈ keys ++ [a]).
      { intros k. rewrite elem_of_app, list_elem_of_singleton.
        destruct (decide (a = k)) as [->|Hne].
        - rewrite lookup_insert_eq. simpl. tauto.
        - rewrite lookup_insert_ne by exact Hne. rewrite Hkm. split; [tauto|].
          intros [H|H]; [exact H | congruence]. }
      specialize (IH (keys ++ [a]) (<[a := true]> km) Hnd1 Hkm1).
      destruct (fold_left _ ky (keys ++ [a], <[a := true]> km)) as [keys' km'].
      destruct IH as [Hnd' Hel].
      split; [exact Hnd'|]. intros k.
      rewrite Hel, elem_of_app, list_elem_of_singleton, elem_of_cons. tauto.
Qed.

Lemma join_keys_spec kx ky :
  NoDup kx -> NoDup (join_keys kx ky) /\ forall k, k ∈ join_keys kx ky <-> k ∈ kx \/ k ∈ ky.
Proof.
  intros Hnd. unfold join_keys.
  assert (H0 : forall k, default false ((∅ : gmap string bool) !! k) = true <-> k ∈ @nil string).
  { intros k. rewrite lookup_empty, elem_of_nil. simpl. split; [discriminate | tauto]. }
  pose proof (join_keys_first kx [] ∅ H0) as H1.
  destruct (fold_left _ kx ([], ∅)) as [keys km].
  destruct H1 as [-> Hkm].
  simpl in Hkm |- *.
  pose proof (join_keys_second ky kx km Hnd Hkm) as H2.
  destruct (fold_left _ ky (kx, km)) as [keys' km']. exact H2.
Qed.

Lemma indexMap_fold x : forall (r : gmap string StepMetric) k,
  is_Some (fold_left (fun r m => <[Output m := m]> r) x r !! k)
  <-> is_Some (r !! k) \/ exists m, m ∈ x /\ Output m = k.
Proof.
  induction x as [|a x IH]; intros r k; simpl.
  - split; [auto|]. intros [H|(m & Hm & _)]; [exact H|].
    apply not_elem_of_nil in Hm. contradiction.
  - rewrite IH. destruct (decide (Output a = k)) as [<-|Hne].
    + rewrite lookup_insert_eq. split.
      * intros _. right. exists a. split; [apply list_elem_of_here | reflexivity].
      * intros _. left. eauto.
    + rewrite lookup_insert_ne by exact Hne. split.
      * intros [H|(m & Hm & Ho)]; [auto|]. right. exists m. split; [|exact Ho].
        apply elem_of_cons. auto.
      * intros [H|(m & Hm & Ho)]; [auto|]. apply elem_of_cons in Hm as [->|Hm].
        -- congruence.
        -- right. eauto.
Qed.

Lemma indexMap_dom x k :
  is_Some (indexMap x !! k) <-> exists m, m ∈ x /\ Output m = k.
Proof.
  unfold indexMap. rewrite indexMap_fold, lookup_empty. split; [|auto].
  intros [[? H]|H]; [discriminate | exact H].
Qed.

Lemma fold_left_rows (f : string -> list StepMetric) keys : forall r,
  fold_left (fun r k => r ++ [f k]) keys r = r ++ (f <$> keys).
Proof.
  induction keys as [|k keys IH]; intros r; simpl; [symmetry; apply app_nil_r|].
  rewrite IH, <- app_assoc. reflexivity.
Qed.

(** X28: [join] is deterministic although it ranges over Go maps, and its
    rows are sorted.  Whatever the orders in which the two [range] loops
    visit the keys, the result has one row per output that occurs in [x]
    or in [y], in strictly increasing order of the output; the row of an
    output holds the metric indexed for it in [x] and the one in [y], the
    zero value standing for a missing one; and two runs with other visiting
    orders give the same result. *)
Theorem join_sorted_and_deterministic (x y : list StepMetric) (kx ky : list string)
    (Hx : range_order (indexMap x) kx) (Hy : range_order (indexMap y) ky) :
  exists keys,
    join kx ky x y = row x y <$> keys /\
    StronglySorted string_lt keys /\
    (forall k, k ∈ keys <-> exists m, m ∈ x ++ y /\ Output m = k) /\
    (forall kx' ky', range_order (indexMap x) kx' -> range_order (indexMap y) ky' ->
       join kx' ky' x y = join kx ky x y).
Proof.
  destruct Hx as [Hndx Hkx], Hy as [Hndy Hky].
  destruct (join_keys_spec kx ky Hndx) as [Hnd Hel].
  assert (Hrows : forall kx0 ky0,
            join kx0 ky0 x y = row x y <$> sort_Strings (join_keys kx0 ky0)).
  { intros kx0 ky0. unfold join. rewrite (fold_left_rows (row x y)). reflexivity. }
  exists (sort_Strings (join_keys kx ky)). split_and!.
  - apply Hrows.
  - apply sort_Strings_sorted, Hnd.
  - intros k. rewrite sort_Strings_elem, Hel, Hkx, Hky, !indexMap_dom. split.
    + intros [(m & Hm & Ho)|(m & Hm & Ho)]; exists m; rewrite elem_of_app; auto.
    + intros (m & Hm & Ho). apply elem_of_app in Hm as [Hm|Hm]; eauto.
  - intros kx' ky' [Hndx' Hkx'] [Hndy' Hky'].
    destruct (join_keys_spec kx' ky' Hndx') as [Hnd' Hel'].
    rewrite !Hrows. f_equal. apply sorted_unique.
    + apply sort_Strings_sorted, Hnd'.
    + apply sort_Strings_sorted, Hnd.
    + intros k. rewrite !sort_Strings_elem, Hel, Hel', Hkx, Hky, Hkx', Hky'. reflexivity.
Qed.

(** Two metrics files that share the output [b.o]. *)
Definition metrics_a : list StepMetric :=
  [mkStepMetric "CXX" "b.o" 10 12 300; mkStepMetric "CXX" "a.o" 5 6 200].
Definition metrics_b : list StepMetric :=
  [mkStepMetric "CXX" "b.o" 11 13 250; mkStepMetric "LINK" "c" 400 410 90].

Lemma join_sorted_and_deterministic_witness :
  range_order (indexMap metrics_a) ["b.o"; "a.o"]%string /\
  range_order (indexMap metrics_b) ["c"; "b.o"]%string /\
  exists keys,
    join ["b.o"; "a.o"]%string ["c"; "b.o"]%string metrics_a metrics_b
      = row metrics_a metrics_b <$> keys /\
    StronglySorted string_lt keys /\
    (forall k, k ∈ keys <-> exists m, m ∈ metrics_a ++ metrics_b /\ Output m = k) /\
    (forall kx' ky', range_order (indexMap metrics_a) kx' ->
       range_order (indexMap metrics_b) ky' ->
       join kx' ky' metrics_a metrics_b
       = join ["b.o"; "a.o"]%string ["c"; "b.o"]%string metrics_a metrics_b).
Proof.
  assert (range_order (indexMap metrics_a) ["b.o"; "a.o"]%string) as Ha.
  { split.
    - repeat constructor; rewrite ?elem_of_cons, ?elem_of_nil;
        intros H; repeat destruct H as [H|H]; try discriminate; auto.
    - intros k. rewrite indexMap_dom. split.
      + intros H. apply elem_of_cons in H as [->|H];
          [eexists; split; [apply list_elem_of_here | reflexivity]|].
        apply list_elem_of_singleton in H as ->.
        eexists; split; [apply list_elem_of_further, list_elem_of_here | reflexivity].
      + intros (m & Hm & <-). apply elem_of_cons in Hm as [->|Hm];
          [apply list_elem_of_here|].
        apply list_elem_of_singleton in Hm as ->.
        apply list_elem_of_further, list_elem_of_here. }
  assert (range_order (indexMap metrics_b) ["c"; "b.o"]%string) as Hb.
  { split.
    - repeat constructor; rewrite ?elem_of_cons, ?elem_of_nil;
        intros H; repeat destruct H as [H|H]; try discriminate; auto.
    - intros k. rewrite indexMap_dom. split.
      + intros H. apply elem_of_cons in H as [->|H];
          [eexists; split; [apply list_elem_of_further, list_elem_of_here | reflexivity]|].
        apply list_elem_of_singleton in H as ->.
        eexists; split; [apply list_elem_of_here | reflexivity].
      + intros (m & Hm & <-). apply elem_of_cons in Hm as [->|Hm];
          [apply list_elem_of_further, list_elem_of_here|].
        apply list_elem_of_singleton in Hm as ->.
        apply list_elem_of_here. }
  exact (conj Ha (conj Hb
           (join_sorted_and_deterministic metrics_a metrics_b _ _ Ha Hb))).
Defined.

(** The rows of the example: [a.o] only in the first file, [b.o] in both,
    [c] only in the second. *)
Example join_example :
  join ["b.o"; "a.o"]%string ["c"; "b.o"]%string metrics_a metrics_b
  = [[mkStepMetric "CXX" "a.o" 5 6 200; zero];
     [mkStepMetric "CXX" "b.o" 10 12 300; mkStepMetric "CXX" "b.o" 11 13 250];
     [zero; mkStepMetric "LINK" "c" 400 410 90]].
Proof. vm_compute. reflexivity. Qed.

End metricscmd.

(* ================================================================= *)
(** ** reapi/bytestreamio/bytestreamio.go *)

Module bytestreamio.

Definition bytes := list Z.

Inductive error :=
  | io_EOF
  | rpc_error (msg : string)
  | bad_Reader                                   (* failed to read: bad Reader *)
  | bad_Writer                                   (* failed to write: bad Writer *)
  | failed_to_send (name : string) (err : error).

(** [errors.Is(err, io.EOF)]; [fmt.Errorf] with [%w] wraps. *)
Fixpoint is_EOF (err : error) : bool :=
  match err with
  | io_EOF => true
  | failed_to_send _ err => is_EOF err
  | _ => false
  end.

(** *** Reader *)

(** The read stream [rd] as the client sees it: the data of the responses
    that [Recv] will still return, and the error it returns after them
    ([io.EOF] at the end of the resource). *)
Record ReadClient := mkReadClient { resps : list bytes; fin : error }.

(** [Reader]; a nil [rd] is [None]. *)
Record Reader := mkReader {
  rd : option ReadClient;
  buf : bytes;
  size : Z
}.

(** [Read]; the result is the reader, the caller's buffer and the Go pair
    [(int, error)]. *)
Definition Read (r : Reader) (p : bytes) : Reader * bytes * (Z * option error) :=
  match rd r with
  | None => (r, p, (0, Some bad_Reader))
  | Some c =>
      if (0 <? length (buf r))%nat then
        let (p, n) := builtin.copy p (buf r) in
        (mkReader (rd r) (drop n (buf r)) (size r + Z.of_nat n), p, (Z.of_nat n, None))
      else
        match resps c with
        | [] => (r, p, (0, Some (fin c)))
        | data :: rest =>
            let (p, n) := builtin.copy p data in
            (mkReader (Some (mkReadClient rest (fin c))) (drop n data)
                      (size r + Z.of_nat n),
             p, (Z.of_nat n, None))
        end
  end.

Definition Size (r : Reader) : Z := size r.

(** Reading with a buffer of [c] bytes until [Read] returns an error, as
    [io.Copy] does; the result is the reader, the chunks read in order and
    the error.  [None]: no error within [fuel] calls. *)
Fixpoint read_to_error (fuel : nat) (r : Reader) (c : nat)
  : option (Reader * list bytes * error) :=
  match fuel with
  | O => None
  | S fuel =>
      match Read r (repeat 0 c) with
      | (r, _, (_, Some err)) => Some (r, [], err)
      | (r, p, (n, None)) =>
          '(r, chunks, err) ← read_to_error fuel r c;
          Some (r, take (Z.to_nat n) p :: chunks, err)
      end
  end.

(** The number of calls of [Read] that surely reach the end of the stream:
    one per byte, one per response, and the one that returns the error. *)
Definition calls_needed (r : Reader) : nat :=
  match rd r with
  | None => 1
  | Some c => S (length (buf r) + sum_list (fmap (fun d => S (length d)) (resps c)))
  end.

Lemma copy_zero_buffer (c : nat) (src : bytes) :
  builtin.copy (repeat 0 c) src
  = (take c src ++ drop (Nat.min c (length src)) (repeat 0 c), Nat.min c (length src)).
Proof.
  unfold builtin.copy. rewrite repeat_length.
  destruct (Nat.min_spec c (length src)) as [[Hlt ->]|[Hge ->]]; [reflexivity|].
  rewrite (take_ge src c), (take_ge src (length src)) by lia. reflexivity.
Qed.

Lemma take_copied (c : nat) (src : bytes) :
  take (Z.to_nat (Z.of_nat (Nat.min c (length src))))
       (take c src ++ drop (Nat.min c (length src)) (repeat 0 c))
  = take c src.
Proof.
  rewrite Nat2Z.id, take_app_le by (rewrite length_take; lia).
  apply take_ge. rewrite length_take. lia.
Qed.

Lemma calls_cons (data : bytes) (rest : list bytes) :
  sum_list (fmap (fun d => S (length d)) (data :: rest))
  = (S (length data) + sum_list (fmap (fun d => S (length d)) rest))%nat.
Proof. reflexivity. Qed.

Lemma read_to_error_spec (c : nat) (Hc : (0 < c)%nat) : forall fuel st b sz,
  (S (length b + sum_list (fmap (fun d => S (length d)) (resps st))) <= fuel)%nat ->
  exists r' chunks,
    read_to_error fuel (mkReader (Some st) b sz) c = Some (r', chunks, fin st) /\
    concat chunks = b ++ concat (resps st) /\
    Forall (fun chunk => (length chunk <= c)%nat) chunks /\
    size r' = sz + Z.of_nat (length (b ++ concat (resps st))) /\
    buf r' = [] /\ rd r' = Some (mkReadClient [] (fin st)).
Proof.
  induction fuel as [|fuel IH]; intros st b sz Hf; [lia|].
  cbn [read_to_error]. unfold Read. cbn [rd buf size].
  destruct b as [|x b].
  - cbn [length]. destruct (Nat.ltb_spec 0 0) as [|_]; [lia|].
    destruct st as [[|data rest] e]; cbn [resps fin].
    + eexists _, []. split; [reflexivity|]. cbn. split_and!; auto. lia.
    + rewrite copy_zero_buffer.
      cbn [resps] in Hf. rewrite calls_cons in Hf.
      destruct (IH (mkReadClient rest e) (drop (Nat.min c (length data)) data)
                   (sz + Z.of_nat (Nat.min c (length data))))
        as (r' & chunks & HR & Hcat & Hall & Hsz & Hb & Hrd).
      { cbn [resps]. rewrite length_drop. lia. }
      rewrite HR. cbn [mbind option_bind]. cbn [fin resps] in *.
      eexists r', _. split; [reflexivity|]. rewrite take_copied.
      split_and!; auto.
      * cbn [concat app]. rewrite Hcat, app_assoc.
        replace (drop (Nat.min c (length data)) data) with (drop c data).
        2:{ destruct (Nat.min_spec c (length data)) as [[? ->]|[? ->]]; [reflexivity|].
            rewrite !drop_ge by lia. reflexivity. }
        rewrite take_drop. reflexivity.
      * constructor; [rewrite length_take; lia | exact Hall].
      * rewrite Hsz. cbn [concat app]. rewrite !length_app, length_drop. lia.
  - cbn [length]. destruct (Nat.ltb_spec 0 (S (length b))) as [_|]; [|lia].
    rewrite copy_zero_buffer.
    destruct (IH st (drop (Nat.min c (length (x :: b))) (x :: b))
                 (sz + Z.of_nat (Nat.min c (length (x :: b)))))
      as (r' & chunks & HR & Hcat & Hall & Hsz & Hb & Hrd).
    { rewrite length_drop. simpl in *. lia. }
    rewrite HR. cbn [mbind option_bind].
    eexists r', _. split; [reflexivity|]. rewrite take_copied.
    split_and!; auto.
    + cbn [concat]. rewrite Hcat, app_assoc.
      replace (drop (Nat.min c (length (x :: b))) (x :: b)) with (drop c (x :: b)).
      2:{ destruct (Nat.min_spec c (length (x :: b))) as [[? ->]|[? ->]]; [reflexivity|].
          rewrite !drop_ge by lia. reflexivity. }
      rewrite take_drop. reflexivity.
    + constructor; [rewrite length_take; lia | exact Hall].
    + rewrite Hsz. rewrite !length_app, length_drop. simpl length. lia.
Qed.

(** X29: a [Reader] hands on what the server sends.  Reading with a buffer
    of [c > 0] bytes until [Read] returns an error yields, in order, the
    bytes that were buffered in the reader followed by the data of all
    responses of the stream, in chunks that fit the buffer; the error is the
    one that ended the stream ([io.EOF] at the end of the resource); and
    [Size] has grown by the number of bytes read.  A reader without a
    stream fails at once. *)
Theorem Reader_hands_on_the_stream (r : Reader) (c : nat) (st : ReadClient)
    (Hc : (0 < c)%nat) (Hrd : rd r = Some st) :
  exists r' chunks,
    read_to_error (calls_needed r) r c = Some (r', chunks, fin st) /\
    concat chunks = buf r ++ concat (resps st) /\
    Forall (fun chunk => (length chunk <= c)%nat) chunks /\
    Size r' = Size r + Z.of_nat (length (buf r ++ concat (resps st))) /\
    (forall p, Read (mkReader None (buf r) (size r)) p
               = (mkReader None (buf r) (size r), p, (0, Some bad_Reader))).
Proof.
  destruct r as [rd0 b sz]. simpl in Hrd. subst rd0.
  destruct (read_to_error_spec c Hc (calls_needed (mkReader (Some st) b sz)) st b sz)
    as (r' & chunks & HR & Hcat & Hall & Hsz & _).
  { unfold calls_needed. simpl. lia. }
  exists r', chunks. split_and!; auto.
Qed.

(** A reader on a stream of two responses, the second one empty, read with
    a buffer of two bytes. *)
Definition two_responses : Reader :=
  mkReader (Some (mkReadClient [[1; 2; 3]; []] io_EOF)) [] 0.

Lemma Reader_hands_on_the_stream_witness :
  (0 < 2)%nat /\ rd two_responses = Some (mkReadClient [[1; 2; 3]; []] io_EOF) /\
  exists r' chunks,
    read_to_error (calls_needed two_responses) two_responses 2
      = Some (r', chunks, io_EOF) /\
    concat chunks = [1; 2; 3] /\ Size r' = 3.
Proof.
  assert (0 < 2)%nat as Hc by lia.
  split; [exact Hc|]. split; [reflexivity|].
  destruct (Reader_hands_on_the_stream two_responses 2 _ Hc eq_refl)
    as (r' & chunks & HR & Hcat & _ & Hsz & _).
  exists r', chunks. split; [exact HR|]. split; [exact Hcat | exact Hsz].
Defined.

(** *** Writer *)

Record WriteRequest := mkWriteRequest {
  ResourceName : string;
  WriteOffset : Z;
  Data : bytes;
  FinishWrite : bool
}.

(** [Writer]; the write stream [wr] is the list of requests that [Send]
    accepted so far, a nil [wr] is [None]. *)
Record Writer := mkWriter {
  name : string;
  resname : string;
  wsize : Z;
  wr : option (list WriteRequest);
  offset : Z;
  ok : bool
}.

Definition streamBufSize : Z := 2 * 1024 * 1024.

Section Writer.

(** The error, if any, that [Send] returns for a request, given the
    requests accepted before. *)
Variable Send : list WriteRequest -> WriteRequest -> option error.

(** The loop [for p < n] of [Write]; each turn sends at least one byte, so
    [n] turns suffice. *)
Fixpoint Write_loop (fuel : nat) (w : Writer) (sent : list WriteRequest)
    (buf : bytes) (p : Z) : option (Writer * (Z * option error)) :=
  let n := Z.of_nat (length buf) in
  if negb (p <? n) then
    Some (mkWriter (name w) (resname w) (wsize w) (Some sent) (offset w) (ok w), (n, None))
  else
    match fuel with
    | O => None
    | S fuel =>
        let bufsize := Z.of_nat (length (drop (Z.to_nat p) buf)) in
        let bufsize := if streamBufSize <? bufsize then streamBufSize else bufsize in
        let req := mkWriteRequest (resname w) (offset w)
                     (take (Z.to_nat bufsize) (drop (Z.to_nat p) buf)) false in
        match Send sent req with
        | Some err =>
            if is_EOF err then
              Some (mkWriter (name w) (resname w) (wsize w) (Some sent) (offset w) true,
                    (n, None))
            else
              Some (mkWriter (name w) (resname w) (wsize w) (Some sent) (offset w) (ok w),
                    (p, Some (failed_to_send (name w) err)))
        | None =>
            let w := mkWriter (name w) (resname w) (wsize w) (Some (sent ++ [req]))
                              (offset w + bufsize) (ok w) in
            Write_loop fuel w (sent ++ [req]) buf (p + bufsize)
        end
    end.

Definition Write (w : Writer) (buf : bytes) : option (Writer * (Z * option error)) :=
  match wr w with
  | None => Some (w, (0, Some bad_Writer))
  | Some sent =>
      if ok w then Some (w, (Z.of_nat (length buf), None))
      else Write_loop (length buf) w sent buf 0
  end.

(** Requests that continue one another: each starts at the offset where
    the one before ended. *)
Fixpoint contiguous (off : Z) (reqs : list WriteRequest) : Prop :=
  match reqs with
  | [] => True
  | r :: reqs => WriteOffset r = off /\ contiguous (off + Z.of_nat (length (Data r))) reqs
  end.

Lemma Write_loop_spec (Hsend : forall sent req, Send sent req = None) :
  forall fuel w sent buf p,
  0 <= p <= Z.of_nat (length buf) -> (length buf - Z.to_nat p <= fuel)%nat ->
  exists reqs,
    Write_loop fuel w sent buf p
    = Some (mkWriter (name w) (resname w) (wsize w) (Some (sent ++ reqs))
                     (offset w + (Z.of_nat (length buf) - p)) (ok w),
            (Z.of_nat (length buf), None)) /\
    concat (Data <$> reqs) = drop (Z.to_nat p) buf /\
    contiguous (offset w) reqs /\
    Forall (fun r => ResourceName r = resname w /\ FinishWrite r = false /\
                     0 < Z.of_nat (length (Data r)) <= streamBufSize) reqs.
Proof.
  induction fuel as [|fuel IH]; intros w sent buf p Hp Hf.
  - assert (p = Z.of_nat (length buf)) as -> by lia.
    exists []. cbn [Write_loop]. rewrite Z.ltb_irrefl. simpl negb. cbv iota.
    rewrite app_nil_r, Z.sub_diag, Z.add_0_r. split_and!; auto.
    + rewrite Nat2Z.id, drop_all. reflexivity.
    + exact I.
  - cbn [Write_loop]. destruct (Z.ltb_spec p (Z.of_nat (length buf))) as [Hlt|Hge];
      simpl negb; cbv iota.
    2:{ assert (p = Z.of_nat (length buf)) as -> by lia.
        exists []. rewrite app_nil_r, Z.sub_diag, Z.add_0_r. split_and!; auto.
        - rewrite Nat2Z.id, drop_all. reflexivity.
        - exact I. }
    rewrite Hsend.
    set (rest := drop (Z.to_nat p) buf).
    set (bufsize := if streamBufSize <? Z.of_nat (length rest) then streamBufSize
                    else Z.of_nat (length rest)).
    assert (length rest = (length buf - Z.to_nat p)%nat) as Hrest
      by (unfold rest; apply length_drop).
    assert (0 < bufsize <= streamBufSize /\ bufsize <= Z.of_nat (length rest)) as [Hb1 Hb2].
    { unfold bufsize, streamBufSize.
      destruct (Z.ltb_spec (2 * 1024 * 1024) (Z.of_nat (length rest))); lia. }
    set (req := mkWriteRequest (resname w) (offset w) (take (Z.to_nat bufsize) rest) false).
    set (w1 := mkWriter _ _ _ _ _ _).
    destruct (IH w1 (sent ++ [req]) buf (p + bufsize)) as (reqs & HW & Hcat & Hcont & Hall).
    { lia. }
    { lia. }
    rewrite HW. exists (req :: reqs). subst w1. cbn [name resname wsize offset ok] in *.
    rewrite <- app_assoc. cbn [app].
    assert (length (Data req) = Z.to_nat bufsize) as Hlen.
    { unfold req. cbn [Data]. rewrite length_take. lia. }
    split_and!.
    + do 2 f_equal. f_equal. lia.
    + cbn [fmap list_fmap concat]. change (list_fmap _ _ Data reqs) with (Data <$> reqs).
      rewrite Hcat. unfold req. cbn [Data]. unfold rest.
      replace (Z.to_nat (p + bufsize)) with (Z.to_nat p + Z.to_nat bufsize)%nat by lia.
      rewrite <- drop_drop. apply take_drop.
    + cbn [contiguous]. split; [reflexivity|]. rewrite Hlen, Z2Nat.id by lia. exact Hcont.
    + constructor; [|exact Hall]. rewrite Hlen, Z2Nat.id by lia. auto.
Qed.

(** X30: [Write] sends its buffer in contiguous chunks of at most 2 MiB.
    When the server accepts every request, [Write] returns [(len(buf),
    nil)]; the requests it sent carry the bytes of [buf] in order, each with
    at least one byte and at most [streamBufSize], each for the resource of
    the writer and without [FinishWrite]; the first starts at the offset of
    the writer and each next one where the one before ended; and the offset
    of the writer has advanced by [len(buf)].  A writer that was told
    [io.EOF] before ([ok]) sends nothing and reports the buffer as written;
    a writer without a stream fails. *)
Theorem Write_sends_contiguous_chunks (w : Writer) (sent : list WriteRequest) (buf : bytes)
    (Hsend : forall sent req, Send sent req = None)
    (Hwr : wr w = Some sent) :
  (ok w = false ->
     exists reqs,
       Write w buf
       = Some (mkWriter (name w) (resname w) (wsize w) (Some (sent ++ reqs))
                        (offset w + Z.of_nat (length buf)) false,
               (Z.of_nat (length buf), None)) /\
       concat (Data <$> reqs) = buf /\
       contiguous (offset w) reqs /\
       Forall (fun r => ResourceName r = resname w /\ FinishWrite r = false /\
                        0 < Z.of_nat (length (Data r)) <= streamBufSize) reqs) /\
  (ok w = true -> Write w buf = Some (w, (Z.of_nat (length buf), None))) /\
  Write (mkWriter (name w) (resname w) (wsize w) None (offset w) (ok w)) buf
  = Some (mkWriter (name w) (resname w) (wsize w) None (offset w) (ok w),
          (0, Some bad_Writer)).
Proof.
  split_and!.
  - intros Hok. unfold Write. rewrite Hwr, Hok.
    destruct (Write_loop_spec Hsend (length buf) w sent buf 0)
      as (reqs & HW & Hcat & Hcont & Hall); [lia | simpl; lia |].
    exists reqs. rewrite HW, Hok, Z.sub_0_r. split_and!; auto.
  - intros Hok. unfold Write. rewrite Hwr, Hok. reflexivity.
  - reflexivity.
Qed.

End Writer.

(** A server that accepts everything, and a new writer. *)
Definition accept_all (sent : list WriteRequest) (req : WriteRequest) : option error := None.
Definition new_writer : Writer :=
  mkWriter "a.o" "uploads/1/blobs/abc/3" 3 (Some []) 0 false.

Lemma Write_sends_contiguous_chunks_witness :
  (forall sent req, accept_all sent req = None) /\
  wr new_writer = Some [] /\
  Write accept_all new_writer [7; 8; 9]
  = Some (mkWriter "a.o" "uploads/1/blobs/abc/3" 3
            (Some [mkWriteRequest "uploads/1/blobs/abc/3" 0 [7; 8; 9] false]) 3 false,
          (3, None)).
Proof.
  assert (forall sent req, accept_all sent req = None) as H by reflexivity.
  split; [exact H|]. split; [reflexivity|].
  destruct (proj1 (Write_sends_contiguous_chunks accept_all new_writer [] [7; 8; 9]
                     H eq_refl) eq_refl) as (reqs & HW & _).
  reflexivity.
Defined.

End bytestreamio.
